(** * Sozi document model: layers and frames

    A shallow embedding of [sozi.document.Frame] and
    [sozi.document.Presentation]: the layer-building pass run by
    [Presentation.init], the selection operations and [addFrame].

    DOM nodes are trees carrying an object identity; the presentation
    holds the live child list of its SVG root, a map of layers and a
    sequence of frames.  Runtime failures of the JavaScript code (a
    property access on [undefined], a DOM NotFoundError) are outcomes
    of the operations, together with the state reached when they are
    raised. *)

From Stdlib Require Import Ascii.
From stdpp Require Import base strings pretty list gmap fin_maps.

(** ** Strings *)

(** [String.prototype.toLowerCase], on the ASCII letters. *)
Definition toLowerCase_ascii (c : ascii) : ascii :=
  let n := nat_of_ascii c in
  if (Nat.leb 65 n && Nat.leb n 90)%bool then ascii_of_nat (n + 32) else c.

Fixpoint toLowerCase (s : string) : string :=
  match s with
  | EmptyString => EmptyString
  | String c s' => String (toLowerCase_ascii c) (toLowerCase s')
  end.

Fixpoint indexOf_from (l : list string) (x : string) (i : Z) : Z :=
  match l with
  | [] => (-1)%Z
  | y :: l' => if String.eqb y x then i else indexOf_from l' x (i + 1)%Z
  end.

(** [Array.prototype.indexOf]: the first position of [x], or -1. *)
Definition indexOf (l : list string) (x : string) : Z := indexOf_from l x 0%Z.

(** ** Constants of the module *)

Definition SVG_NS : string := "http://www.w3.org/2000/svg".

Definition INKSCAPE_NS : string := "http://www.inkscape.org/namespaces/inkscape".

Definition DRAWABLE_TAGS : list string :=
  [ "g"; "image"; "path"; "rect"; "circle";
    "ellipse"; "line"; "polyline"; "polygon"; "text"; "clippath" ].

(** ** DOM nodes *)

(** [uid] stands for the identity of the node object.  Text nodes and
    comments are [CharacterData]: they have no [tagName]. *)
#[warnings="-register-all"]
Inductive Node : Type :=
| CharacterData (uid : nat) (data : string)
| Element (uid : nat) (namespaceURI localName : string)
          (attributes : list (string * string)) (childNodes : list Node).

Definition uid (n : Node) : nat :=
  match n with
  | CharacterData u _ => u
  | Element u _ _ _ _ => u
  end.

(** The qualified name of an element; [None] is [undefined]. *)
Definition tagName (n : Node) : option string :=
  match n with
  | CharacterData _ _ => None
  | Element _ _ name _ _ => Some name
  end.

Definition localName (n : Node) : string :=
  match n with
  | CharacterData _ _ => EmptyString
  | Element _ _ name _ _ => name
  end.

Definition attributes (n : Node) : list (string * string) :=
  match n with
  | CharacterData _ _ => []
  | Element _ _ _ attrs _ => attrs
  end.

Definition childNodes (n : Node) : list Node :=
  match n with
  | CharacterData _ _ => []
  | Element _ _ _ _ ch => ch
  end.

Fixpoint lookupAttribute (attrs : list (string * string)) (name : string)
  : option string :=
  match attrs with
  | [] => None
  | (k, v) :: attrs' =>
      if String.eqb k name then Some v else lookupAttribute attrs' name
  end.

(** [getAttribute] gives [null] ([None]) for a missing attribute. *)
Definition getAttribute (n : Node) (name : string) : option string :=
  lookupAttribute (attributes n) name.

Definition hasAttribute (n : Node) (name : string) : bool :=
  match getAttribute n name with Some _ => true | None => false end.

(** Truthiness of an attribute value: [null] and the empty string are
    falsy. *)
Definition truthy (v : option string) : bool :=
  match v with
  | Some (String _ _) => true
  | _ => false
  end.

(** [node.firstChild], as a condition. *)
Definition firstChild (n : Node) : bool :=
  match childNodes n with [] => false | _ :: _ => true end.

(** [document.createElementNS(ns, name)], given the identity of the new
    object. *)
Definition createElementNS (u : nat) (ns name : string) : Node :=
  Element u ns name [] [].

Fixpoint setAttribute_list (attrs : list (string * string)) (name value : string)
  : list (string * string) :=
  match attrs with
  | [] => [(name, value)]
  | (k, v) :: attrs' =>
      if String.eqb k name then (k, value) :: attrs'
      else (k, v) :: setAttribute_list attrs' name value
  end.

Definition setAttribute (n : Node) (name value : string) : Node :=
  match n with
  | CharacterData u d => CharacterData u d
  | Element u ns nm attrs ch => Element u ns nm (setAttribute_list attrs name value) ch
  end.

(** [parent.appendChild(child)] seen from the parent: the child becomes
    the last child. *)
Definition appendChild (parent child : Node) : Node :=
  match parent with
  | CharacterData u d => CharacterData u d
  | Element u ns nm attrs ch => Element u ns nm attrs (ch ++ [child])
  end.

(** ** Outcomes *)

Inductive Error : Type := TypeError | NotFoundError.

Inductive Outcome (St A : Type) : Type :=
| Return (a : A) (s : St)
| Throw (e : Error) (s : St).
Arguments Return {St A} a s.
Arguments Throw {St A} e s.

Definition M (St A : Type) : Type := St → Outcome St A.

Global Instance M_ret {St} : MRet (M St) := λ A a s, Return a s.

Global Instance M_bind {St} : MBind (M St) := λ A B k c s,
  match c s with
  | Return a s' => k a s'
  | Throw e s' => Throw e s'
  end.

Definition throw {St A} (e : Error) : M St A := λ s, Throw e s.

Definition gets {St A} (f : St → A) : M St A := λ s, Return (f s) s.

Definition modify {St} (f : St → St) : M St unit := λ s, Return tt (f s).

(** [Array.prototype.forEach] over a snapshot. *)
Fixpoint forEach {St A} (l : list A) (f : A → M St unit) : M St unit :=
  match l with
  | [] => mret tt
  | x :: l' => f x;; forEach l' f
  end.

(** ** Layers, frames, events *)

Module Layer.
(** [label] is [None] when the record has no such field. *)
Record t : Type := make {
  auto : bool;
  selected : bool;
  label : option string;
  svgNode : Node
}.

Definition set_selected (b : bool) (l : t) : t :=
  {| auto := auto l; selected := b; label := label l; svgNode := svgNode l |}.
End Layer.

Module Frame.
(** [state] is a handle on the view state given to [addFrame];
    [presentation] is the identity of the owning presentation. *)
Record t : Type := make {
  id : nat;
  presentation : nat;
  state : nat;
  frameId : string;
  title : string;
  selected : bool
}.

Definition set_selected (b : bool) (f : t) : t :=
  {| id := id f; presentation := presentation f; state := state f;
     frameId := frameId f; title := title f; selected := b |}.
End Frame.

Inductive Event : Type :=
| selectLayer_event (layerId : string)
| deselectLayer_event (layerId : string)
| selectFrame_event (frameIndex : Z)
| deselectFrame_event (frameIndex : Z)
| addFrame_event (frame : Frame.t) (frameIndex : Z).

Module Presentation.
(** [svgRoot] is the live list [svgRoot.childNodes]. *)
Record t : Type := make {
  id : nat;
  svgRoot : list Node;
  layers : gmap string Layer.t;
  frames : list Frame.t
}.

Definition set_svgRoot (f : list Node → list Node) (p : t) : t :=
  {| id := id p; svgRoot := f (svgRoot p); layers := layers p; frames := frames p |}.

Definition set_layers (f : gmap string Layer.t → gmap string Layer.t) (p : t) : t :=
  {| id := id p; svgRoot := svgRoot p; layers := f (layers p); frames := frames p |}.

Definition set_frames (f : list Frame.t → list Frame.t) (p : t) : t :=
  {| id := id p; svgRoot := svgRoot p; layers := layers p; frames := f (frames p) |}.
End Presentation.

(** The presentation object [this] in its environment: the identity
    counter of [sozi.model.Object], the identity of the next node that
    [document] creates, and the events fired so far, oldest first. *)
Record World : Type := {
  Object_id : nat;
  document : nat;
  this : Presentation.t;
  fired : list Event
}.

Definition set_this (f : Presentation.t → Presentation.t) (w : World) : World :=
  {| Object_id := Object_id w; document := document w; this := f (this w);
     fired := fired w |}.

(** Modelled from the spec: [sozi.model.Object.init], which this module
    calls and another file defines.  It gives the object a unique
    identity drawn from a process-wide, monotonically increasing
    counter. *)
Definition Object_init : M World nat := λ w,
  Return (Object_id w)
    {| Object_id := S (Object_id w); document := document w; this := this w;
       fired := fired w |}.

(** Modelled from the spec: [sozi.model.Object.fire], which this module
    calls and another file defines.  It calls the registered handlers
    synchronously; the handlers belong to the views, and the model keeps
    the sequence of events they are called with. *)
Definition fire (e : Event) : M World unit := λ w,
  Return tt
    {| Object_id := Object_id w; document := document w; this := this w;
       fired := fired w ++ [e] |}.

(** ** Property lookup on [this.layers] *)

(** The names that an object literal inherits from [Object.prototype];
    each of them holds a function or an object. *)
Definition Object_prototype : list string :=
  [ "constructor"; "toString"; "toLocaleString"; "valueOf"; "hasOwnProperty";
    "isPrototypeOf"; "propertyIsEnumerable"; "__proto__"; "__defineGetter__";
    "__defineSetter__"; "__lookupGetter__"; "__lookupSetter__" ].

Definition inherited (key : string) : bool :=
  bool_decide (key ∈ Object_prototype).

(** [key in this.layers]: an own property or an inherited one. *)
Definition js_in (key : string) (o : gmap string Layer.t) : bool :=
  bool_decide (is_Some (o !! key)) || inherited key.

(** A value used as a property name or in a string concatenation:
    [null] reads "null". *)
Definition toString (v : option string) : string := default "null" v.

(** ** The live child list of the root *)

(** [svgRoot.removeChild(old)]: [None] is the NotFoundError raised when
    [old] is not a child. *)
Fixpoint removeChild (l : list Node) (old : Node) : option (list Node) :=
  match l with
  | [] => None
  | c :: l' =>
      if Nat.eqb (uid c) (uid old) then Some l'
      else cons c <$> removeChild l' old
  end.

(** [svgRoot.insertBefore(new, ref)] for a [new] node that has no
    parent: [None] is the NotFoundError raised when [ref] is not a
    child. *)
Fixpoint insertBefore (l : list Node) (new ref : Node) : option (list Node) :=
  match l with
  | [] => None
  | c :: l' =>
      if Nat.eqb (uid c) (uid ref) then Some (new :: c :: l')
      else cons c <$> insertBefore l' new ref
  end.

(** What [other.appendChild(child)] does to the list that [child] is
    taken from: the child leaves it, if it is there. *)
Definition detach (l : list Node) (child : Node) : list Node :=
  default l (removeChild l child).

(** ** The layer-building pass of [Presentation.init] *)

(** The running pass: the world, and the two variables that the
    callback of [forEach] closes over. *)
Record Scope : Type := {
  world : World;
  wrapperCount : nat;
  svgWrapper : Node
}.

Definition set_world (f : World → World) (sc : Scope) : Scope :=
  {| world := f (world sc); wrapperCount := wrapperCount sc;
     svgWrapper := svgWrapper sc |}.

Definition set_svgWrapper (f : Node → Node) (sc : Scope) : Scope :=
  {| world := world sc; wrapperCount := wrapperCount sc;
     svgWrapper := f (svgWrapper sc) |}.

(** ["sozi-wrapper-" + this.id + "-" + wrapperCount] *)
Definition wrapperId (id wrapperCount : nat) : string :=
  "sozi-wrapper-" +:+ pretty id +:+ "-" +:+ pretty wrapperCount.

Definition svgRoot_removeChild (old : Node) : M Scope unit := λ sc,
  match removeChild (Presentation.svgRoot (this (world sc))) old with
  | Some l => Return tt (set_world (set_this (Presentation.set_svgRoot (λ _, l))) sc)
  | None => Throw NotFoundError sc
  end.

Definition svgRoot_insertBefore (new ref : Node) : M Scope unit := λ sc,
  match insertBefore (Presentation.svgRoot (this (world sc))) new ref with
  | Some l => Return tt (set_world (set_this (Presentation.set_svgRoot (λ _, l))) sc)
  | None => Throw NotFoundError sc
  end.

Definition svgRoot_appendChild (child : Node) : M Scope unit :=
  modify (set_world (set_this (Presentation.set_svgRoot (λ l, l ++ [child])))).

(** [svgWrapper.appendChild(child)] for a child of the root. *)
Definition svgWrapper_appendChild (child : Node) : M Scope unit :=
  modify (λ sc,
    set_svgWrapper (λ wrapper, appendChild wrapper child)
      (set_world (set_this (Presentation.set_svgRoot (λ l, detach l child))) sc)).

(** [this.layers[key] = layer] *)
Definition layers_set (key : string) (layer : Layer.t) : M Scope unit :=
  modify (set_world (set_this (Presentation.set_layers (insert key layer)))).

(** [wrapperCount ++], then the creation of the next wrapper. *)
Definition nextWrapper : M Scope unit := λ sc,
  let w := world sc in
  let count := S (wrapperCount sc) in
  let g := createElementNS (document w) SVG_NS "g" in
  Return tt
    {| world := {| Object_id := Object_id w; document := S (document w);
                   this := this w; fired := fired w |};
       wrapperCount := count;
       svgWrapper := setAttribute g "id" (wrapperId (Presentation.id (this w)) count) |}.

(** The test of line 84: a group element with an id that is not yet a
    property of [this.layers]. *)
Definition qualifies (nodeName : string) (svgNode : Node)
    (layers : gmap string Layer.t) : bool :=
  String.eqb nodeName "g"
  && truthy (getAttribute svgNode "id")
  && negb (js_in (toString (getAttribute svgNode "id")) layers).

Definition autoLayer (wrapper : Node) : Layer.t :=
  {| Layer.auto := true; Layer.selected := true;
     Layer.label := Some ("#" +:+ toString (getAttribute wrapper "id"));
     Layer.svgNode := wrapper |}.

Definition explicitLayer (svgNode : Node) : Layer.t :=
  {| Layer.auto := false; Layer.selected := true;
     Layer.label :=
       Some (if hasAttribute svgNode "inkscape:label"
             then toString (getAttribute svgNode "inkscape:label")
             else "#" +:+ toString (getAttribute svgNode "id"));
     Layer.svgNode := svgNode |}.

(** The layer of the wrapper that is appended after the loop. *)
Definition lastLayer (wrapper : Node) : Layer.t :=
  {| Layer.auto := true; Layer.selected := true; Layer.label := None;
     Layer.svgNode := wrapper |}.

(** The callback of [svgNodeList.forEach]. *)
Definition visit (svgNode : Node) : M Scope unit :=
  match tagName svgNode with
  | None => svgRoot_removeChild svgNode
  | Some _ =>
      let nodeName := toLowerCase (localName svgNode) in
      if negb (indexOf DRAWABLE_TAGS nodeName =? -1)%Z then
        layers ← gets (λ sc, Presentation.layers (this (world sc)));
        if qualifies nodeName svgNode layers then
          wrapper ← gets svgWrapper;
          (if firstChild wrapper then
             svgRoot_insertBefore wrapper svgNode;;
             layers_set (toString (getAttribute wrapper "id")) (autoLayer wrapper);;
             nextWrapper
           else mret tt);;
          layers_set (toString (getAttribute svgNode "id")) (explicitLayer svgNode)
        else svgWrapper_appendChild svgNode
      else mret tt
  end.

(** Lines 118 to 127. *)
Definition appendLastWrapper : M Scope unit :=
  wrapper ← gets svgWrapper;
  if firstChild wrapper then
    svgRoot_appendChild wrapper;;
    layers_set (toString (getAttribute wrapper "id")) (lastLayer wrapper)
  else mret tt.

(** The state in which the loop of [init] is entered:
    [sozi.model.Object.init] has given [this] its identity, the fields
    of [this] are set, and the first wrapper exists. *)
Definition init_scope (svgRoot : list Node) (w : World) : Scope :=
  let id := Object_id w in
  {| world :=
       {| Object_id := S id; document := S (document w);
          this := {| Presentation.id := id; Presentation.svgRoot := svgRoot;
                     Presentation.layers := ∅; Presentation.frames := [] |};
          fired := fired w |};
     wrapperCount := 0;
     svgWrapper :=
       setAttribute (createElementNS (document w) SVG_NS "g") "id" (wrapperId id 0) |}.

(** [Presentation.init(svgRoot)], the root being given by its children.
    The returned world holds the initialised presentation as [this]. *)
Definition init (svgRoot : list Node) : M World unit := λ w,
  let svgNodeList := svgRoot in
  match (forEach svgNodeList visit;; appendLastWrapper) (init_scope svgRoot w) with
  | Return _ sc' => Return tt (world sc')
  | Throw e sc' => Throw e (world sc')
  end.

(** ** Selection *)

(** [this.frames[frameIndex]]: [None] is [undefined]. *)
Definition frames_get (frames : list Frame.t) (frameIndex : Z) : option Frame.t :=
  if (frameIndex <? 0)%Z then None else frames !! Z.to_nat frameIndex.

(** [this.layers[layerId].selected = value].  The lookup finds an own
    property, or else a member of [Object.prototype], which takes the
    write and leaves the presentation as it is; on [undefined] the
    write raises a TypeError.  The members of [Object.prototype] are
    no part of the world: a write that one of them takes, such as the
    write to [Object.prototype] itself for the name "__proto__", is
    not kept. *)
Definition layer_set_selected (layerId : string) (value : bool) : M World unit :=
  layers ← gets (λ w, Presentation.layers (this w));
  match layers !! layerId with
  | Some layer =>
      modify (set_this (Presentation.set_layers
                          (insert layerId (Layer.set_selected value layer))))
  | None => if inherited layerId then mret tt else throw TypeError
  end.

(** [this.frames[frameIndex].selected = value] *)
Definition frame_set_selected (frameIndex : Z) (value : bool) : M World unit :=
  frames ← gets (λ w, Presentation.frames (this w));
  match frames_get frames frameIndex with
  | Some frame =>
      modify (set_this (Presentation.set_frames
                          (insert (Z.to_nat frameIndex) (Frame.set_selected value frame))))
  | None => throw TypeError
  end.

Definition selectLayer (layerId : string) : M World unit :=
  layer_set_selected layerId true;;
  fire (selectLayer_event layerId).

Definition deselectLayer (layerId : string) : M World unit :=
  layer_set_selected layerId false;;
  fire (deselectLayer_event layerId).

Definition selectFrame (frameIndex : Z) : M World unit :=
  frame_set_selected frameIndex true;;
  fire (selectFrame_event frameIndex).

Definition deselectFrame (frameIndex : Z) : M World unit :=
  frame_set_selected frameIndex false;;
  fire (deselectFrame_event frameIndex).

(** [for (frameIndex = from; frameIndex < this.frames.length; frameIndex ++)]
    with [n] iterations left; the body keeps the length of [this.frames]. *)
Fixpoint forFrames (n : nat) (from : Z) (body : Z → M World unit) : M World unit :=
  match n with
  | O => mret tt
  | S n' => body from;; forFrames n' (from + 1)%Z body
  end.

Definition selectAllFrames : M World unit :=
  frames ← gets (λ w, Presentation.frames (this w));
  forFrames (length frames) 0%Z selectFrame.

Definition deselectAllFrames : M World unit :=
  frames ← gets (λ w, Presentation.frames (this w));
  forFrames (length frames) 0%Z deselectFrame.

(** ** Frames *)

(** [sozi.document.Frame.create().init(pres, state)] *)
Definition Frame_init (pres : nat) (state : nat) : M World Frame.t :=
  id ← Object_init;
  mret {| Frame.id := id; Frame.presentation := pres; Frame.state := state;
          Frame.frameId := "frame" +:+ pretty id; Frame.title := "New frame";
          Frame.selected := false |}.

(** [this.frames.splice(start, 0, frame)] *)
Definition splice (frames : list Frame.t) (start : nat) (frame : Frame.t)
  : list Frame.t :=
  take start frames ++ frame :: drop start frames.

(** The loop of [addFrame], entered with [frameIndex = n - 1]: it gives
    the value of [frameIndex] when the loop is left. *)
Fixpoint addFrame_scan (frame : Frame.t) (n : nat) : M World Z :=
  match n with
  | O => mret (-1)%Z
  | S frameIndex =>
      frames ← gets (λ w, Presentation.frames (this w));
      match frames !! frameIndex with
      | None => throw TypeError
      | Some f =>
          if Frame.selected f then
            modify (set_this (Presentation.set_frames
                                (λ l, splice l (frameIndex + 1) frame)));;
            mret (Z.of_nat frameIndex)
          else addFrame_scan frame frameIndex
      end
  end.

(** [addFrame(state)].  The new frame is one object, held by the
    variable [frame] and by [this.frames], where [deselectAllFrames]
    and [selectFrame] write its flag: [position] is the index at which
    it has been put, and the value returned is the frame as it stands
    there when the call returns. *)
Definition addFrame (state : nat) : M World Frame.t :=
  pres ← gets (λ w, Presentation.id (this w));
  frame ← Frame_init pres state;
  frames ← gets (λ w, Presentation.frames (this w));
  frameIndex ← addFrame_scan frame (length frames);
  '(frameIndex, position) ←
    (if (frameIndex =? -1)%Z then
       frames ← gets (λ w, Presentation.frames (this w));
       modify (set_this (Presentation.set_frames (λ l, l ++ [frame])));;
       mret (Z.of_nat (length frames), length frames)
     else mret (frameIndex, Z.to_nat (frameIndex + 1)));
  fire (addFrame_event frame frameIndex);;
  deselectAllFrames;;
  selectFrame frameIndex;;
  frames ← gets (λ w, Presentation.frames (this w));
  mret (default frame (frames !! position)).

(** ** Auxiliary notions for the statements *)

(** The outcome is a failure. *)
Definition fails {A} (o : Outcome World A) : Prop :=
  match o with
  | Throw _ _ => True
  | Return _ _ => False
  end.

Definition emptyWorld : World :=
  {| Object_id := 0; document := 0;
     this := {| Presentation.id := 0; Presentation.svgRoot := [];
                Presentation.layers := ∅; Presentation.frames := [] |};
     fired := [] |}.


(** The world [w] with another identity counter, frame sequence and
    event log. *)
Definition with_frames (w : World) (next : nat) (frames : list Frame.t)
    (events : list Event) : World :=
  {| Object_id := next; document := document w;
     this := Presentation.set_frames (λ _, frames) (this w);
     fired := events |}.

(** The frame that [addFrame state] creates in [w], as [Frame.init]
    leaves it. *)
Definition newFrame (w : World) (state : nat) : Frame.t :=
  {| Frame.id := Object_id w; Frame.presentation := Presentation.id (this w);
     Frame.state := state; Frame.frameId := "frame" +:+ pretty (Object_id w);
     Frame.title := "New frame"; Frame.selected := false |}.

(** Exactly one frame is selected, the one at index [k]. *)
Definition only_selected (frames : list Frame.t) (k : nat) : Prop :=
  k < length frames
  ∧ ∀ i f, frames !! i = Some f → Frame.selected f = true ↔ i = k.

(** The events fired by [deselectAllFrames] on [n] frames. *)
Definition deselectAll_events (n : nat) : list Event :=
  map (λ i, deselectFrame_event (Z.of_nat i)) (seq 0 n).

(** A presentation with a single frame, which is selected. *)
Definition oneFrameWorld : World :=
  {| Object_id := 2; document := 0;
     this := {| Presentation.id := 0; Presentation.svgRoot := [];
                Presentation.layers := ∅;
                Presentation.frames :=
                  [ {| Frame.id := 1; Frame.presentation := 0; Frame.state := 0;
                       Frame.frameId := "frame1"; Frame.title := "New frame";
                       Frame.selected := true |} ] |};
     fired := [] |}.

(** ** The pass as a function of the snapshot *)

Definition nodeName (n : Node) : string := toLowerCase (localName n).

Definition drawable (n : Node) : bool :=
  negb (indexOf DRAWABLE_TAGS (nodeName n) =? -1)%Z.

(** The property name under which a node is registered. *)
Definition layerKey (n : Node) : string := toString (getAttribute n "id").

(** Wrapper number [count] of presentation [id], created as node [u],
    with its children. *)
Definition wrapper (id u count : nat) (children : list Node) : Node :=
  Element u SVG_NS "g" [("id", wrapperId id count)] children.

(** The pass between two nodes of the snapshot: [placed] are the
    children of the root that precede the nodes still to visit,
    [pending] the children of the current wrapper. *)
Record Pass : Type := {
  placed : list Node;
  registry : gmap string Layer.t;
  count : nat;
  pending : list Node
}.

Section Pass.
(** The identity of the presentation, and the identity of the first
    node that the pass creates. *)
Variables (id doc : nat).

Definition currentWrapper (p : Pass) : Node :=
  wrapper id (count p + doc) (count p) (pending p).

Definition pass_visit (p : Pass) (x : Node) : Pass :=
  match tagName x with
  | None => p
  | Some _ =>
      if drawable x then
        if qualifies (nodeName x) x (registry p) then
          match pending p with
          | [] =>
              {| placed := placed p ++ [x];
                 registry := <[layerKey x := explicitLayer x]> (registry p);
                 count := count p; pending := [] |}
          | _ :: _ =>
              {| placed := placed p ++ [currentWrapper p; x];
                 registry :=
                   <[layerKey x := explicitLayer x]>
                     (<[wrapperId id (count p) := autoLayer (currentWrapper p)]>
                        (registry p));
                 count := S (count p); pending := [] |}
          end
        else
          {| placed := placed p; registry := registry p; count := count p;
             pending := pending p ++ [x] |}
      else
        {| placed := placed p ++ [x]; registry := registry p; count := count p;
           pending := pending p |}
  end.

Definition pass_start : Pass :=
  {| placed := []; registry := ∅; count := 0; pending := [] |}.

(** The children of the root and the layers when the pass leaves
    [init]. *)
Definition pass_tree (p : Pass) : list Node :=
  match pending p with
  | [] => placed p
  | _ :: _ => placed p ++ [currentWrapper p]
  end.

Definition pass_layers (p : Pass) : gmap string Layer.t :=
  match pending p with
  | [] => registry p
  | _ :: _ => <[wrapperId id (count p) := lastLayer (currentWrapper p)]> (registry p)
  end.

(** The scope of the running [init] that stands for [p] when the nodes
    [rest] are still to visit. *)
Definition scope_of (events : list Event) (p : Pass) (rest : list Node) : Scope :=
  {| world :=
       {| Object_id := S id; document := S (count p + doc);
          this := {| Presentation.id := id; Presentation.svgRoot := placed p ++ rest;
                     Presentation.layers := registry p; Presentation.frames := [] |};
          fired := events |};
     wrapperCount := count p;
     svgWrapper := currentWrapper p |}.

(** The world that [init] returns for the final pass state [p]. *)
Definition world_of (events : list Event) (p : Pass) : World :=
  {| Object_id := S id; document := S (count p + doc);
     this := {| Presentation.id := id; Presentation.svgRoot := pass_tree p;
                Presentation.layers := pass_layers p; Presentation.frames := [] |};
     fired := events |}.
End Pass.

(** The nodes of the snapshot are distinct objects, which exist before
    the pass creates any node. *)
Definition well_formed (w : World) (svgRoot : list Node) : Prop :=
  NoDup (map uid svgRoot) ∧ ∀ x, x ∈ svgRoot → (uid x < document w)%nat.

(** The state of the pass after the nodes [l]. *)
Definition pass_of (w : World) (l : list Node) : Pass :=
  foldl (pass_visit (Object_id w) (document w)) pass_start l.

(** ** Reading the layers off the tree *)

(** A node that the pass has created: it did not exist when [init] was
    called in a world whose [document] counter was [doc]. *)
Definition created (doc : nat) (c : Node) : bool := (doc <=? uid c)%nat.

(** The drawable nodes as the tree groups them, in tree order: the
    children of each wrapper that the pass has created, and each other
    drawable child of the root. *)
Definition treeContents (doc : nat) (tree : list Node) : list Node :=
  flat_map (λ c, if created doc c then childNodes c
                 else if drawable c then [c] else []) tree.

(** The layer of the map whose node is the child [c] of the root: the
    layers are registered under the id of their node, and [svgNode]
    refers to the object [c] itself. *)
Definition layerOf (layers : gmap string Layer.t) (c : Node) : option Layer.t :=
  match layers !! layerKey c with
  | Some L => if decide (uid (Layer.svgNode L) = uid c) then Some L else None
  | None => None
  end.

(** The drawable nodes that a layer holds: the children of the wrapper
    for an auto layer, the group itself for any other layer. *)
Definition contents (L : Layer.t) : list Node :=
  if Layer.auto L then childNodes (Layer.svgNode L) else [Layer.svgNode L].

(** The contents of the layers of the map, concatenated in the order in
    which the nodes of the layers stand among the children of the root.
    A child that is the node of no layer of the map adds nothing. *)
Definition layersContents (layers : gmap string Layer.t) (tree : list Node)
  : list Node :=
  flat_map (λ c, from_option contents [] (layerOf layers c)) tree.

(** A small document: a text node, an element that is not drawable, and
    drawable elements around two groups with the same id. *)
Definition sampleRoot : list Node :=
  [ CharacterData 0 " ";
    Element 1 SVG_NS "defs" [] [];
    Element 2 SVG_NS "rect" [] [];
    Element 3 SVG_NS "g" [("id", "L1")] [];
    Element 4 SVG_NS "circle" [] [];
    Element 5 SVG_NS "g" [("id", "L1")] [Element 6 SVG_NS "path" [] []] ].

Definition sampleWorld : World :=
  {| Object_id := 1; document := 10;
     this := {| Presentation.id := 0; Presentation.svgRoot := [];
                Presentation.layers := ∅; Presentation.frames := [] |};
     fired := [] |}.

(** ** Invariants of the pass *)




(** ** The scenario of five children *)





(** The five ways in which the pass goes over a node: it drops a text
    node, leaves an element that is not drawable in place, registers a
    new group (with or without placing the current wrapper before it),
    or moves the node into the current wrapper. *)
Inductive visited (id doc : nat) (p : Pass) (x : Node) : Pass → Prop :=
| visited_dropped :
    tagName x = None →
    visited id doc p x p
| visited_foreign :
    tagName x ≠ None → drawable x = false →
    visited id doc p x
      {| placed := placed p ++ [x]; registry := registry p; count := count p;
         pending := pending p |}
| visited_layer :
    drawable x = true → qualifies (nodeName x) x (registry p) = true →
    pending p = [] →
    visited id doc p x
      {| placed := placed p ++ [x];
         registry := <[layerKey x := explicitLayer x]> (registry p);
         count := count p; pending := [] |}
| visited_flush :
    drawable x = true → qualifies (nodeName x) x (registry p) = true →
    pending p ≠ [] →
    visited id doc p x
      {| placed := placed p ++ [currentWrapper id doc p; x];
         registry :=
           <[layerKey x := explicitLayer x]>
             (<[wrapperId id (count p) := autoLayer (currentWrapper id doc p)]>
                (registry p));
         count := S (count p); pending := [] |}
| visited_absorbed :
    drawable x = true → qualifies (nodeName x) x (registry p) = false →
    visited id doc p x
      {| placed := placed p; registry := registry p; count := count p;
         pending := pending p ++ [x] |}.

(** The keys of the registry are ids of visited groups or wrapper ids. *)
Definition keys_from (id : nat) (seen : list Node) (p : Pass) : Prop :=
  ∀ s, is_Some (registry p !! s) →
       (∃ z, z ∈ seen ∧ nodeName z = "g" ∧ getAttribute z "id" = Some s)
       ∨ ∃ k, s = wrapperId id k.

(** The placed children are visited nodes or nodes made by the pass. *)
Definition placed_from (doc : nat) (seen : list Node) (p : Pass) : Prop :=
  ∀ c, c ∈ placed p → c ∈ seen ∨ created doc c = true.

(** The node [x] is in the current wrapper or in a placed one. *)
Definition held (doc : nat) (x : Node) (tree pending : list Node) : Prop :=
  x ∈ pending
  ∨ ∃ wr, wr ∈ tree ∧ created doc wr = true ∧ x ∈ childNodes wr.

(** No placed child is the object [x]. *)
Definition apart (x : Node) (tree : list Node) : Prop :=
  ∀ c, c ∈ tree → uid c ≠ uid x.

(** The node of every registered layer is a placed child. *)
Definition registered_placed (tree : list Node) (reg : gmap string Layer.t) : Prop :=
  ∀ key L, reg !! key = Some L → Layer.svgNode L ∈ tree.

(** Two groups with the id of a wrapper, in a world where the new
    presentation gets the identity 1. *)
Definition twin_first : Node := Element 0 SVG_NS "g" [("id", "sozi-wrapper-1-0")] [].
Definition twin_second : Node := Element 1 SVG_NS "g" [("id", "sozi-wrapper-1-0")] [].
Definition twinRoot : list Node := [ twin_first; twin_second ].

(** No group among the nodes carries the id of a wrapper of
    presentation [id]. *)
Definition wrapper_free (id : nat) (l : list Node) : Prop :=
  ∀ x, x ∈ l → nodeName x = "g" →
       ∀ k, getAttribute x "id" ≠ Some (wrapperId id k).

(** The keys of the drawable children of the root. *)
Definition layerKeys (tree : list Node) : list string :=
  map layerKey (List.filter drawable tree).

(** The children [tree] of the root and the layer map [reg] fit
    together, [n] wrappers having been placed: the children are
    elements; the drawable ones are groups with distinct, non-empty,
    not inherited ids, which are the keys of the map; the wrappers are
    bound to auto layers, and every auto layer is that of a wrapper in
    the tree. *)
Record tidy (id doc : nat) (tree : list Node) (reg : gmap string Layer.t)
    (n : nat) : Prop := {
  tidy_elements : ∀ c, c ∈ tree → tagName c ≠ None;
  tidy_groups :
    ∀ c, c ∈ tree → drawable c = true →
         nodeName c = "g" ∧ truthy (getAttribute c "id") = true
         ∧ inherited (layerKey c) = false;
  tidy_keys : ∀ s, is_Some (reg !! s) ↔ s ∈ layerKeys tree;
  tidy_wrappers : ∀ k, is_Some (reg !! wrapperId id k) → (k < n)%nat;
  tidy_distinct : NoDup (layerKeys tree);
  tidy_created :
    ∀ c, c ∈ tree → created doc c = true →
         drawable c = true
         ∧ ∃ L, reg !! layerKey c = Some L ∧ Layer.auto L = true
                ∧ Layer.svgNode L = c;
  tidy_auto :
    ∀ key L, reg !! key = Some L → Layer.auto L = true →
             Layer.svgNode L ∈ tree ∧ created doc (Layer.svgNode L) = true
             ∧ layerKey (Layer.svgNode L) = key
}.

(** The placed children and the nodes still to visit are distinct
    objects; the former were made before the next wrapper, the latter
    before the pass. *)
Definition distinct_uids (doc : nat) (p : Pass) (rest : list Node) : Prop :=
  NoDup (map uid (placed p ++ rest))
  ∧ (∀ c, c ∈ placed p → (uid c < count p + doc)%nat)
  ∧ (∀ x, x ∈ rest → (uid x < doc)%nat).

(** An element that is not drawable, a group with the id of the first
    wrapper of presentation 1, and a drawable element after it. *)
Definition stray_defs : Node := Element 0 SVG_NS "defs" [] [].
Definition stray_group : Node := Element 1 SVG_NS "g" [("id", "sozi-wrapper-1-0")] [].
Definition stray_rect : Node := Element 2 SVG_NS "rect" [] [].
Definition strayRoot : list Node := [ stray_defs; stray_group; stray_rect ].

(** ** Runs of drawable children *)

(** The drawable children of the root, cut at the new groups: a group
    that becomes an explicit layer, or a maximal run of consecutive
    drawable children that do not. *)
Inductive Segment : Type :=
| ExplicitLayer (n : Node)
| Run (ns : list Node).

(** A drawable child is a new group when it is a group whose id is not
    empty, is not the id of an earlier new group ([ids]) and is no name
    inherited from [Object.prototype]. *)
Definition new_layer (ids : list string) (x : Node) : bool :=
  String.eqb (nodeName x) "g"
  && truthy (getAttribute x "id")
  && negb (bool_decide (layerKey x ∈ ids) || inherited (layerKey x)).

Definition close (run : list Node) : list Segment :=
  match run with
  | [] => []
  | _ :: _ => [Run run]
  end.

(** The segments of [l], [run] being the run that is open when [l] is
    entered. *)
Fixpoint segments (ids : list string) (run : list Node) (l : list Node)
  : list Segment :=
  match l with
  | [] => close run
  | x :: l' =>
      if drawable x then
        if new_layer ids x then
          close run ++ ExplicitLayer x :: segments (layerKey x :: ids) [] l'
        else segments ids (run ++ [x]) l'
      else segments ids run l'
  end.

Fixpoint runs (segs : list Segment) : list (list Node) :=
  match segs with
  | [] => []
  | ExplicitLayer _ :: segs' => runs segs'
  | Run r :: segs' => r :: runs segs'
  end.

(** The nodes that stand for the segments when each run is held by one
    wrapper, the first of them being wrapper number [k]. *)
Fixpoint render (id doc k : nat) (segs : list Segment) : list Node :=
  match segs with
  | [] => []
  | ExplicitLayer x :: segs' => x :: render id doc k segs'
  | Run r :: segs' => wrapper id (k + doc) k r :: render id doc (S k) segs'
  end.

(** Every maximal run is held by exactly one wrapper, in tree order,
    and the auto layers of the map are these wrappers, one per run. *)
Definition runs_collapsed (w : World) (l : list Node) (w' : World) : Prop :=
  List.filter drawable (Presentation.svgRoot (this w'))
  = render (Object_id w) (document w) 0 (segments [] [] l)
  ∧ (∀ j r, runs (segments [] [] l) !! j = Some r →
       ∃ L, Presentation.layers (this w') !! wrapperId (Object_id w) j = Some L
            ∧ Layer.auto L = true
            ∧ Layer.svgNode L = wrapper (Object_id w) (j + document w) j r)
  ∧ (∀ key L, Presentation.layers (this w') !! key = Some L →
       Layer.auto L = true →
       ∃ j r, runs (segments [] [] l) !! j = Some r
              ∧ key = wrapperId (Object_id w) j
              ∧ Layer.svgNode L = wrapper (Object_id w) (j + document w) j r).

(** A drawable element followed by a group with the id of the first
    wrapper of presentation 1. *)
Definition clash_rect : Node := Element 0 SVG_NS "rect" [] [].
Definition clash_group : Node := Element 1 SVG_NS "g" [("id", "sozi-wrapper-1-0")] [].
Definition clashRoot : list Node := [ clash_rect; clash_group ].

(** The ids [ids] are the keys of the registry, wrapper ids apart. *)
Definition known (id : nat) (reg : gmap string Layer.t) (ids : list string) : Prop :=
  ∀ s, (∀ k, s ≠ wrapperId id k) → (is_Some (reg !! s) ↔ s ∈ ids).

(** * Further operations and notions *)

(** [selectAllLayers]: [for (var layerId in this.layers)
    this.selectLayer(layerId)].  The layer map does not keep the order
    in which [for ... in] visits its keys, so that order is given:
    [enumeration] lists the keys as the loop visits them. *)
Definition selectAllLayers (enumeration : list string) : M World unit :=
  forEach enumeration selectLayer.

(** [deselectAllLayers], with the enumeration of the keys given. *)
Definition deselectAllLayers (enumeration : list string) : M World unit :=
  forEach enumeration deselectLayer.

(** [enumeration] visits each key of the layer map once, as [for ... in]
    does on an object whose prototype has no enumerable property. *)
Definition enumerates (enumeration : list string) (layers : gmap string Layer.t)
  : Prop :=
  NoDup enumeration ∧ ∀ key, key ∈ enumeration ↔ is_Some (layers !! key).

(** No frame is selected. *)
Definition none_selected (frames : list Frame.t) : Prop :=
  ∀ i f, frames !! i = Some f → Frame.selected f = false.

(** The frame at index [k] is selected and no frame after it is. *)
Definition highest_selected (frames : list Frame.t) (k : nat) : Prop :=
  (∃ f, frames !! k = Some f ∧ Frame.selected f = true)
  ∧ ∀ i f, (k < i)%nat → frames !! i = Some f → Frame.selected f = false.

(** The events of [addFrame] on a sequence of [n] frames, [frameIndex]
    being the value left in the variable of that name. *)
Definition addFrame_events (frame : Frame.t) (frameIndex : nat) (n : nat)
  : list Event :=
  addFrame_event frame (Z.of_nat frameIndex)
  :: deselectAll_events (S n) ++ [selectFrame_event (Z.of_nat frameIndex)].

(** The frames were created by [Frame.init] before the next identity is
    given out: their identities are distinct and below the counter, and
    each [frameId] is "frame" followed by the identity. *)
Definition frames_sound (w : World) : Prop :=
  NoDup (map Frame.id (Presentation.frames (this w)))
  ∧ ∀ f, f ∈ Presentation.frames (this w) →
         (Frame.id f < Object_id w)%nat
         ∧ Frame.frameId f = "frame" +:+ pretty (Frame.id f).

(** The events of [selectAllFrames] on [n] frames. *)
Definition selectAll_events (n : nat) : list Event :=
  map (λ i, selectFrame_event (Z.of_nat i)) (seq 0 n).

(** [n] calls of [addFrame], with the states [states]. *)
Fixpoint addFrames (states : list nat) : M World unit :=
  match states with
  | [] => mret tt
  | state :: states' => addFrame state;; addFrames states'
  end.

(** A presentation with two frames, none of them selected. *)
Definition twoFrameWorld : World :=
  {| Object_id := 3; document := 0;
     this := {| Presentation.id := 0; Presentation.svgRoot := [];
                Presentation.layers := ∅;
                Presentation.frames :=
                  [ {| Frame.id := 1; Frame.presentation := 0; Frame.state := 0;
                       Frame.frameId := "frame1"; Frame.title := "New frame";
                       Frame.selected := false |};
                    {| Frame.id := 2; Frame.presentation := 0; Frame.state := 0;
                       Frame.frameId := "frame2"; Frame.title := "New frame";
                       Frame.selected := false |} ] |};
     fired := [] |}.

(** The frame of [oneFrameWorld]. *)
Definition frame1 : Frame.t :=
  {| Frame.id := 1; Frame.presentation := 0; Frame.state := 0;
     Frame.frameId := "frame1"; Frame.title := "New frame";
     Frame.selected := true |}.

(** The world [w] with another layer map and event log. *)
Definition with_layers (w : World) (layers : gmap string Layer.t)
    (events : list Event) : World :=
  {| Object_id := Object_id w; document := document w;
     this := Presentation.set_layers (λ _, layers) (this w);
     fired := events |}.

(** A layer map with one explicit layer, and a world that holds it. *)
Definition sampleLayers : gmap string Layer.t :=
  <["L1" := explicitLayer (Element 3 SVG_NS "g" [("id", "L1")] [])]> ∅.

Definition layerWorld : World :=
  {| Object_id := 2; document := 12;
     this := {| Presentation.id := 1; Presentation.svgRoot := [];
                Presentation.layers := sampleLayers; Presentation.frames := [] |};
     fired := [] |}.

(** The outcome of [addFrame], [k] being the index that the loop leaves
    in [frameIndex] and [j] the index at which the frame is inserted:
    the frame returned is selected when the two are the same. *)
Definition addFrame_result (w : World) (state k j : nat) : Outcome World Frame.t :=
  Return (Frame.set_selected (bool_decide (k = j)) (newFrame w state))
    (with_frames w (S (Object_id w))
       (alter (Frame.set_selected true) k
          (map (Frame.set_selected false)
             (splice (Presentation.frames (this w)) j (newFrame w state))))
       (fired w
        ++ addFrame_events (newFrame w state) k
             (length (Presentation.frames (this w))))).

(** The frame that the call number [i] of [addFrame], counted from 0 in
    world [w], creates for [state]. *)
Definition nthFrame (w : World) (i state : nat) : Frame.t :=
  {| Frame.id := Object_id w + i; Frame.presentation := Presentation.id (this w);
     Frame.state := state; Frame.frameId := "frame" +:+ pretty (Object_id w + i);
     Frame.title := "New frame"; Frame.selected := false |}.

(** An element whose tag is not drawable: the pass leaves it alone. *)
Definition foreign (c : Node) : bool :=
  match tagName c with
  | Some _ => negb (drawable c)
  | None => false
  end.

(** What the pass keeps true of the registry, for the root children
    [l]: every layer is registered under the id of its node; an auto
    layer is that of a wrapper made by the pass, which has a child; any
    other layer is the explicit layer of a group among [l]. *)
Definition classified (doc : nat) (l : list Node) (reg : gmap string Layer.t)
  : Prop :=
  ∀ key L, reg !! key = Some L →
    key = layerKey (Layer.svgNode L)
    ∧ Layer.selected L = true
    ∧ if Layer.auto L
      then created doc (Layer.svgNode L) = true
           ∧ firstChild (Layer.svgNode L) = true
      else Layer.svgNode L ∈ l ∧ nodeName (Layer.svgNode L) = "g"
           ∧ L = explicitLayer (Layer.svgNode L).

(** The keys of the registry are the ids of the drawable placed
    children. *)
Definition keys_match (p : Pass) : Prop :=
  ∀ s, is_Some (registry p !! s) ↔ s ∈ layerKeys (placed p).

(** The placed children are elements, and the drawable ones are groups
    with an id that is not empty and not inherited. *)
Definition groups_only (tree : list Node) : Prop :=
  ∀ c, c ∈ tree →
    tagName c ≠ None
    ∧ (drawable c = true →
       nodeName c = "g" ∧ truthy (getAttribute c "id") = true
       ∧ inherited (layerKey c) = false).

(** The wrappers made by the pass, among [tree]: each is a group with
    the id of a wrapper of the presentation and holds at least one
    child; its children are drawable nodes among [l]. *)
Definition wrappers_full (id doc : nat) (l tree : list Node) : Prop :=
  ∀ c, c ∈ tree → created doc c = true →
    ∃ k kids, c = wrapper id (k + doc) k kids ∧ kids ≠ []
              ∧ ∀ y, y ∈ kids → y ∈ l ∧ drawable y = true.
(** * Properties *)

(** ** Running a computation *)

Lemma run_bind {St A B} (c : M St A) (k : A → M St B) (s : St) :
  (c ≫= k) s
  = match c s with
    | Return a s' => k a s'
    | Throw e s' => Throw e s'
    end.
Proof. reflexivity. Qed.

Lemma run_gets {St A} (f : St → A) (s : St) : gets f s = Return (f s) s.
Proof. reflexivity. Qed.

Lemma run_modify {St} (f : St → St) (s : St) : modify f s = Return tt (f s).
Proof. reflexivity. Qed.

Lemma run_mret {St A} (a : A) (s : St) : (mret a : M St A) s = Return a s.
Proof. reflexivity. Qed.

(** ** Selection with a dangling reference *)

Section Selection.
Implicit Types (w : World) (layerId : string) (frameIndex : Z).

Lemma frames_get_outside (frames : list Frame.t) frameIndex :
  (frameIndex < 0 ∨ Z.of_nat (length frames) ≤ frameIndex)%Z →
  frames_get frames frameIndex = None.
Proof.
  intros Hout. unfold frames_get.
  destruct (Z.ltb_spec frameIndex 0) as [|Hpos]; [done|].
  apply lookup_ge_None_2. lia.
Qed.

Lemma frames_get_inside (frames : list Frame.t) (i : nat) :
  frames_get frames (Z.of_nat i) = frames !! i.
Proof.
  unfold frames_get.
  destruct (Z.ltb_spec (Z.of_nat i) 0); [lia|]. by rewrite Nat2Z.id.
Qed.

Lemma layer_set_selected_dangling w layerId value :
  Presentation.layers (this w) !! layerId = None →
  inherited layerId = false →
  layer_set_selected layerId value w = Throw TypeError w.
Proof.
  intros Hown Hinh. unfold layer_set_selected, mbind, M_bind, gets.
  by rewrite Hown, Hinh.
Qed.

Lemma frame_set_selected_outside w frameIndex value :
  (frameIndex < 0 ∨ Z.of_nat (length (Presentation.frames (this w))) ≤ frameIndex)%Z →
  frame_set_selected frameIndex value w = Throw TypeError w.
Proof.
  intros Hout. unfold frame_set_selected, mbind, M_bind, gets.
  by rewrite frames_get_outside.
Qed.
End Selection.

(** C8, as stated, fails: "toString" is no key of the empty layer map,
    yet [selectLayer "toString"] returns normally.  The property read
    by [this.layers["toString"]] is the function inherited from
    [Object.prototype], which accepts the write of [selected]. *)
Lemma selectLayer_inherited_name_returns :
  Presentation.layers (this emptyWorld) !! "toString" = None
  ∧ ¬ fails (selectLayer "toString" emptyWorld).
Proof. split; [done|]. vm_compute. tauto. Qed.

(** C8 (amended): a layer id that is neither a key of the layer map nor
    a name inherited from [Object.prototype] makes [selectLayer] and
    [deselectLayer] fail with a TypeError, and a frame index outside the
    frame sequence makes [selectFrame] and [deselectFrame] fail with a
    TypeError; none of them returns normally. *)
Theorem selection_dangling_reference_fails :
  (∀ (w : World) (layerId : string),
     Presentation.layers (this w) !! layerId = None →
     inherited layerId = false →
     (∃ w', selectLayer layerId w = Throw TypeError w')
     ∧ (∃ w', deselectLayer layerId w = Throw TypeError w'))
  ∧ (∀ (w : World) (frameIndex : Z),
       (frameIndex < 0 ∨ Z.of_nat (length (Presentation.frames (this w))) ≤ frameIndex)%Z →
       (∃ w', selectFrame frameIndex w = Throw TypeError w')
       ∧ (∃ w', deselectFrame frameIndex w = Throw TypeError w')).
Proof.
  split.
  - intros w layerId Hown Hinh.
    split; exists w; unfold selectLayer, deselectLayer, mbind, M_bind;
      by rewrite layer_set_selected_dangling.
  - intros w frameIndex Hout.
    split; exists w; unfold selectFrame, deselectFrame, mbind, M_bind;
      by rewrite frame_set_selected_outside.
Qed.

Lemma selection_dangling_reference_fails_witness :
  ((∃ w', selectLayer "L9" emptyWorld = Throw TypeError w')
   ∧ (∃ w', deselectLayer "L9" emptyWorld = Throw TypeError w'))
  ∧ ((∃ w', selectFrame 0%Z emptyWorld = Throw TypeError w')
     ∧ (∃ w', deselectFrame 0%Z emptyWorld = Throw TypeError w')).
Proof.
  split.
  - apply (proj1 selection_dangling_reference_fails emptyWorld "L9"); reflexivity.
  - apply (proj2 selection_dangling_reference_fails emptyWorld 0%Z). right. simpl. lia.
Defined.

(** C9, as stated, fails: "constructor" is no key of the empty layer
    map, yet [deselectLayer "constructor"] emits a notification. *)
Lemma deselectLayer_inherited_name_fires :
  Presentation.layers (this emptyWorld) !! "constructor" = None
  ∧ ∃ w', deselectLayer "constructor" emptyWorld = Return tt w'
          ∧ fired w' = [deselectLayer_event "constructor"]
          ∧ fired w' ≠ fired emptyWorld.
Proof. split; [done|]. eexists. split; [vm_compute; reflexivity|]. done. Qed.

(** C9 (amended): when a selection operation is given a layer id that
    is neither a key of the layer map nor a name inherited from
    [Object.prototype], or a frame index outside the frame sequence, the
    world in which it fails is the world in which it was called: no
    selection flag has changed and no event has been fired. *)
Theorem selection_dangling_reference_untouched :
  (∀ (w : World) (layerId : string),
     Presentation.layers (this w) !! layerId = None →
     inherited layerId = false →
     selectLayer layerId w = Throw TypeError w
     ∧ deselectLayer layerId w = Throw TypeError w)
  ∧ (∀ (w : World) (frameIndex : Z),
       (frameIndex < 0 ∨ Z.of_nat (length (Presentation.frames (this w))) ≤ frameIndex)%Z →
       selectFrame frameIndex w = Throw TypeError w
       ∧ deselectFrame frameIndex w = Throw TypeError w).
Proof.
  split.
  - intros w layerId Hown Hinh.
    unfold selectLayer, deselectLayer, mbind, M_bind.
    by rewrite !layer_set_selected_dangling.
  - intros w frameIndex Hout.
    unfold selectFrame, deselectFrame, mbind, M_bind.
    by rewrite !frame_set_selected_outside.
Qed.

Lemma selection_dangling_reference_untouched_witness :
  (selectLayer "L9" emptyWorld = Throw TypeError emptyWorld
   ∧ deselectLayer "L9" emptyWorld = Throw TypeError emptyWorld)
  ∧ (selectFrame (-1)%Z emptyWorld = Throw TypeError emptyWorld
     ∧ deselectFrame (-1)%Z emptyWorld = Throw TypeError emptyWorld).
Proof.
  split.
  - apply (proj1 selection_dangling_reference_untouched emptyWorld "L9"); reflexivity.
  - apply (proj2 selection_dangling_reference_untouched emptyWorld (-1)%Z). left. lia.
Defined.

(** ** Frame insertion *)

Section AddFrame.
Implicit Types (w : World) (l : list Frame.t) (frame f : Frame.t).

Lemma with_frames_id w :
  with_frames w (Object_id w) (Presentation.frames (this w)) (fired w) = w.
Proof. by destruct w as [? ? [] ?]. Qed.

Lemma frame_set_selected_at w (i : nat) f value :
  Presentation.frames (this w) !! i = Some f →
  frame_set_selected (Z.of_nat i) value w
  = Return tt (with_frames w (Object_id w)
                 (alter (Frame.set_selected value) i (Presentation.frames (this w)))
                 (fired w)).
Proof.
  intros Hi. unfold frame_set_selected, mbind, M_bind, gets, modify.
  rewrite frames_get_inside, Hi, Nat2Z.id.
  unfold with_frames, set_this, Presentation.set_frames. do 3 f_equal.
  apply list_eq. intros j. destruct (decide (i = j)) as [->|Hne].
  - rewrite list_lookup_alter_eq, Hi. apply list_lookup_insert_eq.
    by eapply lookup_lt_Some.
  - by rewrite list_lookup_alter_ne, list_lookup_insert_ne.
Qed.

Lemma with_frames_twice w next l events next' l' events' :
  with_frames (with_frames w next l events) next' l' events'
  = with_frames w next' l' events'.
Proof. reflexivity. Qed.

Lemma fire_with_frames w next l events e :
  fire e (with_frames w next l events)
  = Return tt (with_frames w next l (events ++ [e])).
Proof. reflexivity. Qed.

Lemma frame_set_selected_with_frames w next l events (i : nat) f value :
  l !! i = Some f →
  frame_set_selected (Z.of_nat i) value (with_frames w next l events)
  = Return tt (with_frames w next (alter (Frame.set_selected value) i l) events).
Proof.
  intros Hi. by rewrite (frame_set_selected_at _ i f).
Qed.

(** The loop of [deselectAllFrames], from index [length l1] on. *)
Lemma forFrames_deselect l2 : ∀ l1 w next events,
  forFrames (length l2) (Z.of_nat (length l1)) deselectFrame
    (with_frames w next (l1 ++ l2) events)
  = Return tt
      (with_frames w next (l1 ++ map (Frame.set_selected false) l2)
         (events ++ map (λ i, deselectFrame_event (Z.of_nat i))
                      (seq (length l1) (length l2)))).
Proof.
  induction l2 as [|f l2 IH]; intros l1 w next events.
  - simpl. by rewrite !app_nil_r.
  - cbn [forFrames length]. rewrite run_bind. unfold deselectFrame at 1.
    rewrite run_bind.
    rewrite (frame_set_selected_with_frames _ _ _ _ _ f)
      by apply list_lookup_middle, eq_refl.
    rewrite fire_with_frames.
    replace (alter (Frame.set_selected false) (length l1) (l1 ++ f :: l2))
      with ((l1 ++ [Frame.set_selected false f]) ++ l2).
    2:{ rewrite <- (Nat.add_0_r (length l1)) at 1. rewrite alter_app_r.
        simpl. by rewrite <- app_assoc. }
    replace (Z.of_nat (length l1) + 1)%Z
      with (Z.of_nat (length (l1 ++ [Frame.set_selected false f])))
      by (rewrite length_app; simpl; lia).
    rewrite IH. do 2 f_equal.
    + by rewrite <- app_assoc.
    + rewrite <- app_assoc. simpl. rewrite length_app. simpl.
      by rewrite Nat.add_1_r.
Qed.

Lemma deselectAllFrames_run w :
  deselectAllFrames w
  = Return tt
      (with_frames w (Object_id w)
         (map (Frame.set_selected false) (Presentation.frames (this w)))
         (fired w ++ deselectAll_events (length (Presentation.frames (this w))))).
Proof.
  unfold deselectAllFrames, mbind, M_bind, gets.
  rewrite <- (with_frames_id w) at 2.
  apply (forFrames_deselect (Presentation.frames (this w)) [] w).
Qed.

Lemma deselectAllFrames_with_frames w next l events :
  deselectAllFrames (with_frames w next l events)
  = Return tt
      (with_frames w next (map (Frame.set_selected false) l)
         (events ++ deselectAll_events (length l))).
Proof. by rewrite deselectAllFrames_run. Qed.

Lemma selectFrame_with_frames w next l events (i : nat) :
  (i < length l)%nat →
  selectFrame (Z.of_nat i) (with_frames w next l events)
  = Return tt
      (with_frames w next (alter (Frame.set_selected true) i l)
         (events ++ [selectFrame_event (Z.of_nat i)])).
Proof.
  intros Hi. destruct (lookup_lt_is_Some_2 l i Hi) as [f Hf].
  unfold selectFrame.
  by rewrite run_bind, (frame_set_selected_with_frames _ _ _ _ _ f).
Qed.

Lemma length_splice l start frame : length (splice l start frame) = S (length l).
Proof.
  unfold splice. rewrite length_app. simpl.
  rewrite <- (take_drop start l) at 3. rewrite length_app. lia.
Qed.

Lemma Object_init_run w :
  Object_init w
  = Return (Object_id w)
      (with_frames w (S (Object_id w)) (Presentation.frames (this w)) (fired w)).
Proof. by destruct w as [? ? [] ?]. Qed.

Lemma splice_lookup_at l j frame :
  (j ≤ length l)%nat → splice l j frame !! j = Some frame.
Proof.
  intros Hj. unfold splice. apply list_lookup_middle.
  rewrite length_take. lia.
Qed.

(** The frame inserted at index [j], once [deselectAllFrames] has run
    and the frame at index [k] has been selected. *)
Lemma stored_frame l k j frame :
  (j ≤ length l)%nat →
  alter (Frame.set_selected true) k
    (map (Frame.set_selected false) (splice l j frame)) !! j
  = Some (Frame.set_selected (bool_decide (k = j)) frame).
Proof.
  intros Hj. case_bool_decide as Hk.
  - subst k. by rewrite list_lookup_alter_eq, list_lookup_fmap, splice_lookup_at.
  - by rewrite list_lookup_alter_ne, list_lookup_fmap, splice_lookup_at.
Qed.

(** The backward scan stops at the selected frame and inserts after
    it; [frameIndex] is left at the index of the selected frame. *)
Lemma addFrame_scan_finds w next l events frame k :
  only_selected l k →
  ∀ n, (k < n ≤ length l)%nat →
  addFrame_scan frame n (with_frames w next l events)
  = Return (Z.of_nat k) (with_frames w next (splice l (k + 1) frame) events).
Proof.
  intros [Hk Hsel] n. induction n as [|i IH]; intros Hn; [lia|].
  cbn [addFrame_scan]. rewrite run_bind, run_gets.
  change (Presentation.frames (this (with_frames w next l events))) with l.
  destruct (l !! i) as [f|] eqn:Hi.
  2:{ apply lookup_ge_None in Hi. lia. }
  destruct (Frame.selected f) eqn:Hf.
  - apply (Hsel i f Hi) in Hf as ->. reflexivity.
  - apply IH. assert (i ≠ k); [|lia].
    intros ->. assert (Frame.selected f = true) by by apply (Hsel k f Hi).
    congruence.
Qed.

Lemma addFrame_after_selected w state k :
  only_selected (Presentation.frames (this w)) k →
  addFrame state w
  = Return (newFrame w state)
      (with_frames w (S (Object_id w))
         (alter (Frame.set_selected true) k
            (map (Frame.set_selected false)
               (splice (Presentation.frames (this w)) (k + 1) (newFrame w state))))
         (fired w
          ++ addFrame_event (newFrame w state) (Z.of_nat k)
             :: deselectAll_events (S (length (Presentation.frames (this w))))
          ++ [selectFrame_event (Z.of_nat k)])).
Proof.
  intros Hsel. unfold addFrame.
  rewrite run_bind, run_gets, run_bind. unfold Frame_init.
  rewrite run_bind, Object_init_run, run_mret.
  fold (newFrame w state). set (frame := newFrame w state).
  rewrite run_bind, run_gets.
  change (Presentation.frames (this (with_frames w _ ?l _))) with l.
  destruct (Hsel) as [Hk _].
  rewrite run_bind, (addFrame_scan_finds _ _ _ _ _ k Hsel) by lia.
  rewrite run_bind.
  replace (Z.of_nat k =? -1)%Z with false by (symmetry; apply Z.eqb_neq; lia).
  rewrite run_mret. cbn beta iota.
  rewrite run_bind, fire_with_frames.
  rewrite run_bind, deselectAllFrames_with_frames.
  rewrite run_bind, selectFrame_with_frames
    by (rewrite length_map, length_splice; lia).
  rewrite run_bind, run_gets, run_mret.
  change (Presentation.frames (this (with_frames w _ ?l _))) with l.
  replace (Z.to_nat (Z.of_nat k + 1)) with (k + 1)%nat by lia.
  rewrite stored_frame, bool_decide_false by lia.
  rewrite length_splice. by rewrite <- !app_assoc.
Qed.
End AddFrame.

Lemma splice_lookup_new (l : list Frame.t) (k : nat) (frame : Frame.t) :
  (k < length l)%nat → splice l (k + 1) frame !! S k = Some frame.
Proof.
  intros Hk. unfold splice. apply list_lookup_middle.
  rewrite length_take. lia.
Qed.

Lemma only_selected_oneFrameWorld :
  only_selected (Presentation.frames (this oneFrameWorld)) 0.
Proof.
  split; [simpl; lia|].
  intros [|i] f Hi; simpl in Hi; [|done].
  injection Hi as <-. done.
Qed.

(** C1: what [addFrame] does when exactly the frame at index [k] is
    selected.  The new frame is inserted at index [k + 1], as the claim
    says, but it is left deselected: the loop leaves [frameIndex] at
    [k], so that [selectFrame(frameIndex)] selects again the frame at
    index [k], which remains the only selected one. *)
Theorem addFrame_selects_predecessor (w : World) (state k : nat) :
  only_selected (Presentation.frames (this w)) k →
  ∃ w', addFrame state w = Return (newFrame w state) w'
        ∧ Presentation.frames (this w') !! S k = Some (newFrame w state)
        ∧ Frame.selected (newFrame w state) = false
        ∧ only_selected (Presentation.frames (this w')) k.
Proof.
  intros Hsel. destruct (Hsel) as [Hk _].
  eexists. split; [by apply addFrame_after_selected|].
  cbn [with_frames this Presentation.frames Presentation.set_frames].
  split; [|split; [done|split]].
  - rewrite list_lookup_alter_ne by lia.
    by rewrite list_lookup_fmap, splice_lookup_new.
  - rewrite length_alter, length_map, length_splice. lia.
  - intros i f. destruct (decide (i = k)) as [->|Hne].
    + rewrite list_lookup_alter_eq. intros Hf.
      apply fmap_Some in Hf as (g & _ & ->). done.
    + rewrite list_lookup_alter_ne, list_lookup_fmap by done. intros Hf.
      apply fmap_Some in Hf as (g & _ & ->). done.
Qed.

Lemma addFrame_selects_predecessor_witness :
  ∃ w', addFrame 7 oneFrameWorld = Return (newFrame oneFrameWorld 7) w'
        ∧ Presentation.frames (this w') !! 1%nat = Some (newFrame oneFrameWorld 7)
        ∧ Frame.selected (newFrame oneFrameWorld 7) = false
        ∧ only_selected (Presentation.frames (this w')) 0.
Proof.
  apply (addFrame_selects_predecessor oneFrameWorld 7 0).
  apply only_selected_oneFrameWorld.
Defined.

(** C2: the events of [addFrame] when exactly the frame at index [k] is
    selected.  "addFrame" is fired first, before the events of
    [deselectAllFrames] and [selectFrame], but the index it carries is
    [k], whereas the new frame has been inserted at index [k + 1]. *)
Theorem addFrame_event_carries_predecessor_index (w : World) (state k : nat) :
  only_selected (Presentation.frames (this w)) k →
  ∃ w', addFrame state w = Return (newFrame w state) w'
        ∧ Presentation.frames (this w') !! S k = Some (newFrame w state)
        ∧ fired w'
          = fired w
            ++ addFrame_event (newFrame w state) (Z.of_nat k)
               :: deselectAll_events (S (length (Presentation.frames (this w))))
            ++ [selectFrame_event (Z.of_nat k)].
Proof.
  intros Hsel. destruct (Hsel) as [Hk _].
  eexists. split; [by apply addFrame_after_selected|].
  cbn [with_frames this Presentation.frames Presentation.set_frames fired].
  split; [|done].
  rewrite list_lookup_alter_ne by lia.
  by rewrite list_lookup_fmap, splice_lookup_new.
Qed.

Lemma addFrame_event_carries_predecessor_index_witness :
  ∃ w', addFrame 7 oneFrameWorld = Return (newFrame oneFrameWorld 7) w'
        ∧ Presentation.frames (this w') !! 1%nat = Some (newFrame oneFrameWorld 7)
        ∧ fired w'
          = fired oneFrameWorld
            ++ addFrame_event (newFrame oneFrameWorld 7) 0%Z
               :: deselectAll_events 2 ++ [selectFrame_event 0%Z].
Proof.
  apply (addFrame_event_carries_predecessor_index oneFrameWorld 7 0).
  apply only_selected_oneFrameWorld.
Defined.

(** ** The pass of [init] is the function [pass_visit] *)

Section Simulation.
Implicit Types (l pre rest : list Node) (x : Node) (p : Pass).

Lemma removeChild_middle pre x rest :
  uid x ∉ map uid pre →
  removeChild (pre ++ x :: rest) x = Some (pre ++ rest).
Proof.
  induction pre as [|c pre IH]; simpl; intros Hx.
  - by rewrite Nat.eqb_refl.
  - apply not_elem_of_cons in Hx as [Hc Hx].
    destruct (Nat.eqb_spec (uid c) (uid x)); [congruence|].
    by rewrite IH.
Qed.

Lemma insertBefore_middle pre x rest new :
  uid x ∉ map uid pre →
  insertBefore (pre ++ x :: rest) new x = Some (pre ++ new :: x :: rest).
Proof.
  induction pre as [|c pre IH]; simpl; intros Hx.
  - by rewrite Nat.eqb_refl.
  - apply not_elem_of_cons in Hx as [Hc Hx].
    destruct (Nat.eqb_spec (uid c) (uid x)); [congruence|].
    by rewrite IH.
Qed.

Lemma detach_middle pre x rest :
  uid x ∉ map uid pre → detach (pre ++ x :: rest) x = pre ++ rest.
Proof. intros Hx. unfold detach. by rewrite removeChild_middle. Qed.

Variables (id doc : nat) (events : list Event).

Local Ltac run_setters :=
  unfold set_svgWrapper, set_world, set_this, Presentation.set_svgRoot,
    Presentation.set_layers, currentWrapper, layerKey;
  cbn -[detach insertBefore removeChild].

Lemma visit_scope_of p x rest :
  uid x ∉ map uid (placed p) →
  visit x (scope_of id doc events p (x :: rest))
  = Return tt (scope_of id doc events (pass_visit id doc p x) rest).
Proof.
  intros Hx. unfold visit, pass_visit.
  destruct (tagName x) as [name|] eqn:Htag.
  2:{ unfold svgRoot_removeChild, scope_of. run_setters.
      by rewrite removeChild_middle. }
  fold (nodeName x). fold (drawable x).
  destruct (drawable x) eqn:Hdraw.
  2:{ unfold scope_of. rewrite run_mret. run_setters. by rewrite <- app_assoc. }
  rewrite run_bind, run_gets.
  change (Presentation.layers (this (world (scope_of id doc events p (x :: rest)))))
    with (registry p).
  destruct (qualifies (nodeName x) x (registry p)) eqn:Hq.
  2:{ unfold svgWrapper_appendChild, scope_of. rewrite run_modify.
      run_setters. by rewrite detach_middle. }
  rewrite run_bind, run_gets.
  change (svgWrapper (scope_of id doc events p (x :: rest)))
    with (currentWrapper id doc p).
  unfold firstChild, currentWrapper, wrapper. cbn [childNodes].
  destruct (pending p) as [|y ys] eqn:Hpending.
  - rewrite run_bind, run_mret. unfold layers_set, scope_of.
    rewrite run_modify. run_setters. rewrite ?Hpending.
    by rewrite <- app_assoc.
  - rewrite !run_bind. unfold svgRoot_insertBefore, scope_of. run_setters.
    rewrite insertBefore_middle by done. rewrite ?Hpending.
    unfold layers_set, nextWrapper.
    rewrite run_bind, run_modify. run_setters.
    rewrite run_modify. run_setters.
    by rewrite <- app_assoc.
Qed.

Lemma placed_pass_visit p x c :
  c ∈ placed (pass_visit id doc p x) →
  c ∈ placed p ∨ c = x ∨ c = currentWrapper id doc p.
Proof.
  unfold pass_visit.
  destruct (tagName x); [|by left].
  destruct (drawable x); [destruct (qualifies _ _ _); [destruct (pending p)|]|];
    cbn [placed]; rewrite ?elem_of_app, ?elem_of_cons, ?elem_of_nil; tauto.
Qed.

Lemma forEach_visit_scope_of l : ∀ p,
  NoDup (map uid l) →
  (∀ x, x ∈ l → (uid x < doc)%nat) →
  (∀ c, c ∈ placed p → uid c ∉ map uid l) →
  forEach l visit (scope_of id doc events p l)
  = Return tt (scope_of id doc events (foldl (pass_visit id doc) p l) []).
Proof.
  induction l as [|x l IH]; intros p Hnodup Hold Hplaced; [done|].
  cbn [forEach foldl]. rewrite run_bind, visit_scope_of.
  2:{ intros Hin. apply list_elem_of_fmap in Hin as (c & Hc & Hin).
      apply (Hplaced c Hin). rewrite <- Hc. cbn. left. }
  cbn [map] in Hnodup. apply NoDup_cons in Hnodup as [Hx Hnodup].
  apply IH; [done| |].
  - intros y Hy. apply Hold. by right.
  - intros c Hc Hin. apply placed_pass_visit in Hc as [Hc|[->| ->]].
    + apply (Hplaced c Hc). by right.
    + done.
    + apply list_elem_of_fmap in Hin as (y & Hy & Hin).
      assert (uid y < doc)%nat by (apply Hold; by right).
      cbn in Hy. lia.
Qed.

Lemma appendLastWrapper_scope_of p :
  ∃ sc, appendLastWrapper (scope_of id doc events p []) = Return tt sc
        ∧ world sc = world_of id doc events p.
Proof.
  unfold appendLastWrapper. rewrite run_bind, run_gets.
  change (svgWrapper (scope_of id doc events p [])) with (currentWrapper id doc p).
  unfold firstChild, currentWrapper, wrapper, world_of, pass_tree, pass_layers.
  cbn [childNodes].
  destruct (pending p) as [|y ys] eqn:Hpending.
  - eexists. rewrite run_mret. split; [done|].
    unfold scope_of. cbn. by rewrite app_nil_r.
  - eexists. rewrite run_bind. unfold svgRoot_appendChild, layers_set.
    rewrite !run_modify. split; [done|].
    unfold scope_of. run_setters. by rewrite Hpending, app_nil_r.
Qed.
End Simulation.

(** [init] returns, and the presentation it leaves is the one that the
    pass function computes. *)
Lemma init_run (w : World) (l : list Node) :
  well_formed w l →
  init l w
  = Return tt (world_of (Object_id w) (document w) (fired w) (pass_of w l)).
Proof.
  intros [Hnodup Hold]. unfold init. rewrite run_bind.
  change (init_scope l w)
    with (scope_of (Object_id w) (document w) (fired w) pass_start l).
  rewrite forEach_visit_scope_of; [|done|done|by intros c Hc%elem_of_nil].
  destruct (appendLastWrapper_scope_of (Object_id w) (document w) (fired w)
              (pass_of w l)) as (sc & Hrun & Hworld).
  unfold pass_of in Hrun. rewrite Hrun. by rewrite Hworld.
Qed.

Lemma well_formed_sample : well_formed sampleWorld sampleRoot.
Proof.
  split.
  - apply (bool_decide_unpack _). vm_compute. exact I.
  - intros x Hx. apply list_elem_of_In in Hx. simpl in Hx.
    repeat (destruct Hx as [<-|Hx]; [simpl; lia|]). done.
Qed.

(** ** Order of the drawable nodes *)

Section Order.
Variables (id doc : nat).
Implicit Types (l : list Node) (x : Node) (p : Pass).

Lemma drawable_tagName x : drawable x = true → tagName x ≠ None.
Proof. by destruct x. Qed.

Lemma treeContents_app l1 l2 :
  treeContents doc (l1 ++ l2) = treeContents doc l1 ++ treeContents doc l2.
Proof. apply flat_map_app. Qed.

Lemma treeContents_currentWrapper p :
  treeContents doc [currentWrapper id doc p] = pending p.
Proof.
  unfold treeContents, created, currentWrapper, wrapper. cbn.
  destruct (Nat.leb_spec doc (count p + doc)); [|lia]. apply app_nil_r.
Qed.

Lemma treeContents_old x :
  (uid x < doc)%nat →
  treeContents doc [x] = if drawable x then [x] else [].
Proof.
  intros Hx. unfold treeContents, created. cbn.
  destruct (Nat.leb_spec doc (uid x)); [lia|]. apply app_nil_r.
Qed.

(** One more visited node: the drawable nodes seen so far, placed or
    pending, grow by that node if it is drawable. *)
Lemma treeContents_pass_visit p x :
  (uid x < doc)%nat →
  treeContents doc (placed (pass_visit id doc p x)) ++ pending (pass_visit id doc p x)
  = (treeContents doc (placed p) ++ pending p) ++ (if drawable x then [x] else []).
Proof.
  intros Hx. unfold pass_visit.
  destruct (tagName x) eqn:Htag.
  2:{ destruct (drawable x) eqn:Hd; [|by rewrite app_nil_r].
      by apply drawable_tagName in Hd. }
  destruct (drawable x) eqn:Hd.
  2:{ cbn [placed pending]. rewrite treeContents_app, treeContents_old, Hd by done.
      by rewrite !app_nil_r. }
  destruct (qualifies _ _ _).
  2:{ cbn [placed pending]. by rewrite app_assoc. }
  destruct (pending p) as [|y ys] eqn:Hpending; cbn [placed pending].
  - rewrite treeContents_app, treeContents_old, Hd by done.
    by rewrite !app_nil_r.
  - change [currentWrapper id doc p; x] with ([currentWrapper id doc p] ++ [x]).
    rewrite !treeContents_app, treeContents_currentWrapper,
      treeContents_old, Hd, Hpending by done.
    by rewrite app_nil_r, !app_assoc.
Qed.

Lemma treeContents_pass_tree p :
  treeContents doc (pass_tree id doc p) = treeContents doc (placed p) ++ pending p.
Proof.
  unfold pass_tree. destruct (pending p) as [|y ys] eqn:Hpending.
  - by rewrite app_nil_r.
  - by rewrite treeContents_app, treeContents_currentWrapper, Hpending.
Qed.

Lemma treeContents_foldl l : ∀ p,
  (∀ x, x ∈ l → (uid x < doc)%nat) →
  treeContents doc (pass_tree id doc (foldl (pass_visit id doc) p l))
  = (treeContents doc (placed p) ++ pending p) ++ List.filter drawable l.
Proof.
  induction l as [|x l IH]; intros p Hold; cbn [foldl List.filter].
  - by rewrite app_nil_r, treeContents_pass_tree.
  - rewrite IH by (intros y Hy; apply Hold; by right).
    rewrite treeContents_pass_visit by (apply Hold; left).
    rewrite <- app_assoc. by destruct (drawable x).
Qed.
End Order.

(** ** Labels of the auto layers *)

Section Labels.
Variables (id doc : nat).
Implicit Types (l : list Node) (x c : Node) (p : Pass).

Lemma foldl_pass_invariant (I : Pass → Prop) l :
  (∀ p x, x ∈ l → I p → I (pass_visit id doc p x)) →
  ∀ p, I p → I (foldl (pass_visit id doc) p l).
Proof.
  induction l as [|x l IH]; intros Hstep p Hp; [done|].
  cbn [foldl]. apply IH.
  - intros q y Hy. apply Hstep. by right.
  - apply Hstep; [left|done].
Qed.



End Labels.

(** ** Wrapper ids *)

Lemma wrapperId_inj (id k k' : nat) : wrapperId id k = wrapperId id k' → k = k'.
Proof.
  unfold wrapperId. intros H.
  do 3 apply (inj (String.app _)) in H. by apply (inj pretty) in H.
Qed.

Lemma wrapperId_head (id k : nat) : ∃ s, wrapperId id k = String "s" s.
Proof. eexists. reflexivity. Qed.

Lemma inherited_wrapperId (id k : nat) : inherited (wrapperId id k) = false.
Proof.
  destruct (wrapperId_head id k) as [s ->].
  apply bool_decide_eq_false. unfold Object_prototype.
  rewrite !elem_of_cons, elem_of_nil. intros H.
  repeat (destruct H as [H|H]; [discriminate|]). done.
Qed.

(** ** The scenario *)





(** ** The cases of a visit *)

Section Visit.
Variables (id doc : nat).
Implicit Types (l : list Node) (x c : Node) (p : Pass).

Lemma pass_visit_visited p x : visited id doc p x (pass_visit id doc p x).
Proof.
  unfold pass_visit.
  destruct (tagName x) eqn:Htag; [|by constructor].
  destruct (drawable x) eqn:Hd; [|constructor; congruence].
  destruct (qualifies _ _ _) eqn:Hq; [|by constructor].
  destruct (pending p) eqn:Hpending.
  - by apply visited_layer.
  - apply visited_flush; congruence.
Qed.

Lemma qualifies_true x (reg : gmap string Layer.t) :
  qualifies (nodeName x) x reg = true ↔
  nodeName x = "g" ∧ truthy (getAttribute x "id") = true
  ∧ reg !! layerKey x = None ∧ inherited (layerKey x) = false.
Proof.
  unfold qualifies, js_in. fold (layerKey x).
  rewrite !andb_true_iff, negb_true_iff, orb_false_iff, String.eqb_eq.
  rewrite bool_decide_eq_false, <- eq_None_not_Some. tauto.
Qed.

Lemma qualifies_registered x (reg : gmap string Layer.t) :
  is_Some (reg !! layerKey x) → qualifies (nodeName x) x reg = false.
Proof.
  intros [L HL]. apply not_true_iff_false. rewrite qualifies_true.
  intros (_ & _ & Hnone & _). congruence.
Qed.

Lemma truthy_layerKey x :
  truthy (getAttribute x "id") = true → getAttribute x "id" = Some (layerKey x).
Proof. unfold layerKey. by destruct (getAttribute x "id") as [[]|]. Qed.

Lemma drawable_group x : nodeName x = "g" → drawable x = true.
Proof. unfold drawable. by intros ->. Qed.

Lemma currentWrapper_facts p :
  uid (currentWrapper id doc p) = (count p + doc)%nat
  ∧ tagName (currentWrapper id doc p) ≠ None
  ∧ nodeName (currentWrapper id doc p) = "g"
  ∧ drawable (currentWrapper id doc p) = true
  ∧ childNodes (currentWrapper id doc p) = pending p
  ∧ created doc (currentWrapper id doc p) = true
  ∧ truthy (getAttribute (currentWrapper id doc p) "id") = true.
Proof.
  repeat split; try done.
  unfold created. cbn. apply Nat.leb_le. lia.
Qed.
End Visit.

(** ** Groups with an id that is already registered *)

Section Duplicates.
Variables (id doc : nat).
Implicit Types (l seen : list Node) (x y z c : Node) (p : Pass).

Local Notation "'visit'" := (pass_visit id doc).

Lemma keys_from_visit seen p x :
  keys_from id seen p → keys_from id (seen ++ [x]) (visit p x).
Proof.
  intros Hp s.
  assert (∀ q, registry q = registry p → is_Some (registry q !! s) →
            (∃ z, z ∈ seen ++ [x] ∧ nodeName z = "g" ∧ getAttribute z "id" = Some s)
            ∨ ∃ k, s = wrapperId id k) as Hsame.
  { intros q -> Hs. destruct (Hp s Hs) as [(z & Hz & ?)|?]; [left|by right].
    exists z. rewrite elem_of_app. tauto. }
  assert (qualifies (nodeName x) x (registry p) = true →
          is_Some (<[layerKey x := explicitLayer x]> (registry p) !! s) →
          (∃ z, z ∈ seen ++ [x] ∧ nodeName z = "g" ∧ getAttribute z "id" = Some s)
          ∨ ∃ k, s = wrapperId id k) as Hnew.
  { intros (Hg & Hid & _)%qualifies_true.
    rewrite lookup_insert. case_decide as Hkey; [|by apply (Hsame p)].
    intros _. left. exists x. subst s. rewrite elem_of_app, list_elem_of_singleton.
    split; [by right|]. split; [done|]. by apply truthy_layerKey. }
  destruct (pass_visit_visited id doc p x); cbn [registry]; try by apply (Hsame p).
  - by apply Hnew.
  - rewrite lookup_insert. case_decide as Hkey.
    { intros _. apply Hnew; [done|]. subst s. by rewrite lookup_insert_eq. }
    rewrite lookup_insert. case_decide as Hkey'; [by right; eauto|].
    by apply (Hsame p).
Qed.

Lemma keys_from_foldl l : ∀ seen p,
  keys_from id seen p → keys_from id (seen ++ l) (foldl visit p l).
Proof.
  induction l as [|x l IH]; intros seen p Hp; cbn [foldl].
  - by rewrite app_nil_r.
  - rewrite cons_middle, app_assoc. by apply IH, keys_from_visit.
Qed.

Lemma placed_from_visit seen p x :
  placed_from doc seen p → placed_from doc (seen ++ [x]) (visit p x).
Proof.
  intros Hp c Hc. apply placed_pass_visit in Hc as [Hc|[->| ->]].
  - destruct (Hp c Hc); [left|by right]. rewrite elem_of_app. tauto.
  - left. rewrite elem_of_app, list_elem_of_singleton. tauto.
  - right. apply currentWrapper_facts.
Qed.

Lemma placed_from_foldl l : ∀ seen p,
  placed_from doc seen p → placed_from doc (seen ++ l) (foldl visit p l).
Proof.
  induction l as [|x l IH]; intros seen p Hp; cbn [foldl].
  - by rewrite app_nil_r.
  - rewrite cons_middle, app_assoc. by apply IH, placed_from_visit.
Qed.

(** An entry whose key is no wrapper id is never written again. *)
Lemma registry_visit_stable p x idx E :
  (∀ k, idx ≠ wrapperId id k) →
  registry p !! idx = Some E → registry (visit p x) !! idx = Some E.
Proof.
  intros Hidx HE.
  destruct (pass_visit_visited id doc p x) as [| | Hd Hq _ | Hd Hq _ |];
    cbn [registry]; try done;
    apply qualifies_true in Hq as (_ & _ & Hnone & _);
    rewrite lookup_insert_ne by congruence; [done|].
  by rewrite lookup_insert_ne.
Qed.

Lemma registry_foldl_stable l idx E : ∀ p,
  (∀ k, idx ≠ wrapperId id k) →
  registry p !! idx = Some E → registry (foldl visit p l) !! idx = Some E.
Proof.
  induction l as [|x l IH]; intros p Hidx HE; [done|].
  cbn [foldl]. by apply IH, registry_visit_stable.
Qed.

Lemma pass_layers_stable p idx E :
  (∀ k, idx ≠ wrapperId id k) →
  registry p !! idx = Some E → pass_layers id doc p !! idx = Some E.
Proof.
  intros Hidx HE. unfold pass_layers. destruct (pending p); [done|].
  by rewrite lookup_insert_ne.
Qed.

(** A group whose id is registered goes into the current wrapper. *)
Lemma visit_registered_group p x :
  nodeName x = "g" → is_Some (registry p !! layerKey x) →
  visit p x
  = {| placed := placed p; registry := registry p; count := count p;
       pending := pending p ++ [x] |}.
Proof.
  intros Hg Hreg. unfold pass_visit.
  destruct (tagName x) eqn:Htag; [|by destruct x].
  by rewrite drawable_group, qualifies_registered.
Qed.

Lemma held_visit x p z :
  held doc x (placed p) (pending p) →
  held doc x (placed (visit p z)) (pending (visit p z)).
Proof.
  intros Hheld.
  assert (∀ t, held doc x (placed p ++ t) (pending p)) as Hmore.
  { intros t. destruct Hheld as [?|(wr & ? & ?)]; [by left|right].
    exists wr. rewrite elem_of_app. tauto. }
  assert (∀ t, held doc x (placed p ++ currentWrapper id doc p :: t) []) as Hflush.
  { intros t. right. destruct Hheld as [Hx|(wr & Hwr & ?)].
    - exists (currentWrapper id doc p).
      rewrite elem_of_app, elem_of_cons.
      destruct (currentWrapper_facts id doc p) as (_ & _ & _ & _ & -> & -> & _).
      tauto.
    - exists wr. rewrite elem_of_app. tauto. }
  destruct (pass_visit_visited id doc p z) as [| | _ _ Hpending | |];
    cbn [placed pending]; [done|apply Hmore| |apply Hflush|].
  - specialize (Hmore [z]). by rewrite Hpending in Hmore.
  - destruct Hheld as [?|?]; [left|by right]. rewrite elem_of_app. tauto.
Qed.

Lemma held_foldl x l : ∀ p,
  held doc x (placed p) (pending p) →
  held doc x (placed (foldl visit p l)) (pending (foldl visit p l)).
Proof.
  induction l as [|z l IH]; intros p Hp; [done|].
  cbn [foldl]. by apply IH, held_visit.
Qed.

Lemma held_pass_tree x p :
  held doc x (placed p) (pending p) →
  ∃ wr, wr ∈ pass_tree id doc p ∧ created doc wr = true ∧ x ∈ childNodes wr.
Proof.
  unfold pass_tree. intros [Hx|(wr & Hwr & ?)].
  - destruct (pending p) as [|u us] eqn:Hpending; [by apply elem_of_nil in Hx|].
    exists (currentWrapper id doc p).
    destruct (currentWrapper_facts id doc p) as (_ & _ & _ & _ & -> & -> & _).
    rewrite elem_of_app, list_elem_of_singleton, Hpending. tauto.
  - exists wr. destruct (pending p); [done|]. rewrite elem_of_app. tauto.
Qed.

Lemma apart_visit x p z :
  (uid x < doc)%nat → uid z ≠ uid x →
  apart x (placed p) → apart x (placed (visit p z)).
Proof.
  intros Hx Hz Hp c Hc. apply placed_pass_visit in Hc as [Hc|[->| ->]].
  - by apply Hp.
  - done.
  - destruct (currentWrapper_facts id doc p) as (-> & _). lia.
Qed.

Lemma apart_foldl x l : ∀ p,
  (uid x < doc)%nat → uid x ∉ map uid l →
  apart x (placed p) → apart x (placed (foldl visit p l)).
Proof.
  induction l as [|z l IH]; intros p Hx Hl Hp; [done|].
  cbn [foldl]. cbn [map] in Hl. apply not_elem_of_cons in Hl as [Hz Hl].
  apply IH; [done|done|]. apply apart_visit; [done|congruence|done].
Qed.

Lemma apart_pass_tree x p :
  (uid x < doc)%nat → apart x (placed p) → apart x (pass_tree id doc p).
Proof.
  intros Hx Hp c. unfold pass_tree. destruct (pending p); [apply Hp|].
  rewrite elem_of_app, list_elem_of_singleton. intros [Hc| ->]; [by apply Hp|].
  destruct (currentWrapper_facts id doc p) as (-> & _). lia.
Qed.

Lemma registered_placed_visit p x :
  registered_placed (placed p) (registry p) →
  registered_placed (placed (visit p x)) (registry (visit p x)).
Proof.
  intros Hp.
  assert (∀ t key L, registry p !! key = Some L → Layer.svgNode L ∈ placed p ++ t)
    as Hmore.
  { intros t key L HL. rewrite elem_of_app. left. by eapply Hp. }
  destruct (pass_visit_visited id doc p x);
    cbn [placed registry]; try done; intros key L.
  - apply Hmore.
  - rewrite lookup_insert. case_decide; [|apply Hmore].
    intros [= <-]. cbn. rewrite elem_of_app, list_elem_of_singleton. tauto.
  - rewrite lookup_insert. case_decide.
    { intros [= <-]. cbn. rewrite elem_of_app, !elem_of_cons. tauto. }
    rewrite lookup_insert. case_decide; [|apply Hmore].
    intros [= <-]. cbn. rewrite elem_of_app, !elem_of_cons. tauto.
Qed.

Lemma registered_placed_pass p :
  registered_placed (placed p) (registry p) →
  registered_placed (pass_tree id doc p) (pass_layers id doc p).
Proof.
  intros Hp key L. unfold pass_tree, pass_layers.
  destruct (pending p); [apply Hp|].
  rewrite lookup_insert, elem_of_app, list_elem_of_singleton.
  case_decide; [intros [= <-]; by right|]. intros HL. left. by eapply Hp.
Qed.
End Duplicates.

Section DuplicateGroup.
Variables (w : World) (pre1 pre2 post : list Node) (y x : Node) (idx : string).

Local Notation "'id'" := (Object_id w).
Local Notation "'doc'" := (document w).
Local Notation "'visit'" := (pass_visit (Object_id w) (document w)).
Local Notation "'root'" := (pre1 ++ y :: pre2 ++ x :: post).

Hypothesis Hwf : well_formed w root.
Hypothesis Hy : nodeName y = "g" ∧ getAttribute y "id" = Some idx.
Hypothesis Hidx : idx ≠ "" ∧ inherited idx = false.
Hypothesis Hfirst :
  ∀ z, z ∈ pre1 → nodeName z = "g" → getAttribute z "id" ≠ Some idx.
Hypothesis Hx : nodeName x = "g" ∧ getAttribute x "id" = Some idx.
Hypothesis Hfree : ∀ k, idx ≠ wrapperId id k.

Let p1 := foldl visit pass_start pre1.
Let p3 := foldl visit (visit p1 y) pre2.
Let p5 := foldl visit (visit p3 x) post.

Lemma duplicate_pass : pass_of w root = p5.
Proof.
  unfold pass_of, p5, p3, p1. rewrite foldl_app. cbn [foldl].
  rewrite foldl_app. reflexivity.
Qed.

Lemma duplicate_keys : layerKey y = idx ∧ layerKey x = idx.
Proof. unfold layerKey. destruct Hy as [_ ->], Hx as [_ ->]. done. Qed.

Lemma duplicate_first_registered :
  registry (visit p1 y) !! idx = Some (explicitLayer y).
Proof.
  destruct duplicate_keys as [Hky _], Hy as [Hg Hid], Hidx as [Hne Hinh].
  assert (registry p1 !! idx = None) as Hnone.
  { apply eq_None_not_Some. intros Hsome.
    destruct (keys_from_foldl id doc pre1 [] pass_start) with (s := idx)
      as [(z & Hz & Hzg & Hzid)|[k Hk]]; [|done| |].
    - intros s [L HL]. cbn [pass_start registry] in HL.
      by rewrite lookup_empty in HL.
    - by apply (Hfirst z).
    - by apply (Hfree k). }
  assert (qualifies (nodeName y) y (registry p1) = true) as Hq.
  { apply qualifies_true. rewrite Hky, Hid. repeat split; try done.
    by destruct idx. }
  destruct (pass_visit_visited id doc p1 y) as [Htag|_ Hd| | |_ Hq'];
    cbn [registry].
  - by destruct y.
  - by rewrite drawable_group in Hd.
  - rewrite <- Hky. apply lookup_insert_eq.
  - rewrite <- Hky. apply lookup_insert_eq.
  - congruence.
Qed.

Lemma duplicate_absorbed :
  visit p3 x
  = {| placed := placed p3; registry := registry p3; count := count p3;
       pending := pending p3 ++ [x] |}
  ∧ registry p3 !! idx = Some (explicitLayer y).
Proof.
  assert (registry p3 !! idx = Some (explicitLayer y)) as Hreg.
  { apply registry_foldl_stable; [done|]. apply duplicate_first_registered. }
  split; [|done]. apply visit_registered_group; [apply Hx|].
  destruct duplicate_keys as [_ ->]. by rewrite Hreg.
Qed.

Lemma duplicate_entry_kept :
  pass_layers id doc p5 !! idx = Some (explicitLayer y).
Proof.
  destruct duplicate_absorbed as [Hvisit Hreg].
  apply pass_layers_stable; [done|]. apply registry_foldl_stable; [done|].
  by rewrite Hvisit.
Qed.

Lemma duplicate_in_wrapper :
  ∃ wr, wr ∈ pass_tree id doc p5 ∧ created doc wr = true ∧ x ∈ childNodes wr.
Proof.
  destruct duplicate_absorbed as [Hvisit _].
  apply held_pass_tree, held_foldl. rewrite Hvisit. left. cbn.
  rewrite elem_of_app, list_elem_of_singleton. tauto.
Qed.

Lemma duplicate_uids :
  (uid x < doc)%nat
  ∧ (uid x ∉ map uid (pre1 ++ y :: pre2))
  ∧ (uid x ∉ map uid post).
Proof.
  destruct Hwf as [Hnodup Hold]. split; [|split].
  - apply Hold. rewrite elem_of_app, !elem_of_cons, elem_of_app, elem_of_cons.
    tauto.
  - replace root with ((pre1 ++ y :: pre2) ++ x :: post) in Hnodup
      by (by rewrite <- app_assoc).
    rewrite map_app in Hnodup. apply NoDup_app in Hnodup as (_ & Hdisj & _).
    intros Hin. apply (Hdisj _ Hin). cbn. left.
  - replace root with ((pre1 ++ y :: pre2) ++ x :: post) in Hnodup
      by (by rewrite <- app_assoc).
    rewrite map_app in Hnodup. apply NoDup_app in Hnodup as (_ & _ & Hnodup).
    cbn in Hnodup. by apply NoDup_cons in Hnodup as [? _].
Qed.

Lemma duplicate_not_a_child : apart x (pass_tree id doc p5).
Proof.
  destruct duplicate_uids as (Hold & Hbefore & Hafter).
  destruct duplicate_absorbed as [Hvisit _].
  apply apart_pass_tree; [done|]. apply apart_foldl; [done|done|].
  rewrite Hvisit. cbn [placed]. intros c Hc.
  assert (placed_from doc (pre1 ++ y :: pre2) p3) as Hfrom.
  { unfold p3, p1.
    replace (foldl visit (visit (foldl visit pass_start pre1) y) pre2)
      with (foldl visit pass_start (pre1 ++ y :: pre2))
      by (by rewrite foldl_app).
    apply (placed_from_foldl id doc _ [] pass_start).
    by intros c' Hc'%elem_of_nil. }
  destruct (Hfrom c Hc) as [Hseen|Hnew].
  - intros Heq. apply Hbefore. rewrite <- Heq. by apply list_elem_of_fmap_2.
  - unfold created in Hnew. apply Nat.leb_le in Hnew. lia.
Qed.

Lemma duplicate_not_registered :
  ∀ key L, pass_layers id doc p5 !! key = Some L → uid (Layer.svgNode L) ≠ uid x.
Proof.
  intros key L HL. apply duplicate_not_a_child.
  eapply (registered_placed_pass id doc); [|done].
  rewrite <- duplicate_pass. unfold pass_of.
  apply (foldl_pass_invariant id doc
           (λ p, registered_placed (placed p) (registry p))).
  - intros q z _. apply registered_placed_visit.
  - intros k M HM. cbn [pass_start registry] in HM.
    by rewrite lookup_empty in HM.
Qed.
End DuplicateGroup.

(** C6, as stated, fails: both groups carry the id "sozi-wrapper-1-0",
    the id of the first wrapper of presentation 1.  The first group is
    registered under it and the second goes into the wrapper; when the
    wrapper is appended, its registration replaces the entry of the
    first group. *)
Lemma twin_groups_entry_overwritten :
  ∃ w', init twinRoot sampleWorld = Return tt w'
    ∧ Presentation.svgRoot (this w') = [twin_first; wrapper 1 10 0 [twin_second]]
    ∧ Presentation.layers (this w') !! "sozi-wrapper-1-0"
      = Some (lastLayer (wrapper 1 10 0 [twin_second]))
    ∧ Presentation.layers (this w') !! "sozi-wrapper-1-0"
      ≠ Some (explicitLayer twin_first).
Proof.
  eexists. split; [vm_compute; reflexivity|].
  split; [reflexivity|]. split; [vm_compute; reflexivity|].
  vm_compute. discriminate.
Qed.

(** C6 (amended): let [y] be the first group of the root with the
    non-empty id [idx], an id that is no name inherited from
    [Object.prototype], and let [x] be a later group with the same id.
    Provided [idx] is not the id of a wrapper of this presentation,
    after [init] the layer map still binds [idx] to the layer of [y], no
    layer has [x] as its node, [x] is no longer a child of the root, and
    [x] is a child of a wrapper made by the pass. *)
Theorem duplicate_group_is_absorbed (w : World) (pre1 pre2 post : list Node)
    (y x : Node) (idx : string) :
  well_formed w (pre1 ++ y :: pre2 ++ x :: post) →
  nodeName y = "g" ∧ getAttribute y "id" = Some idx →
  idx ≠ "" ∧ inherited idx = false →
  (∀ z, z ∈ pre1 → nodeName z = "g" → getAttribute z "id" ≠ Some idx) →
  nodeName x = "g" ∧ getAttribute x "id" = Some idx →
  (∀ k, idx ≠ wrapperId (Object_id w) k) →
  ∃ w', init (pre1 ++ y :: pre2 ++ x :: post) w = Return tt w'
    ∧ Presentation.layers (this w') !! idx = Some (explicitLayer y)
    ∧ (∀ key L, Presentation.layers (this w') !! key = Some L →
                uid (Layer.svgNode L) ≠ uid x)
    ∧ apart x (Presentation.svgRoot (this w'))
    ∧ ∃ wr, wr ∈ Presentation.svgRoot (this w')
            ∧ created (document w) wr = true ∧ x ∈ childNodes wr.
Proof.
  intros Hwf Hy Hidx Hfirst Hx Hfree.
  eexists. split; [by apply init_run|].
  cbn [world_of this Presentation.svgRoot Presentation.layers].
  rewrite (duplicate_pass w pre1 pre2 post y x).
  split; [by apply (duplicate_entry_kept w pre1 pre2 post y x idx)|].
  split; [by apply (duplicate_not_registered w pre1 pre2 post y x idx)|].
  split; [by apply (duplicate_not_a_child w pre1 pre2 post y x idx)|].
  by apply (duplicate_in_wrapper w pre1 pre2 post y x idx).
Qed.

Lemma duplicate_group_is_absorbed_witness :
  ∃ w', init sampleRoot sampleWorld = Return tt w'
    ∧ Presentation.layers (this w') !! "L1"
      = Some (explicitLayer (Element 3 SVG_NS "g" [("id", "L1")] []))
    ∧ (∀ key L, Presentation.layers (this w') !! key = Some L →
                uid (Layer.svgNode L) ≠ 5%nat)
    ∧ apart (Element 5 SVG_NS "g" [("id", "L1")] [Element 6 SVG_NS "path" [] []])
        (Presentation.svgRoot (this w'))
    ∧ ∃ wr, wr ∈ Presentation.svgRoot (this w')
            ∧ created (document sampleWorld) wr = true
            ∧ Element 5 SVG_NS "g" [("id", "L1")] [Element 6 SVG_NS "path" [] []]
              ∈ childNodes wr.
Proof.
  apply (duplicate_group_is_absorbed sampleWorld
           [CharacterData 0 " "; Element 1 SVG_NS "defs" [] [];
            Element 2 SVG_NS "rect" [] []]
           [Element 4 SVG_NS "circle" [] []] []
           (Element 3 SVG_NS "g" [("id", "L1")] [])
           (Element 5 SVG_NS "g" [("id", "L1")] [Element 6 SVG_NS "path" [] []])
           "L1").
  - apply well_formed_sample.
  - split; reflexivity.
  - split; [discriminate|reflexivity].
  - intros z Hz. apply list_elem_of_In in Hz. simpl in Hz.
    destruct Hz as [<-|[<-|[<-|[]]]]; discriminate.
  - split; reflexivity.
  - intros k. destruct (wrapperId_head (Object_id sampleWorld) k) as [s ->].
    discriminate.
Defined.

(** ** The tree and the layer map fit together *)

Section Tidy.
Variables (id doc : nat).
Implicit Types (l tree : list Node) (x c : Node) (p : Pass)
  (reg : gmap string Layer.t) (n : nat).

Lemma layerKeys_snoc tree x :
  layerKeys (tree ++ [x])
  = layerKeys tree ++ (if drawable x then [layerKey x] else []).
Proof.
  unfold layerKeys. rewrite List.filter_app, map_app. cbn.
  by destruct (drawable x).
Qed.

Lemma is_Some_insert reg (key s : string) (L : Layer.t) :
  is_Some (<[key := L]> reg !! s) ↔ is_Some (reg !! s) ∨ s = key.
Proof.
  rewrite lookup_insert. case_decide as Hs; [subst s|]; split.
  - intros _. by right.
  - eauto.
  - by left.
  - by intros [?| ->].
Qed.

Lemma created_old x : (uid x < doc)%nat → created doc x = false.
Proof. intros Hx. unfold created. apply Nat.leb_gt. lia. Qed.

Lemma tidy_start : tidy id doc [] ∅ 0.
Proof.
  split.
  - by intros c Hc%elem_of_nil.
  - by intros c Hc%elem_of_nil.
  - intros s. rewrite lookup_empty. cbn. split; [by intros []|by intros ?%elem_of_nil].
  - intros k. rewrite lookup_empty. by intros [].
  - constructor.
  - by intros c Hc%elem_of_nil.
  - intros key L. by rewrite lookup_empty.
Qed.

(** An element that is not drawable stays a child of the root. *)
Lemma tidy_place_foreign tree reg n x :
  tagName x ≠ None → drawable x = false → (uid x < doc)%nat →
  tidy id doc tree reg n → tidy id doc (tree ++ [x]) reg n.
Proof.
  intros Htag Hd Hx [He Hg Hk Hw Hn Hc Ha]. split.
  - intros c [Hin| ->%list_elem_of_singleton]%elem_of_app; [by apply He|done].
  - intros c [Hin| ->%list_elem_of_singleton]%elem_of_app; [by apply Hg|congruence].
  - intros s. by rewrite layerKeys_snoc, Hd, app_nil_r.
  - done.
  - by rewrite layerKeys_snoc, Hd, app_nil_r.
  - intros c [Hin| ->%list_elem_of_singleton]%elem_of_app; [by apply Hc|].
    rewrite created_old by done. discriminate.
  - intros key L HL Hauto. destruct (Ha key L HL Hauto) as (? & ? & ?).
    rewrite elem_of_app. tauto.
Qed.

(** A wrapper is placed and bound to an auto layer. *)
Lemma tidy_place_wrapper tree reg n (kids : list Node) L :
  Layer.auto L = true → Layer.svgNode L = wrapper id (n + doc) n kids →
  tidy id doc tree reg n →
  tidy id doc (tree ++ [wrapper id (n + doc) n kids])
    (<[wrapperId id n := L]> reg) (S n).
Proof.
  intros Hauto Hnode [He Hg Hk Hw Hn Hc Ha].
  set (wr := wrapper id (n + doc) n kids) in *.
  assert (layerKey wr = wrapperId id n) as Hkey by done.
  assert (created doc wr = true) as Hnew.
  { unfold created. cbn. apply Nat.leb_le. lia. }
  assert (wrapperId id n ∉ layerKeys tree) as Hfresh.
  { intros Hin%Hk%Hw. lia. }
  split.
  - intros c [Hin| ->%list_elem_of_singleton]%elem_of_app; [by apply He|done].
  - intros c [Hin| ->%list_elem_of_singleton]%elem_of_app; [by apply Hg|].
    intros _. split; [done|]. split; [|apply inherited_wrapperId].
    cbn. by destruct (wrapperId_head id n) as [s ->].
  - intros s. rewrite layerKeys_snoc. change (drawable wr) with true. cbn match.
    rewrite elem_of_app, list_elem_of_singleton, Hkey, <- Hk.
    apply is_Some_insert.
  - intros k. rewrite lookup_insert. case_decide as Hk'.
    + apply wrapperId_inj in Hk' as <-. lia.
    + intros Hsome%Hw. lia.
  - rewrite layerKeys_snoc. change (drawable wr) with true. cbn match.
    apply NoDup_app. split; [done|]. split; [|apply NoDup_singleton].
    intros s Hs ->%list_elem_of_singleton. by rewrite Hkey in Hs.
  - intros c [Hin| ->%list_elem_of_singleton]%elem_of_app.
    + intros Hcnew. destruct (Hc c Hin Hcnew) as (Hcd & M & HM & ?).
      split; [done|]. exists M. rewrite lookup_insert_ne; [done|].
      intros Heq. apply Hfresh. rewrite Heq. apply Hk. eauto.
    + intros _. split; [done|]. exists L. by rewrite Hkey, lookup_insert_eq.
  - intros key M. rewrite lookup_insert. case_decide as Hk'.
    + intros [= <-] _. subst key. rewrite Hnode, elem_of_app, list_elem_of_singleton.
      tauto.
    + intros HM HMauto. destruct (Ha key M HM HMauto) as (? & ? & ?).
      rewrite elem_of_app. tauto.
Qed.

(** A new group stays a child of the root and is bound to its layer. *)
Lemma tidy_place_group tree reg n x :
  (uid x < doc)%nat →
  qualifies (nodeName x) x reg = true →
  (∀ k, layerKey x ≠ wrapperId id k) →
  tidy id doc tree reg n →
  tidy id doc (tree ++ [x]) (<[layerKey x := explicitLayer x]> reg) n.
Proof.
  intros Hx (Hgroup & Hid & Hnone & Hinh)%qualifies_true Hfree
    [He Hg Hk Hw Hn Hc Ha].
  assert (drawable x = true) as Hd by by apply drawable_group.
  assert (layerKey x ∉ layerKeys tree) as Hfresh.
  { intros [M HM]%Hk. congruence. }
  split.
  - intros c [Hin| ->%list_elem_of_singleton]%elem_of_app; [by apply He|].
    by apply drawable_tagName.
  - intros c [Hin| ->%list_elem_of_singleton]%elem_of_app; [by apply Hg|done].
  - intros s. rewrite layerKeys_snoc, Hd.
    rewrite elem_of_app, list_elem_of_singleton, <- Hk.
    apply is_Some_insert.
  - intros k. rewrite lookup_insert_ne by apply Hfree. apply Hw.
  - rewrite layerKeys_snoc, Hd.
    apply NoDup_app. split; [done|]. split; [|apply NoDup_singleton].
    by intros s Hs ->%list_elem_of_singleton.
  - intros c [Hin| ->%list_elem_of_singleton]%elem_of_app.
    + intros Hcnew. destruct (Hc c Hin Hcnew) as (Hcd & M & HM & ?).
      split; [done|]. exists M. rewrite lookup_insert_ne; [done|]. congruence.
    + rewrite created_old by done. discriminate.
  - intros key M. rewrite lookup_insert. case_decide as Hk'.
    + by intros [= <-].
    + intros HM HMauto. destruct (Ha key M HM HMauto) as (? & ? & ?).
      rewrite elem_of_app. tauto.
Qed.
Lemma tidy_visit p x :
  (uid x < doc)%nat →
  (nodeName x = "g" → ∀ k, getAttribute x "id" ≠ Some (wrapperId id k)) →
  tidy id doc (placed p) (registry p) (count p) →
  tidy id doc (placed (pass_visit id doc p x)) (registry (pass_visit id doc p x))
    (count (pass_visit id doc p x)).
Proof.
  intros Hx Hfree Hp.
  assert (∀ reg, qualifies (nodeName x) x reg = true →
                 ∀ k, layerKey x ≠ wrapperId id k) as Hkey.
  { intros reg (Hg & Hid%truthy_layerKey & _)%qualifies_true k Heq.
    apply (Hfree Hg k). by rewrite Hid, Heq. }
  destruct (pass_visit_visited id doc p x) as [|Htag Hd|Hd Hq _|Hd Hq _|];
    cbn [placed registry count]; try done.
  - by apply tidy_place_foreign.
  - apply tidy_place_group; [done|done|by eapply Hkey|done].
  - change [currentWrapper id doc p; x] with ([currentWrapper id doc p] ++ [x]).
    rewrite app_assoc. apply tidy_place_group; [done| |by eapply Hkey|].
    + apply qualifies_true in Hq as (? & ? & ? & ?). apply qualifies_true.
      repeat split; try done. rewrite lookup_insert_ne; [done|].
      intros Heq. by eapply Hkey, eq_sym; [apply qualifies_true|].
    + by apply tidy_place_wrapper.
Qed.

Lemma tidy_foldl l : ∀ p,
  (∀ x, x ∈ l → (uid x < doc)%nat) → wrapper_free id l →
  tidy id doc (placed p) (registry p) (count p) →
  tidy id doc (placed (foldl (pass_visit id doc) p l))
    (registry (foldl (pass_visit id doc) p l))
    (count (foldl (pass_visit id doc) p l)).
Proof.
  intros p Hold Hfree.
  apply (foldl_pass_invariant id doc
           (λ q, tidy id doc (placed q) (registry q) (count q))).
  intros q x Hx. apply tidy_visit; [by apply Hold|by apply Hfree].
Qed.

Lemma tidy_pass_tree p :
  tidy id doc (placed p) (registry p) (count p) →
  ∃ n, tidy id doc (pass_tree id doc p) (pass_layers id doc p) n.
Proof.
  intros Hp. unfold pass_tree, pass_layers.
  destruct (pending p) as [|y ys] eqn:Hpending; [by exists (count p)|].
  exists (S (count p)). unfold currentWrapper. rewrite Hpending.
  by apply tidy_place_wrapper.
Qed.

Lemma distinct_uids_visit p x rest :
  distinct_uids doc p (x :: rest) → distinct_uids doc (pass_visit id doc p x) rest.
Proof.
  intros (Hnodup & Hplaced & Hrest).
  assert (NoDup (map uid (placed p ++ rest))) as Hwithout.
  { rewrite map_app in *. cbn [map] in Hnodup.
    apply NoDup_app in Hnodup as (? & Hdisj & [? ?]%NoDup_cons).
    apply NoDup_app. repeat split; try done.
    intros u Hu Hin. apply (Hdisj u Hu). by right. }
  assert (∀ y, y ∈ rest → (uid y < doc)%nat) as Hrest'.
  { intros y Hy. apply Hrest. by right. }
  destruct (pass_visit_visited id doc p x); unfold distinct_uids;
    cbn [placed count]; (split; [|split; [|done]]); try done.
  - by rewrite <- app_assoc.
  - intros c [Hc| ->%list_elem_of_singleton]%elem_of_app; [by apply Hplaced|].
    assert (uid x < doc)%nat by (apply Hrest; left). lia.
  - by rewrite <- app_assoc.
  - intros c [Hc| ->%list_elem_of_singleton]%elem_of_app; [by apply Hplaced|].
    assert (uid x < doc)%nat by (apply Hrest; left). lia.
  - rewrite <- app_assoc. cbn [app]. rewrite map_app. cbn [map].
    rewrite map_app in Hnodup. cbn [map] in Hnodup.
    apply NoDup_app in Hnodup as (Hleft & Hdisj & Hright).
    destruct (currentWrapper_facts id doc p) as (Hcw & _). rewrite Hcw.
    apply NoDup_app. split; [done|]. split.
    + intros u Hu [->|Hin]%elem_of_cons; [|by apply (Hdisj u Hu)].
      apply list_elem_of_fmap in Hu as (c & Hc & Hin%Hplaced). lia.
    + apply NoDup_cons. split; [|done].
      intros Hin. change (uid x :: map uid rest) with (map uid (x :: rest)) in Hin.
      apply list_elem_of_fmap in Hin as (c & Hc & Hin%Hrest). lia.
  - intros c [Hc|Hc]%elem_of_app.
    + apply Hplaced in Hc. lia.
    + apply elem_of_cons in Hc as [->|Hc%list_elem_of_singleton].
      * destruct (currentWrapper_facts id doc p) as (-> & _). lia.
      * subst c. assert (uid x < doc)%nat by (apply Hrest; left). lia.
Qed.

Lemma distinct_uids_foldl l : ∀ p,
  distinct_uids doc p l → distinct_uids doc (foldl (pass_visit id doc) p l) [].
Proof.
  induction l as [|x l IH]; intros p Hp; [done|].
  cbn [foldl]. by apply IH, distinct_uids_visit.
Qed.

Lemma distinct_uids_pass_tree p :
  distinct_uids doc p [] →
  NoDup (map uid (pass_tree id doc p))
  ∧ ∀ c, c ∈ pass_tree id doc p → (uid c < S (count p + doc))%nat.
Proof.
  intros (Hnodup & Hplaced & _). rewrite app_nil_r in Hnodup.
  unfold pass_tree. destruct (pending p).
  - split; [done|]. intros c Hc%Hplaced. lia.
  - destruct (currentWrapper_facts id doc p) as (Hcw & _). split.
    + rewrite map_app. cbn [map]. rewrite Hcw.
      apply NoDup_app. split; [done|]. split; [|apply NoDup_singleton].
      intros u Hu ->%list_elem_of_singleton.
      apply list_elem_of_fmap in Hu as (c & Hc & Hin%Hplaced). lia.
    + intros c [Hc%Hplaced| ->%list_elem_of_singleton]%elem_of_app; lia.
Qed.
End Tidy.

(** ** A second pass over the layers *)

Section SecondPass.
Variables (id doc : nat).
Implicit Types (tree : list Node) (x c : Node) (p : Pass).

Local Notation "'visit'" := (pass_visit id doc).

Lemma layerKeys_app tree1 tree2 :
  layerKeys (tree1 ++ tree2) = layerKeys tree1 ++ layerKeys tree2.
Proof. unfold layerKeys. by rewrite List.filter_app, map_app. Qed.

Lemma layerKeys_cons x tree :
  layerKeys (x :: tree)
  = (if drawable x then [layerKey x] else []) ++ layerKeys tree.
Proof. unfold layerKeys. cbn. by destruct (drawable x). Qed.

(** Over children that are all layers or elements that are not
    drawable, the pass places every node where it is, and registers
    each drawable one under its id. *)
Lemma pass_over_layers tree : ∀ p,
  (∀ c, c ∈ tree → tagName c ≠ None) →
  (∀ c, c ∈ tree → drawable c = true →
        nodeName c = "g" ∧ truthy (getAttribute c "id") = true
        ∧ inherited (layerKey c) = false) →
  pending p = [] →
  (∀ s, is_Some (registry p !! s) → s ∈ layerKeys (placed p)) →
  NoDup (layerKeys (placed p ++ tree)) →
  ∃ reg, foldl visit p tree
         = {| placed := placed p ++ tree; registry := reg; count := count p;
              pending := [] |}
    ∧ (∀ s, is_Some (reg !! s) ↔ is_Some (registry p !! s) ∨ s ∈ layerKeys tree)
    ∧ (∀ s, s ∉ layerKeys tree → reg !! s = registry p !! s)
    ∧ (∀ c, c ∈ tree → drawable c = true →
            reg !! layerKey c = Some (explicitLayer c)).
Proof.
  induction tree as [|x tree IH]; intros p Helem Hgroup Hpending Hkeys Hnodup.
  { exists (registry p). split.
    - destruct p. cbn in *. subst. by rewrite app_nil_r.
    - split; [|split; [done|by intros c Hc%elem_of_nil]].
      intros s. cbn. rewrite elem_of_nil. tauto. }
  assert (tagName x ≠ None) as Htag by (apply Helem; left).
  assert (∀ c, c ∈ tree → tagName c ≠ None) as Helem'
    by (intros c Hc; apply Helem; by right).
  assert (∀ c, c ∈ tree → drawable c = true →
            nodeName c = "g" ∧ truthy (getAttribute c "id") = true
            ∧ inherited (layerKey c) = false) as Hgroup'
    by (intros c Hc; apply Hgroup; by right).
  rewrite layerKeys_app, layerKeys_cons in Hnodup.
  cbn [foldl]. destruct (drawable x) eqn:Hd.
  - destruct (Hgroup x) as (Hg & Hid & Hinh); [left|done|].
    apply NoDup_app in Hnodup as (Hleft & Hdisj & Hright). cbn [app] in *.
    apply NoDup_cons in Hright as [Hfresh Hright].
    assert (registry p !! layerKey x = None) as Hnone.
    { apply eq_None_not_Some. intros Hin%Hkeys. apply (Hdisj _ Hin). left. }
    assert (qualifies (nodeName x) x (registry p) = true) as Hq
      by by apply qualifies_true.
    destruct (pass_visit_visited id doc p x) as [| |_ _ _|_ _ Hne|_ Hq'];
      [done|congruence| |done|congruence].
    destruct (IH {| placed := placed p ++ [x];
                    registry := <[layerKey x := explicitLayer x]> (registry p);
                    count := count p; pending := [] |})
      as (reg & Hfold & Hsome & Hsame & Hlayers); [done|done|done| | |].
    { intros s [Hs| ->]%is_Some_insert; cbn [placed];
        rewrite layerKeys_snoc, Hd, elem_of_app, list_elem_of_singleton; auto. }
    { cbn [placed]. rewrite <- app_assoc. cbn [app].
      rewrite layerKeys_app, layerKeys_cons, Hd.
      apply NoDup_app. repeat split; try done. by apply NoDup_cons. }
    exists reg. cbn [placed registry count] in *.
    rewrite layerKeys_cons, Hd. cbn [app]. split; [|split; [|split]].
    + by rewrite Hfold, <- app_assoc.
    + intros s. rewrite Hsome, is_Some_insert, elem_of_cons. tauto.
    + intros s [Hne Hs]%not_elem_of_cons.
      rewrite Hsame, lookup_insert_ne; done.
    + intros c [->|Hc]%elem_of_cons Hcd; [|by apply Hlayers].
      rewrite Hsame by done. apply lookup_insert_eq.
  - destruct (pass_visit_visited id doc p x) as [|_ _| | |];
      [done| |congruence..].
    destruct (IH {| placed := placed p ++ [x]; registry := registry p;
                    count := count p; pending := pending p |})
      as (reg & Hfold & Hsome & Hsame & Hlayers); [done|done|done| | |].
    { intros s Hs%Hkeys. cbn [placed]. rewrite layerKeys_snoc, elem_of_app. auto. }
    { cbn [placed]. rewrite <- app_assoc. cbn [app].
      by rewrite layerKeys_app, layerKeys_cons, Hd. }
    exists reg. cbn [placed registry count app] in *.
    rewrite layerKeys_cons, Hd. cbn [app]. split; [|split; [|split]].
    + by rewrite Hfold, <- app_assoc.
    + done.
    + done.
    + intros c [->|Hc]%elem_of_cons Hcd; [congruence|by apply Hlayers].
Qed.
End SecondPass.

(** C7, as stated, fails.  The group carries the id of the wrapper that
    the first pass appends for the rect, so that the tree left by the
    first pass holds two groups with one id; the second pass moves the
    wrapper of the first pass into a new wrapper.  Besides, the element
    "defs" remains a child of the root and is no layer in either
    pass. *)
Lemma second_pass_moves_stray_wrapper :
  ∃ w1 w2, init strayRoot sampleWorld = Return tt w1
    ∧ init (Presentation.svgRoot (this w1)) w1 = Return tt w2
    ∧ Presentation.svgRoot (this w1)
      = [stray_defs; stray_group; wrapper 1 10 0 [stray_rect]]
    ∧ Presentation.svgRoot (this w2)
      = [stray_defs; stray_group; wrapper 2 11 0 [wrapper 1 10 0 [stray_rect]]]
    ∧ Presentation.svgRoot (this w2) ≠ Presentation.svgRoot (this w1)
    ∧ (∀ key L, Presentation.layers (this w2) !! key = Some L →
                Layer.svgNode L ≠ stray_defs).
Proof.
  eexists. eexists. split; [vm_compute; reflexivity|].
  split; [vm_compute; reflexivity|].
  split; [reflexivity|]. split; [reflexivity|]. split; [discriminate|].
  intros key L HL.
  assert (uid (Layer.svgNode L) ≠ 0%nat) as Huid;
    [|intros Heq; by rewrite Heq in Huid].
  revert key L HL. apply (bool_decide_unpack (map_Forall _ _)).
  vm_compute. exact I.
Qed.

(** C7 (amended): provided no group child of the root carries the id of
    a wrapper of the presentation, running [init] again, in any later
    world, on the tree left by [init] changes nothing in the tree: no
    node is moved or removed and no wrapper is placed.  Every drawable
    child of the root is registered as a layer of its own, and the keys
    of the layer map are those of the first pass; the children that are
    not drawable stay where they are, outside the layers. *)
Theorem second_pass_changes_nothing (w : World) (svgRoot : list Node) :
  well_formed w svgRoot →
  wrapper_free (Object_id w) svgRoot →
  ∃ w1, init svgRoot w = Return tt w1
    ∧ ∀ w2, (document w1 ≤ document w2)%nat →
        ∃ w2', init (Presentation.svgRoot (this w1)) w2 = Return tt w2'
          ∧ Presentation.svgRoot (this w2') = Presentation.svgRoot (this w1)
          ∧ document w2' = S (document w2)
          ∧ dom (Presentation.layers (this w2')) = dom (Presentation.layers (this w1))
          ∧ (∀ c, c ∈ Presentation.svgRoot (this w1) → drawable c = true →
                  Presentation.layers (this w2') !! layerKey c
                  = Some (explicitLayer c)).
Proof.
  intros Hwf Hfree. eexists. split; [by apply init_run|].
  cbn [world_of this Presentation.svgRoot Presentation.layers document].
  set (id := Object_id w). set (doc := document w). set (p := pass_of w svgRoot).
  intros w2 Hlater.
  destruct (tidy_pass_tree id doc p) as [n Htidy].
  { apply tidy_foldl; [apply Hwf|done|apply tidy_start]. }
  destruct (distinct_uids_pass_tree id doc p) as [Hnodup Hbound].
  { apply distinct_uids_foldl. split; [apply Hwf|]. split; [|apply Hwf].
    by intros c Hc%elem_of_nil. }
  destruct Htidy as [Helem Hgroup Hkeys _ Hdistinct _ _].
  destruct (pass_over_layers (Object_id w2) (document w2) (pass_tree id doc p)
              pass_start) as (reg & Hfold & Hsome & _ & Hlayers);
    [done|done|done| |done|].
  { intros s [L HL]. cbn [pass_start registry] in HL. by rewrite lookup_empty in HL. }
  eexists. split.
  { apply init_run. split; [done|]. intros c Hc%Hbound. lia. }
  unfold pass_of. rewrite Hfold.
  cbn [world_of this Presentation.svgRoot Presentation.layers document].
  unfold pass_tree at 1, pass_layers at 1 2.
  cbn [pending placed registry count app].
  split; [done|]. split; [done|]. split; [|done].
  apply set_eq. intros s. rewrite !elem_of_dom, Hsome, Hkeys.
  cbn [pass_start registry]. rewrite lookup_empty. split; [|by right].
  by intros [[]|].
Qed.

Lemma second_pass_changes_nothing_witness :
  ∃ w1, init sampleRoot sampleWorld = Return tt w1
    ∧ ∀ w2, (document w1 ≤ document w2)%nat →
        ∃ w2', init (Presentation.svgRoot (this w1)) w2 = Return tt w2'
          ∧ Presentation.svgRoot (this w2') = Presentation.svgRoot (this w1)
          ∧ document w2' = S (document w2)
          ∧ dom (Presentation.layers (this w2')) = dom (Presentation.layers (this w1))
          ∧ (∀ c, c ∈ Presentation.svgRoot (this w1) → drawable c = true →
                  Presentation.layers (this w2') !! layerKey c
                  = Some (explicitLayer c)).
Proof.
  apply (second_pass_changes_nothing sampleWorld sampleRoot).
  - apply well_formed_sample.
  - intros x Hx Hg k. apply list_elem_of_In in Hx. simpl in Hx.
    destruct (wrapperId_head (Object_id sampleWorld) k) as [s ->].
    repeat (destruct Hx as [<-|Hx]; [discriminate|]). done.
Defined.

(** ** Runs and wrappers *)

Section Runs.
Variables (id doc : nat).
Implicit Types (l tree run : list Node) (x c : Node) (p : Pass)
  (ids : list string) (segs : list Segment).

Local Notation "'visit'" := (pass_visit id doc).

Lemma qualifies_new_layer (reg : gmap string Layer.t) ids x :
  known id reg ids →
  (nodeName x = "g" → ∀ k, getAttribute x "id" ≠ Some (wrapperId id k)) →
  qualifies (nodeName x) x reg = new_layer ids x.
Proof.
  intros Hknown Hfree. unfold qualifies, new_layer, js_in. fold (layerKey x).
  destruct (String.eqb_spec (nodeName x) "g") as [Hg|]; [|done].
  destruct (truthy (getAttribute x "id")) eqn:Hid; [|done].
  cbn [andb]. do 2 f_equal. apply bool_decide_ext, Hknown.
  intros k Heq. apply (Hfree Hg k). by rewrite truthy_layerKey, Heq.
Qed.

Lemma known_insert (reg : gmap string Layer.t) ids (key : string) (L : Layer.t) :
  known id reg ids → known id (<[key := L]> reg) (key :: ids).
Proof.
  intros Hknown s Hs. rewrite is_Some_insert, elem_of_cons, (Hknown s Hs). tauto.
Qed.

Lemma known_wrapper (reg : gmap string Layer.t) ids (k : nat) (L : Layer.t) :
  known id reg ids → known id (<[wrapperId id k := L]> reg) ids.
Proof.
  intros Hknown s Hs. rewrite is_Some_insert, (Hknown s Hs). split; [|tauto].
  intros [?| ->]; [done|]. by destruct (Hs k).
Qed.

Lemma filter_drawable_snoc tree x :
  List.filter drawable (tree ++ [x])
  = List.filter drawable tree ++ (if drawable x then [x] else []).
Proof. rewrite List.filter_app. cbn. by destruct (drawable x). Qed.

(** The drawable children of the root when the pass ends are the
    rendering of the segments. *)
Lemma render_foldl l : ∀ p ids,
  known id (registry p) ids → wrapper_free id l →
  List.filter drawable (pass_tree id doc (foldl visit p l))
  = List.filter drawable (placed p)
    ++ render id doc (count p) (segments ids (pending p) l).
Proof.
  induction l as [|x l IH]; intros p ids Hknown Hfree.
  { cbn [foldl segments]. unfold pass_tree, close.
    destruct (pending p) as [|y ys] eqn:Hpending; [by rewrite app_nil_r|].
    rewrite filter_drawable_snoc. unfold currentWrapper. by rewrite Hpending. }
  assert (wrapper_free id l) as Hfree'
    by (intros y Hy; apply Hfree; by right).
  assert (qualifies (nodeName x) x (registry p) = new_layer ids x) as Hnew.
  { apply qualifies_new_layer; [done|]. apply Hfree. left. }
  cbn [foldl segments].
  destruct (pass_visit_visited id doc p x)
    as [Htag|Htag Hd|Hd Hq Hpending|Hd Hq Hpending|Hd Hq].
  - assert (drawable x = false) as -> by by destruct x. by apply IH.
  - rewrite Hd, (IH _ ids); [|done|done]. cbn [placed count pending].
    by rewrite filter_drawable_snoc, Hd, app_nil_r.
  - rewrite Hd, <- Hnew, Hq, Hpending. cbn [close app].
    rewrite (IH _ (layerKey x :: ids)); [|by apply known_insert|done].
    cbn [placed count pending render].
    by rewrite filter_drawable_snoc, Hd, <- app_assoc.
  - rewrite Hd, <- Hnew, Hq.
    rewrite (IH _ (layerKey x :: ids)); [|by apply known_insert, known_wrapper|done].
    cbn [placed count pending].
    destruct (pending p) as [|y ys] eqn:Hy; [done|]. cbn [close app render].
    change [currentWrapper id doc p; x] with ([currentWrapper id doc p] ++ [x]).
    rewrite app_assoc, !filter_drawable_snoc, Hd.
    change (drawable (currentWrapper id doc p)) with true. cbn match.
    unfold currentWrapper. rewrite Hy. by rewrite <- !app_assoc.
  - rewrite Hd, <- Hnew, Hq. by rewrite (IH _ ids).
Qed.
Lemma render_runs segs : ∀ k j r,
  runs segs !! j = Some r →
  wrapper id (k + j + doc) (k + j) r ∈ render id doc k segs.
Proof.
  induction segs as [|[x|r'] segs IH]; intros k j r Hj; cbn in *.
  - done.
  - right. by apply IH.
  - destruct j as [|j]; cbn in Hj.
    + injection Hj as ->. rewrite Nat.add_0_r. left.
    + right. replace (k + S j)%nat with (S k + j)%nat by lia. by apply IH.
Qed.

Lemma render_created segs : ∀ k c,
  c ∈ render id doc k segs → created doc c = true →
  (∀ x, ExplicitLayer x ∈ segs → created doc x = false) →
  ∃ j r, runs segs !! j = Some r ∧ c = wrapper id (k + j + doc) (k + j) r.
Proof.
  induction segs as [|[x|r'] segs IH]; intros k c Hc Hnew Hold; cbn in *.
  - by apply elem_of_nil in Hc.
  - apply elem_of_cons in Hc as [->|Hc].
    + rewrite Hold in Hnew; [done|left].
    + apply (IH k c); [done|done|]. intros y Hy. apply Hold. by right.
  - apply elem_of_cons in Hc as [->|Hc].
    + exists 0%nat, r'. by rewrite Nat.add_0_r.
    + destruct (IH (S k) c) as (j & r & Hj & ->); [done|done| |].
      { intros y Hy. apply Hold. by right. }
      exists (S j), r. split; [done|].
      by replace (k + S j)%nat with (S k + j)%nat by lia.
Qed.

Lemma segments_explicit l : ∀ ids run x,
  ExplicitLayer x ∈ segments ids run l → x ∈ l.
Proof.
  assert (∀ run x, ExplicitLayer x ∉ close run) as Hclose.
  { intros [|y ys] x; cbn; [by intros ?%elem_of_nil|].
    by intros [=]%list_elem_of_singleton. }
  induction l as [|y l IH]; intros ids run x; cbn [segments].
  - intros Hx. by apply Hclose in Hx.
  - destruct (drawable y); [destruct (new_layer ids y)|].
    + rewrite elem_of_app, elem_of_cons.
      intros [Hx%Hclose|[[= ->]|Hx%IH]]; [done|left|by right].
    + intros Hx%IH. by right.
    + intros Hx%IH. by right.
Qed.

Lemma elem_of_filter_drawable tree c :
  c ∈ List.filter drawable tree ↔ c ∈ tree ∧ drawable c = true.
Proof. by rewrite !list_elem_of_In, List.filter_In. Qed.
End Runs.

(** C5, as stated, fails.  The rect is a run of its own and is held by
    the first wrapper, but the group that follows carries the id of that
    wrapper: its registration replaces the auto layer, and the map is
    left without any auto layer. *)
Lemma clash_wrapper_not_registered :
  ∃ w', init clashRoot sampleWorld = Return tt w'
    ∧ segments [] [] clashRoot = [Run [clash_rect]; ExplicitLayer clash_group]
    ∧ Presentation.svgRoot (this w') = [wrapper 1 10 0 [clash_rect]; clash_group]
    ∧ Presentation.layers (this w') !! wrapperId 1 0
      = Some (explicitLayer clash_group)
    ∧ ¬ runs_collapsed sampleWorld clashRoot w'.
Proof.
  eexists. split; [vm_compute; reflexivity|].
  split; [reflexivity|]. split; [reflexivity|].
  assert (∀ w' : World,
            Presentation.layers (this w') !! wrapperId 1 0
            = Some (explicitLayer clash_group) →
            ¬ runs_collapsed sampleWorld clashRoot w') as Hno.
  { intros w' Hentry (_ & Hruns & _).
    destruct (Hruns 0%nat [clash_rect] eq_refl) as (L & HL & Hauto & _).
    change (Object_id sampleWorld) with 1%nat in HL.
    rewrite Hentry in HL. injection HL as <-. discriminate. }
  split; [vm_compute; reflexivity|]. apply Hno. vm_compute. reflexivity.
Qed.

(** C5 (amended): provided no group child of the root carries the id of
    a wrapper of the presentation, the drawable children of the root
    after [init] are, in order, the new groups and one wrapper for each
    maximal run of the other drawable children, holding exactly the
    nodes of that run; each of these wrappers is bound to an auto layer
    under its own id, and the map has no other auto layer. *)
Theorem runs_become_single_wrappers (w : World) (svgRoot : list Node) :
  well_formed w svgRoot →
  wrapper_free (Object_id w) svgRoot →
  ∃ w', init svgRoot w = Return tt w' ∧ runs_collapsed w svgRoot w'.
Proof.
  intros Hwf Hfree. eexists. split; [by apply init_run|].
  unfold runs_collapsed.
  cbn [world_of this Presentation.svgRoot Presentation.layers].
  set (id := Object_id w). set (doc := document w). set (p := pass_of w svgRoot).
  assert (List.filter drawable (pass_tree id doc p)
          = render id doc 0 (segments [] [] svgRoot)) as Htree.
  { apply (render_foldl id doc svgRoot pass_start []); [|done].
    intros s _. cbn [pass_start registry]. rewrite lookup_empty, elem_of_nil.
    split; [by intros []|done]. }
  destruct (tidy_pass_tree id doc p) as [n [_ _ _ _ _ Hcreated Hauto]].
  { apply tidy_foldl; [apply Hwf|done|apply tidy_start]. }
  split; [done|split].
  - intros j r Hj.
    assert (wrapper id (j + doc) j r ∈ List.filter drawable (pass_tree id doc p))
      as [Hin _]%elem_of_filter_drawable.
    { rewrite Htree. by apply (render_runs id doc _ 0 j r). }
    destruct (Hcreated _ Hin) as (_ & L & HL & ? & ?); [|by exists L].
    unfold created. cbn. apply Nat.leb_le. lia.
  - intros key L HL HLauto.
    destruct (Hauto key L HL HLauto) as (Hin & Hnew & Hkey).
    destruct (Hcreated _ Hin Hnew) as (Hd & _).
    destruct (render_created id doc (segments [] [] svgRoot) 0 (Layer.svgNode L))
      as (j & r & Hj & Hnode); [| done | |].
    + rewrite <- Htree. by apply elem_of_filter_drawable.
    + intros x Hx%segments_explicit. apply created_old. by apply Hwf.
    + exists j, r. split; [done|]. by rewrite <- Hkey, Hnode.
Qed.

Lemma runs_become_single_wrappers_witness :
  ∃ w', init sampleRoot sampleWorld = Return tt w'
        ∧ runs_collapsed sampleWorld sampleRoot w'.
Proof.
  apply (runs_become_single_wrappers sampleWorld sampleRoot).
  - apply well_formed_sample.
  - intros x Hx Hg k. apply list_elem_of_In in Hx. simpl in Hx.
    destruct (wrapperId_head (Object_id sampleWorld) k) as [s ->].
    repeat (destruct Hx as [<-|Hx]; [discriminate|]). done.
Defined.

(** * Further properties *)

(** ** Selecting one frame or one layer *)

Lemma alter_set_selected_id (l : list Frame.t) (i : nat) (f : Frame.t) value :
  l !! i = Some f → Frame.selected f = value →
  alter (Frame.set_selected value) i l = l.
Proof.
  intros Hi Hsel. apply list_eq. intros j.
  destruct (decide (i = j)) as [<-|Hne].
  - rewrite list_lookup_alter_eq, Hi. cbn. f_equal. destruct f. cbn in *. by subst.
  - by rewrite list_lookup_alter_ne.
Qed.

(** X1: on an index inside the frame sequence, [selectFrame] and
    [deselectFrame] return normally, set the flag of that frame and of
    no other, leave every other part of the world as it is, and fire
    their event once; the event is fired also when the flag already had
    the value, in which case the frames do not change. *)
Theorem frame_selection_sets_flag_and_fires (w : World) (i : nat) (f : Frame.t) :
  Presentation.frames (this w) !! i = Some f →
  selectFrame (Z.of_nat i) w
  = Return tt
      (with_frames w (Object_id w)
         (<[i := Frame.set_selected true f]> (Presentation.frames (this w)))
         (fired w ++ [selectFrame_event (Z.of_nat i)]))
  ∧ deselectFrame (Z.of_nat i) w
    = Return tt
        (with_frames w (Object_id w)
           (<[i := Frame.set_selected false f]> (Presentation.frames (this w)))
           (fired w ++ [deselectFrame_event (Z.of_nat i)]))
  ∧ (Frame.selected f = true →
     <[i := Frame.set_selected true f]> (Presentation.frames (this w))
     = Presentation.frames (this w))
  ∧ (Frame.selected f = false →
     <[i := Frame.set_selected false f]> (Presentation.frames (this w))
     = Presentation.frames (this w)).
Proof.
  intros Hi.
  assert (∀ value,
            alter (Frame.set_selected value) i (Presentation.frames (this w))
            = <[i := Frame.set_selected value f]> (Presentation.frames (this w)))
    as Halter.
  { intros value. apply list_eq. intros j. destruct (decide (i = j)) as [<-|Hne].
    - rewrite list_lookup_alter_eq, Hi. symmetry. apply list_lookup_insert_eq.
      by eapply lookup_lt_Some.
    - by rewrite list_lookup_alter_ne, list_lookup_insert_ne. }
  unfold selectFrame, deselectFrame.
  rewrite !run_bind, !(frame_set_selected_at w i f) by done.
  unfold fire. cbn [with_frames Object_id document this fired].
  rewrite !Halter. repeat split.
  - intros Hsel. rewrite <- Halter. by apply (alter_set_selected_id _ _ f).
  - intros Hsel. rewrite <- Halter. by apply (alter_set_selected_id _ _ f).
Qed.

Lemma frame_selection_sets_flag_and_fires_witness :
  selectFrame (Z.of_nat 0) oneFrameWorld
  = Return tt
      (with_frames oneFrameWorld (Object_id oneFrameWorld)
         (<[0%nat := Frame.set_selected true frame1]>
            (Presentation.frames (this oneFrameWorld)))
         (fired oneFrameWorld ++ [selectFrame_event (Z.of_nat 0)]))
  ∧ deselectFrame (Z.of_nat 0) oneFrameWorld
    = Return tt
        (with_frames oneFrameWorld (Object_id oneFrameWorld)
           (<[0%nat := Frame.set_selected false frame1]>
              (Presentation.frames (this oneFrameWorld)))
           (fired oneFrameWorld ++ [deselectFrame_event (Z.of_nat 0)]))
  ∧ (Frame.selected frame1 = true →
     <[0%nat := Frame.set_selected true frame1]>
       (Presentation.frames (this oneFrameWorld))
     = Presentation.frames (this oneFrameWorld))
  ∧ (Frame.selected frame1 = false →
     <[0%nat := Frame.set_selected false frame1]>
       (Presentation.frames (this oneFrameWorld))
     = Presentation.frames (this oneFrameWorld)).
Proof.
  apply (frame_selection_sets_flag_and_fires oneFrameWorld 0 frame1).
  reflexivity.
Defined.

Lemma layer_set_selected_at (w : World) (layerId : string) (L : Layer.t) value :
  Presentation.layers (this w) !! layerId = Some L →
  layer_set_selected layerId value w
  = Return tt
      (with_layers w (<[layerId := Layer.set_selected value L]>
                        (Presentation.layers (this w))) (fired w)).
Proof.
  intros HL. unfold layer_set_selected. rewrite run_bind, run_gets, HL.
  reflexivity.
Qed.

(** X2: on a key of the layer map, [selectLayer] and [deselectLayer]
    return normally, set the flag [selected] of that layer, keep its
    other fields and the other layers, leave the frames and the tree as
    they are, and fire their event once, also when the flag already had
    the value. *)
Theorem layer_selection_sets_flag_and_fires (w : World) (layerId : string)
    (L : Layer.t) :
  Presentation.layers (this w) !! layerId = Some L →
  selectLayer layerId w
  = Return tt
      (with_layers w (<[layerId := Layer.set_selected true L]>
                        (Presentation.layers (this w)))
         (fired w ++ [selectLayer_event layerId]))
  ∧ deselectLayer layerId w
    = Return tt
        (with_layers w (<[layerId := Layer.set_selected false L]>
                          (Presentation.layers (this w)))
           (fired w ++ [deselectLayer_event layerId]))
  ∧ (Layer.selected L = true →
     <[layerId := Layer.set_selected true L]> (Presentation.layers (this w))
     = Presentation.layers (this w))
  ∧ (Layer.selected L = false →
     <[layerId := Layer.set_selected false L]> (Presentation.layers (this w))
     = Presentation.layers (this w)).
Proof.
  intros HL. unfold selectLayer, deselectLayer.
  rewrite !run_bind, !(layer_set_selected_at w layerId L) by done.
  repeat split.
  - intros Hsel. apply insert_id. rewrite HL. f_equal.
    destruct L. cbn in *. by subst.
  - intros Hsel. apply insert_id. rewrite HL. f_equal.
    destruct L. cbn in *. by subst.
Qed.

Lemma layer_selection_sets_flag_and_fires_witness :
  selectLayer "L1" layerWorld
  = Return tt
      (with_layers layerWorld
         (<["L1" := Layer.set_selected true
                      (explicitLayer (Element 3 SVG_NS "g" [("id", "L1")] []))]>
            (Presentation.layers (this layerWorld)))
         (fired layerWorld ++ [selectLayer_event "L1"]))
  ∧ deselectLayer "L1" layerWorld
    = Return tt
        (with_layers layerWorld
           (<["L1" := Layer.set_selected false
                        (explicitLayer (Element 3 SVG_NS "g" [("id", "L1")] []))]>
              (Presentation.layers (this layerWorld)))
           (fired layerWorld ++ [deselectLayer_event "L1"]))
  ∧ (Layer.selected (explicitLayer (Element 3 SVG_NS "g" [("id", "L1")] [])) = true →
     <["L1" := Layer.set_selected true
                 (explicitLayer (Element 3 SVG_NS "g" [("id", "L1")] []))]>
       (Presentation.layers (this layerWorld))
     = Presentation.layers (this layerWorld))
  ∧ (Layer.selected (explicitLayer (Element 3 SVG_NS "g" [("id", "L1")] [])) = false →
     <["L1" := Layer.set_selected false
                 (explicitLayer (Element 3 SVG_NS "g" [("id", "L1")] []))]>
       (Presentation.layers (this layerWorld))
     = Presentation.layers (this layerWorld)).
Proof.
  apply (layer_selection_sets_flag_and_fires layerWorld "L1").
  reflexivity.
Defined.

(** ** Selecting all frames *)

Lemma forFrames_select (l2 : list Frame.t) : ∀ (l1 : list Frame.t) w next events,
  forFrames (length l2) (Z.of_nat (length l1)) selectFrame
    (with_frames w next (l1 ++ l2) events)
  = Return tt
      (with_frames w next (l1 ++ map (Frame.set_selected true) l2)
         (events ++ map (λ i, selectFrame_event (Z.of_nat i))
                      (seq (length l1) (length l2)))).
Proof.
  induction l2 as [|f l2 IH]; intros l1 w next events.
  - simpl. by rewrite !app_nil_r.
  - cbn [forFrames length]. rewrite run_bind. unfold selectFrame at 1.
    rewrite run_bind.
    rewrite (frame_set_selected_with_frames _ _ _ _ _ f)
      by apply list_lookup_middle, eq_refl.
    rewrite fire_with_frames.
    replace (alter (Frame.set_selected true) (length l1) (l1 ++ f :: l2))
      with ((l1 ++ [Frame.set_selected true f]) ++ l2).
    2:{ rewrite <- (Nat.add_0_r (length l1)) at 1. rewrite alter_app_r.
        simpl. by rewrite <- app_assoc. }
    replace (Z.of_nat (length l1) + 1)%Z
      with (Z.of_nat (length (l1 ++ [Frame.set_selected true f])))
      by (rewrite length_app; simpl; lia).
    rewrite IH. do 2 f_equal.
    + by rewrite <- app_assoc.
    + rewrite <- app_assoc. simpl. rewrite length_app. simpl.
      by rewrite Nat.add_1_r.
Qed.

(** X3: [selectAllFrames] and [deselectAllFrames] never fail; they set
    the flag of every frame, keep the sequence and the other fields of
    the frames, and fire one event per frame, by increasing index,
    whatever the flags were before. *)
Theorem all_frames_selection (w : World) :
  selectAllFrames w
  = Return tt
      (with_frames w (Object_id w)
         (map (Frame.set_selected true) (Presentation.frames (this w)))
         (fired w ++ selectAll_events (length (Presentation.frames (this w)))))
  ∧ deselectAllFrames w
    = Return tt
        (with_frames w (Object_id w)
           (map (Frame.set_selected false) (Presentation.frames (this w)))
           (fired w ++ deselectAll_events (length (Presentation.frames (this w)))))
  ∧ length (selectAll_events (length (Presentation.frames (this w))))
    = length (Presentation.frames (this w))
  ∧ length (deselectAll_events (length (Presentation.frames (this w))))
    = length (Presentation.frames (this w)).
Proof.
  split; [|split; [apply deselectAllFrames_run|]].
  - unfold selectAllFrames. rewrite run_bind, run_gets.
    rewrite <- (with_frames_id w) at 2.
    apply (forFrames_select (Presentation.frames (this w)) [] w).
  - unfold selectAll_events, deselectAll_events.
    by rewrite !length_map, !length_seq.
Qed.

(** ** Selecting all layers *)

Section AllLayers.
Variables (value : bool) (event : string → Event).
Implicit Types (enumeration : list string) (layers : gmap string Layer.t)
  (w : World).

Local Notation "'mark'" := (Layer.set_selected value).
Local Notation "'body'" :=
  (λ layerId, layer_set_selected layerId value;; fire (event layerId)).

Lemma marked_lookup enumeration : ∀ layers key,
  foldl (λ m s, alter mark s m) layers enumeration !! key
  = if decide (key ∈ enumeration) then mark <$> layers !! key else layers !! key.
Proof.
  induction enumeration as [|s enumeration IH]; intros layers key; cbn [foldl].
  { case_decide as Hin; [by apply elem_of_nil in Hin|done]. }
  rewrite IH. destruct (decide (s = key)) as [->|Hne].
  - rewrite lookup_alter_eq. rewrite (decide_True _ _ (list_elem_of_here _ _)).
    case_decide; [|done]. by destruct (layers !! key).
  - rewrite lookup_alter_ne by done.
    destruct (decide (key ∈ enumeration)) as [Hin|Hnin].
    + rewrite decide_True; [done|by right].
    + rewrite decide_False; [done|]. by intros [->|?]%elem_of_cons.
Qed.

Lemma forEach_layer_selection enumeration : ∀ w layers events,
  (∀ key, key ∈ enumeration → is_Some (layers !! key)) →
  forEach enumeration body (with_layers w layers events)
  = Return tt
      (with_layers w (foldl (λ m s, alter mark s m) layers enumeration)
         (events ++ map event enumeration)).
Proof.
  induction enumeration as [|s enumeration IH]; intros w layers events Hkeys.
  { cbn. by rewrite app_nil_r. }
  destruct (Hkeys s) as [L HL]; [left|].
  cbn [forEach foldl map]. rewrite !run_bind.
  rewrite (layer_set_selected_at _ s L) by done.
  replace (<[s := mark L]> (Presentation.layers (this (with_layers w layers events))))
    with (alter mark s layers).
  2:{ apply map_eq. intros key. cbn. destruct (decide (s = key)) as [<-|Hne].
      - by rewrite lookup_alter_eq, lookup_insert_eq, HL.
      - by rewrite lookup_alter_ne, lookup_insert_ne. }
  change (fire (event s) (with_layers ?w' ?m ?ev))
    with (Return tt (with_layers w' m (ev ++ [event s]))).
  cbn match. change (with_layers (with_layers w layers events) ?m ?ev)
    with (with_layers w m ev).
  rewrite IH.
  - by rewrite <- app_assoc.
  - intros key Hkey. destruct (decide (s = key)) as [<-|Hne].
    + by rewrite lookup_alter_eq, HL.
    + rewrite lookup_alter_ne by done. apply Hkeys. by right.
Qed.

Lemma all_layers_marked w enumeration :
  enumerates enumeration (Presentation.layers (this w)) →
  forEach enumeration body w
  = Return tt
      (with_layers w (mark <$> Presentation.layers (this w))
         (fired w ++ map event enumeration))
  ∧ length (map event enumeration) = size (Presentation.layers (this w)).
Proof.
  intros [Hnodup Hkeys]. split.
  - replace w with (with_layers w (Presentation.layers (this w)) (fired w)) at 1
      by (by destruct w as [? ? [] ?]).
    rewrite forEach_layer_selection by (intros key; apply Hkeys).
    do 2 f_equal. apply map_eq. intros key.
    rewrite marked_lookup, lookup_fmap. case_decide as Hin; [done|].
    destruct (Presentation.layers (this w) !! key) eqn:Hkey; [|done].
    destruct Hin. apply Hkeys. eauto.
  - rewrite length_map, <- size_dom.
    unfold size, set_size. cbn. apply Permutation_length, NoDup_Permutation.
    + done.
    + apply NoDup_elements.
    + intros key. by rewrite elem_of_elements, elem_of_dom.
Qed.
End AllLayers.

(** X4: when the loop over the keys of the layer map visits each key
    once, [selectAllLayers] and [deselectAllLayers] never fail; they set
    the flag of every layer, keep the keys and the other fields, and
    fire one event per layer, in the order of the visit: N events for N
    layers, whatever the flags were before. *)
Theorem all_layers_selection (w : World) (enumeration : list string) :
  enumerates enumeration (Presentation.layers (this w)) →
  selectAllLayers enumeration w
  = Return tt
      (with_layers w (Layer.set_selected true <$> Presentation.layers (this w))
         (fired w ++ map selectLayer_event enumeration))
  ∧ deselectAllLayers enumeration w
    = Return tt
        (with_layers w (Layer.set_selected false <$> Presentation.layers (this w))
           (fired w ++ map deselectLayer_event enumeration))
  ∧ length (map selectLayer_event enumeration) = size (Presentation.layers (this w))
  ∧ length (map deselectLayer_event enumeration)
    = size (Presentation.layers (this w)).
Proof.
  intros Henum.
  destruct (all_layers_marked true selectLayer_event w enumeration Henum)
    as [Hselect Hn].
  destruct (all_layers_marked false deselectLayer_event w enumeration Henum)
    as [Hdeselect Hm].
  done.
Qed.

Lemma all_layers_selection_witness :
  selectAllLayers ["L1"] layerWorld
  = Return tt
      (with_layers layerWorld
         (Layer.set_selected true <$> Presentation.layers (this layerWorld))
         (fired layerWorld ++ map selectLayer_event ["L1"]))
  ∧ deselectAllLayers ["L1"] layerWorld
    = Return tt
        (with_layers layerWorld
           (Layer.set_selected false <$> Presentation.layers (this layerWorld))
           (fired layerWorld ++ map deselectLayer_event ["L1"]))
  ∧ length (map selectLayer_event ["L1"])
    = size (Presentation.layers (this layerWorld))
  ∧ length (map deselectLayer_event ["L1"])
    = size (Presentation.layers (this layerWorld)).
Proof.
  apply (all_layers_selection layerWorld ["L1"]).
  split; [apply NoDup_singleton|].
  intros key. rewrite list_elem_of_singleton. cbn. unfold sampleLayers. split.
  - intros ->. by rewrite lookup_insert_eq.
  - intros [L HL]. apply lookup_insert_Some in HL as [[? _]|[_ HL]]; [done|].
    by rewrite lookup_empty in HL.
Defined.

(** ** Where [addFrame] puts the frame *)

Section AddFrameCases.
Implicit Types (w : World) (l : list Frame.t) (frame f : Frame.t).

Lemma highest_selected_lt l k : highest_selected l k → (k < length l)%nat.
Proof. intros [(f & Hf & _) _]. by eapply lookup_lt_Some. Qed.

Lemma addFrame_scan_highest w next l events frame k :
  highest_selected l k →
  ∀ n, (k < n ≤ length l)%nat →
  addFrame_scan frame n (with_frames w next l events)
  = Return (Z.of_nat k) (with_frames w next (splice l (k + 1) frame) events).
Proof.
  intros [(fk & Hfk & Hsel) Habove] n.
  induction n as [|i IH]; intros Hn; [lia|].
  cbn [addFrame_scan]. rewrite run_bind, run_gets.
  change (Presentation.frames (this (with_frames w next l events))) with l.
  destruct (l !! i) as [f|] eqn:Hi.
  2:{ apply lookup_ge_None in Hi. lia. }
  destruct (decide (i = k)) as [->|Hne].
  - assert (f = fk) as -> by congruence. rewrite Hsel. reflexivity.
  - rewrite (Habove i f) by (done || lia). apply IH. lia.
Qed.

Lemma addFrame_scan_none w next l events frame :
  none_selected l →
  ∀ n, (n ≤ length l)%nat →
  addFrame_scan frame n (with_frames w next l events)
  = Return (-1)%Z (with_frames w next l events).
Proof.
  intros Hnone n. induction n as [|i IH]; intros Hn; [done|].
  cbn [addFrame_scan]. rewrite run_bind, run_gets.
  change (Presentation.frames (this (with_frames w next l events))) with l.
  destruct (l !! i) as [f|] eqn:Hi.
  2:{ apply lookup_ge_None in Hi. lia. }
  rewrite (Hnone i f Hi). apply IH. lia.
Qed.

Lemma splice_end l frame : splice l (length l) frame = l ++ [frame].
Proof. unfold splice. by rewrite firstn_all, drop_all. Qed.

Lemma addFrame_run_highest w state k :
  highest_selected (Presentation.frames (this w)) k →
  addFrame state w = addFrame_result w state k (k + 1).
Proof.
  intros Hsel. pose proof (highest_selected_lt _ _ Hsel) as Hk.
  unfold addFrame, addFrame_result, addFrame_events.
  rewrite run_bind, run_gets, run_bind. unfold Frame_init.
  rewrite run_bind, Object_init_run, run_mret.
  fold (newFrame w state). set (frame := newFrame w state).
  rewrite run_bind, run_gets.
  change (Presentation.frames (this (with_frames w _ ?l _))) with l.
  rewrite run_bind, (addFrame_scan_highest _ _ _ _ _ k Hsel) by lia.
  rewrite run_bind.
  replace (Z.of_nat k =? -1)%Z with false by (symmetry; apply Z.eqb_neq; lia).
  rewrite run_mret. cbn beta iota.
  rewrite run_bind, fire_with_frames.
  rewrite run_bind, deselectAllFrames_with_frames.
  rewrite run_bind, selectFrame_with_frames
    by (rewrite length_map, length_splice; lia).
  rewrite run_bind, run_gets, run_mret.
  change (Presentation.frames (this (with_frames w _ ?l _))) with l.
  replace (Z.to_nat (Z.of_nat k + 1)) with (k + 1)%nat by lia.
  rewrite stored_frame by lia.
  rewrite length_splice. by rewrite <- !app_assoc.
Qed.

Lemma addFrame_run_none w state :
  none_selected (Presentation.frames (this w)) →
  addFrame state w
  = addFrame_result w state (length (Presentation.frames (this w)))
      (length (Presentation.frames (this w))).
Proof.
  intros Hnone. unfold addFrame, addFrame_result, addFrame_events.
  rewrite run_bind, run_gets, run_bind. unfold Frame_init.
  rewrite run_bind, Object_init_run, run_mret.
  fold (newFrame w state). set (frame := newFrame w state).
  set (l := Presentation.frames (this w)) in *.
  rewrite run_bind, run_gets.
  change (Presentation.frames (this (with_frames w _ ?l' _))) with l'.
  rewrite run_bind, (addFrame_scan_none _ _ _ _ _ Hnone) by lia.
  rewrite run_bind. change (-1 =? -1)%Z with true. cbn match.
  rewrite run_bind, run_gets, run_bind, run_modify, run_mret.
  change (Presentation.frames (this (with_frames w _ ?l' _))) with l'.
  change (set_this (Presentation.set_frames (λ l0, l0 ++ [frame]))
            (with_frames w ?n l ?ev))
    with (with_frames w n (l ++ [frame]) ev).
  cbn beta iota.
  rewrite run_bind, fire_with_frames.
  rewrite run_bind, deselectAllFrames_with_frames.
  rewrite run_bind, selectFrame_with_frames
    by (rewrite length_map, length_app; simpl; lia).
  rewrite run_bind, run_gets, run_mret.
  change (Presentation.frames (this (with_frames w _ ?l' _))) with l'.
  rewrite <- splice_end, stored_frame by lia.
  rewrite length_splice. by rewrite <- !app_assoc.
Qed.

(** Either no frame is selected or some selected frame is the last. *)
Lemma selection_cases l :
  none_selected l ∨ ∃ k, highest_selected l k.
Proof.
  induction l as [|f l IH] using rev_ind.
  - left. by intros i f.
  - destruct (Frame.selected f) eqn:Hf.
    + right. exists (length l). split.
      * exists f. split; [|done]. by apply list_lookup_middle.
      * intros i g Hi Hg. apply lookup_lt_Some in Hg.
        rewrite length_app in Hg. simpl in Hg. lia.
    + assert (∀ i g, (length l ≤ i)%nat → (l ++ [f]) !! i = Some g →
                Frame.selected g = false) as Hlast.
      { intros i g Hi Hg. rewrite lookup_app_r in Hg by done.
        destruct (i - length l)%nat; [|done]. by injection Hg as <-. }
      destruct IH as [Hnone|[k [(g & Hg & Hsel) Habove]]].
      * left. intros i g Hg. destruct (decide (i < length l)%nat).
        -- rewrite lookup_app_l in Hg by done. by eapply Hnone.
        -- apply (Hlast i); [lia|done].
      * right. exists k. split.
        -- exists g. split; [|done]. rewrite lookup_app_l; [done|].
           by eapply lookup_lt_Some.
        -- intros i h Hi Hh. destruct (decide (i < length l)%nat).
           ++ rewrite lookup_app_l in Hh by done. by eapply Habove.
           ++ apply (Hlast i); [lia|done].
Qed.

(** [addFrame] always returns: the frame goes after the last selected
    frame, or at the end. *)
Lemma addFrame_run w state :
  ∃ k j, addFrame state w = addFrame_result w state k j
         ∧ (j ≤ length (Presentation.frames (this w)))%nat
         ∧ (k < S (length (Presentation.frames (this w))))%nat
         ∧ (k = j ↔ none_selected (Presentation.frames (this w))).
Proof.
  destruct (selection_cases (Presentation.frames (this w))) as [Hnone|[k Hk]].
  - exists (length (Presentation.frames (this w))),
      (length (Presentation.frames (this w))).
    split; [by apply addFrame_run_none|]. split; [lia|]. split; [lia|done].
  - pose proof (highest_selected_lt _ _ Hk).
    exists k, (k + 1)%nat. split; [by apply addFrame_run_highest|].
    split; [lia|]. split; [lia|]. split; [lia|].
    intros Hnone. destruct Hk as [(f & Hf & Hsel) _].
    rewrite (Hnone k f Hf) in Hsel. done.
Qed.

(** The frame that [addFrame] returns is the one it has put at index
    [j]; it is the frame made by [Frame.init], up to its flag. *)
Lemma addFrame_result_frame w state k j :
  (j ≤ length (Presentation.frames (this w)))%nat →
  ∃ w' frame, addFrame_result w state k j = Return frame w'
    ∧ Presentation.frames (this w') !! j = Some frame
    ∧ Frame.set_selected false frame = newFrame w state
    ∧ Frame.selected frame = bool_decide (k = j).
Proof.
  intros Hj. eexists. eexists. split; [reflexivity|].
  cbn [with_frames this Presentation.frames Presentation.set_frames].
  split; [by apply stored_frame|done].
Qed.
End AddFrameCases.

Section AddFrameProperties.
Implicit Types (w : World) (l : list Frame.t) (frame f : Frame.t).

Lemma deselect_none l :
  none_selected l → map (Frame.set_selected false) l = l.
Proof.
  intros Hnone. apply list_eq. intros i. rewrite list_lookup_fmap.
  destruct (l !! i) as [f|] eqn:Hi; [|done]. cbn. f_equal.
  specialize (Hnone i f Hi). destruct f. cbn in *. by subst.
Qed.

Lemma marked_splice_lookup l k j frame i f :
  alter (Frame.set_selected true) k
    (map (Frame.set_selected false) (splice l j frame)) !! i = Some f →
  Frame.selected f = true ↔ i = k.
Proof.
  destruct (decide (i = k)) as [->|Hne].
  - rewrite list_lookup_alter_eq. intros Hf.
    apply fmap_Some in Hf as (g & _ & ->). done.
  - rewrite list_lookup_alter_ne, list_lookup_fmap by done. intros Hf.
    apply fmap_Some in Hf as (g & _ & ->). done.
Qed.

Lemma unmark_marked_splice l k j frame :
  map (Frame.set_selected false)
    (alter (Frame.set_selected true) k
       (map (Frame.set_selected false) (splice l j frame)))
  = splice (map (Frame.set_selected false) l) j (Frame.set_selected false frame).
Proof.
  transitivity (map (Frame.set_selected false) (splice l j frame)).
  - apply list_eq. intros i. rewrite !list_lookup_fmap.
    destruct (decide (i = k)) as [->|Hne].
    + rewrite list_lookup_alter_eq, list_lookup_fmap.
      by destruct (splice l j frame !! k).
    + rewrite list_lookup_alter_ne, list_lookup_fmap by done.
      by destruct (splice l j frame !! i).
  - unfold splice. by rewrite map_app, <- fmap_take, <- fmap_drop.
Qed.
End AddFrameProperties.

(** X5: when no frame is selected, and so when there is no frame at
    all, [addFrame] puts the new frame at the end of the sequence and
    selects it, and returns it, selected; the other frames are
    unchanged, and the events are "addFrame" with the new frame, not
    yet selected, and its index, "deselectFrame" for every index of the
    new sequence, and "selectFrame" with the index of the new frame. *)
Theorem addFrame_appends_when_none_selected (w : World) (state : nat) :
  none_selected (Presentation.frames (this w)) →
  ∃ w', addFrame state w = Return (Frame.set_selected true (newFrame w state)) w'
    ∧ Presentation.frames (this w')
      = Presentation.frames (this w) ++ [Frame.set_selected true (newFrame w state)]
    ∧ fired w'
      = fired w
        ++ addFrame_events (newFrame w state)
             (length (Presentation.frames (this w)))
             (length (Presentation.frames (this w)))
    ∧ Object_id w' = S (Object_id w)
    ∧ Presentation.layers (this w') = Presentation.layers (this w).
Proof.
  intros Hnone. eexists. split.
  { rewrite addFrame_run_none by done. unfold addFrame_result.
    by rewrite bool_decide_true. }
  cbn [with_frames this fired Object_id Presentation.frames
         Presentation.set_frames Presentation.layers].
  split; [|done]. rewrite splice_end, map_app, deselect_none by done.
  rewrite <- (Nat.add_0_r (length (Presentation.frames (this w)))) at 1.
  by rewrite alter_app_r.
Qed.

Lemma addFrame_appends_when_none_selected_witness :
  ∃ w', addFrame 7 twoFrameWorld
        = Return (Frame.set_selected true (newFrame twoFrameWorld 7)) w'
    ∧ Presentation.frames (this w')
      = Presentation.frames (this twoFrameWorld)
        ++ [Frame.set_selected true (newFrame twoFrameWorld 7)]
    ∧ fired w'
      = fired twoFrameWorld
        ++ addFrame_events (newFrame twoFrameWorld 7)
             (length (Presentation.frames (this twoFrameWorld)))
             (length (Presentation.frames (this twoFrameWorld)))
    ∧ Object_id w' = S (Object_id twoFrameWorld)
    ∧ Presentation.layers (this w') = Presentation.layers (this twoFrameWorld).
Proof.
  apply (addFrame_appends_when_none_selected twoFrameWorld 7).
  intros [|[|i]] f Hf; simpl in Hf; [by injection Hf as <-..|done].
Defined.

(** X6: when some frame is selected, [k] being the highest index of a
    selected frame, [addFrame] inserts the new frame at index [k + 1]:
    the frames before and after keep their order, and all of them but
    the frame at index [k] are left deselected. *)
Theorem addFrame_inserts_after_last_selected (w : World) (state k : nat)
    (fk : Frame.t) :
  highest_selected (Presentation.frames (this w)) k →
  Presentation.frames (this w) !! k = Some fk →
  ∃ w', addFrame state w = Return (newFrame w state) w'
    ∧ Presentation.frames (this w')
      = map (Frame.set_selected false) (take k (Presentation.frames (this w)))
        ++ fk :: newFrame w state
        :: map (Frame.set_selected false)
             (drop (S k) (Presentation.frames (this w))).
Proof.
  intros Hsel Hk. eexists. split.
  { rewrite (addFrame_run_highest w state k) by done. unfold addFrame_result.
    by rewrite bool_decide_false by lia. }
  cbn [with_frames this Presentation.frames Presentation.set_frames].
  set (l := Presentation.frames (this w)) in *.
  assert (Frame.selected fk = true) as Hfk.
  { destruct Hsel as [(f & Hf & ?) _]. congruence. }
  unfold splice. rewrite Nat.add_1_r, (take_S_r l k fk) by done.
  rewrite !map_app, <- app_assoc. cbn [map app].
  assert (length (map (Frame.set_selected false) (take k l)) = k) as Hlen.
  { rewrite length_map, length_take. apply lookup_lt_Some in Hk. lia. }
  rewrite <- (Nat.add_0_r k) at 1. rewrite <- Hlen at 1.
  rewrite alter_app_r. f_equal. cbn. f_equal.
  destruct fk. cbn in *. by subst.
Qed.

Lemma addFrame_inserts_after_last_selected_witness :
  ∃ w', addFrame 7 oneFrameWorld = Return (newFrame oneFrameWorld 7) w'
    ∧ Presentation.frames (this w')
      = map (Frame.set_selected false)
          (take 0 (Presentation.frames (this oneFrameWorld)))
        ++ frame1 :: newFrame oneFrameWorld 7
        :: map (Frame.set_selected false)
             (drop 1 (Presentation.frames (this oneFrameWorld))).
Proof.
  apply (addFrame_inserts_after_last_selected oneFrameWorld 7 0 frame1);
    [|reflexivity].
  split; [by exists frame1|].
  intros [|i] f Hi Hf; [lia|done].
Defined.

(** X7: [addFrame] always returns; the sequence has one frame more, and
    exactly one frame is selected afterwards, whatever the selection
    was before.  The frame returned is a member of the sequence: it is
    the frame made by [Frame.init], up to its flag, and it is the
    selected one exactly when no frame was selected before the call. *)
Theorem addFrame_leaves_one_selected (w : World) (state : nat) :
  ∃ w' i frame, addFrame state w = Return frame w'
    ∧ frame ∈ Presentation.frames (this w')
    ∧ Frame.set_selected false frame = newFrame w state
    ∧ (Frame.selected frame = true
       ↔ none_selected (Presentation.frames (this w)))
    ∧ length (Presentation.frames (this w'))
      = S (length (Presentation.frames (this w)))
    ∧ only_selected (Presentation.frames (this w')) i.
Proof.
  destruct (addFrame_run w state) as (k & j & Hrun & Hj & Hk & Hcase).
  destruct (addFrame_result_frame w state k j Hj)
    as (w' & frame & Hres & Hframe & Hinit & Hflag).
  exists w', k, frame. split; [by rewrite Hrun|].
  split; [by eapply list_elem_of_lookup_2|]. split; [done|].
  split; [by rewrite Hflag, bool_decide_eq_true|].
  unfold addFrame_result in Hres. injection Hres as _ <-.
  cbn [with_frames this Presentation.frames Presentation.set_frames].
  assert (length (alter (Frame.set_selected true) k
                    (map (Frame.set_selected false)
                       (splice (Presentation.frames (this w)) j (newFrame w state))))
          = S (length (Presentation.frames (this w)))) as Hlen.
  { by rewrite length_alter, length_map, length_splice. }
  split; [done|]. split; [lia|].
  intros i f. apply marked_splice_lookup.
Qed.

(** X8: the events of [addFrame] are, in this order, "addFrame", one
    "deselectFrame" for every index of the new sequence, by increasing
    index, and one "selectFrame"; "addFrame" and "selectFrame" carry
    the same index, which is that of the frame left selected.  The
    frame that "addFrame" carries is the one made by [Frame.init], not
    selected; the frame returned is the same up to its flag. *)
Theorem addFrame_event_order (w : World) (state : nat) :
  ∃ w' i frame, addFrame state w = Return frame w'
    ∧ Frame.set_selected false frame = newFrame w state
    ∧ fired w'
      = fired w
        ++ addFrame_event (newFrame w state) (Z.of_nat i)
        :: map (λ n, deselectFrame_event (Z.of_nat n))
             (seq 0 (length (Presentation.frames (this w'))))
        ++ [selectFrame_event (Z.of_nat i)]
    ∧ only_selected (Presentation.frames (this w')) i.
Proof.
  destruct (addFrame_run w state) as (k & j & Hrun & Hj & Hk & _).
  destruct (addFrame_result_frame w state k j Hj)
    as (w' & frame & Hres & _ & Hinit & _).
  exists w', k, frame. split; [by rewrite Hrun|]. split; [done|].
  unfold addFrame_result in Hres. injection Hres as _ <-.
  cbn [with_frames this fired Presentation.frames Presentation.set_frames].
  rewrite length_alter, length_map, length_splice.
  split; [done|]. split; [rewrite length_alter, length_map, length_splice; lia|].
  intros i f. apply marked_splice_lookup.
Qed.

(** X9: up to the selection flags, the frames after [addFrame] are the
    frames before it with the new frame inserted at some index, where
    the frame returned stands: no frame is lost, and the frames keep
    their order, identities, titles and states. *)
Theorem addFrame_keeps_old_frames (w : World) (state : nat) :
  ∃ w' j frame, addFrame state w = Return frame w'
    ∧ (j ≤ length (Presentation.frames (this w)))%nat
    ∧ Presentation.frames (this w') !! j = Some frame
    ∧ map (Frame.set_selected false) (Presentation.frames (this w'))
      = splice (map (Frame.set_selected false) (Presentation.frames (this w)))
          j (newFrame w state).
Proof.
  destruct (addFrame_run w state) as (k & j & Hrun & Hj & Hk & _).
  destruct (addFrame_result_frame w state k j Hj)
    as (w' & frame & Hres & Hframe & _ & _).
  exists w', j, frame. split; [by rewrite Hrun|]. split; [done|].
  split; [done|].
  unfold addFrame_result in Hres. injection Hres as _ <-.
  cbn [with_frames this Presentation.frames Presentation.set_frames].
  apply unmark_marked_splice.
Qed.

Lemma marked_splice_elem (l : list Frame.t) (k j : nat) (frame f : Frame.t) :
  f ∈ alter (Frame.set_selected true) k
        (map (Frame.set_selected false) (splice l j frame)) →
  ∃ g, (g ∈ l ∨ g = frame)
       ∧ Frame.id f = Frame.id g ∧ Frame.frameId f = Frame.frameId g.
Proof.
  intros (i & Hi)%list_elem_of_lookup.
  assert (∃ g, splice l j frame !! i = Some g
               ∧ Frame.id f = Frame.id g ∧ Frame.frameId f = Frame.frameId g)
    as (g & Hg & ? & ?).
  { destruct (decide (i = k)) as [->|Hne].
    - rewrite list_lookup_alter_eq, list_lookup_fmap in Hi.
      destruct (splice l j frame !! k) as [g|]; [|done].
      injection Hi as <-. by exists g.
    - rewrite list_lookup_alter_ne, list_lookup_fmap in Hi by done.
      destruct (splice l j frame !! i) as [g|]; [|done].
      injection Hi as <-. by exists g. }
  exists g. split; [|done].
  apply list_elem_of_lookup_2 in Hg. unfold splice in Hg.
  apply elem_of_app in Hg as [Hg|[->|Hg]%elem_of_cons].
  - left. by apply (subseteq_take j l).
  - by right.
  - left. by apply (subseteq_drop (j) l).
Qed.

Lemma marked_splice_ids (l : list Frame.t) (k j : nat) (frame : Frame.t) :
  map Frame.id
    (alter (Frame.set_selected true) k
       (map (Frame.set_selected false) (splice l j frame)))
  = take j (map Frame.id l) ++ Frame.id frame :: drop j (map Frame.id l).
Proof.
  transitivity (map Frame.id (splice l j frame)).
  - apply list_eq. intros i. rewrite !list_lookup_fmap.
    destruct (decide (i = k)) as [->|Hne].
    + rewrite list_lookup_alter_eq, list_lookup_fmap.
      by destruct (splice l j frame !! k).
    + rewrite list_lookup_alter_ne, list_lookup_fmap by done.
      by destruct (splice l j frame !! i).
  - unfold splice. by rewrite map_app, <- fmap_take, <- fmap_drop.
Qed.

(** X10: the identities of the frames stay distinct.  If the frames of
    the presentation have distinct identities below the counter of
    [sozi.model.Object], and frame ids of the form "frame" followed by
    the identity, then so have the frames after [addFrame]; the frame
    returned is one of them and has the value of the counter as its
    identity, above all the others. *)
Theorem addFrame_keeps_frames_sound (w : World) (state : nat) :
  frames_sound w →
  ∃ w' frame, addFrame state w = Return frame w'
    ∧ frames_sound w'
    ∧ frame ∈ Presentation.frames (this w')
    ∧ Frame.id frame = Object_id w
    ∧ Frame.frameId frame = "frame" +:+ pretty (Object_id w)
    ∧ ∀ f, f ∈ Presentation.frames (this w) →
           (Frame.id f < Frame.id frame)%nat.
Proof.
  intros [Hnodup Hsound].
  destruct (addFrame_run w state) as (k & j & Hrun & Hj & Hk & _).
  destruct (addFrame_result_frame w state k j Hj)
    as (w' & frame & Hres & Hframe & Hinit & _).
  assert (Frame.id frame = Object_id w
          ∧ Frame.frameId frame = "frame" +:+ pretty (Object_id w)) as [Hid Hfid].
  { change (Frame.id frame) with (Frame.id (Frame.set_selected false frame)).
    change (Frame.frameId frame)
      with (Frame.frameId (Frame.set_selected false frame)).
    by rewrite Hinit. }
  exists w', frame. split; [by rewrite Hrun|].
  split; [|split; [by eapply list_elem_of_lookup_2|split; [done|split; [done|]]]].
  2:{ intros f Hf. rewrite Hid. by apply Hsound. }
  unfold addFrame_result in Hres. injection Hres as _ <-.
  unfold frames_sound.
  cbn [with_frames this Object_id Presentation.frames Presentation.set_frames].
  split.
  - rewrite marked_splice_ids. cbn [newFrame Frame.id].
    rewrite <- Permutation_middle, take_drop. apply NoDup_cons. split; [|done].
    intros (f & Hf1 & Hf%Hsound)%list_elem_of_fmap. lia.
  - intros f (g & [Hg| ->] & -> & ->)%marked_splice_elem.
    + destruct (Hsound g Hg). split; [lia|done].
    + split; [cbn; lia|done].
Qed.

Lemma addFrame_keeps_frames_sound_witness :
  ∃ w' frame, addFrame 7 twoFrameWorld = Return frame w'
    ∧ frames_sound w'
    ∧ frame ∈ Presentation.frames (this w')
    ∧ Frame.id frame = Object_id twoFrameWorld
    ∧ Frame.frameId frame = "frame" +:+ pretty (Object_id twoFrameWorld)
    ∧ ∀ f, f ∈ Presentation.frames (this twoFrameWorld) →
           (Frame.id f < Frame.id frame)%nat.
Proof.
  apply (addFrame_keeps_frames_sound twoFrameWorld 7).
  split.
  - apply (bool_decide_unpack _). vm_compute. exact I.
  - intros f Hf. apply list_elem_of_In in Hf. simpl in Hf.
    destruct Hf as [<-|[<-|[]]]; split; (simpl; lia) || reflexivity.
Defined.

(** ** Calls of [addFrame] in sequence *)

Lemma nthFrame_0 (w : World) (state : nat) : nthFrame w 0 state = newFrame w state.
Proof. unfold nthFrame, newFrame. by rewrite Nat.add_0_r. Qed.

Lemma addFrame_after_first (w : World) (state : nat) (f1 : Frame.t)
    (rest : list Frame.t) :
  Presentation.frames (this w) = f1 :: rest →
  Frame.selected f1 = true → none_selected rest →
  addFrame state w
  = Return (newFrame w state)
      (with_frames w (S (Object_id w)) (f1 :: newFrame w state :: rest)
         (fired w ++ addFrame_events (newFrame w state) 0 (S (length rest)))).
Proof.
  intros Hframes Hf1 Hrest.
  rewrite (addFrame_run_highest w state 0).
  2:{ rewrite Hframes. split; [by exists f1|].
      intros [|i] f Hi Hf; [lia|]. by apply (Hrest i). }
  unfold addFrame_result. rewrite Hframes, bool_decide_false by lia. cbn.
  rewrite take_0, drop_0. cbn [app map]. rewrite deselect_none by done.
  do 3 f_equal. destruct f1. cbn in *. by subst.
Qed.

(** X11: calls of [addFrame] in sequence, on a presentation where the
    first frame is the only selected one, all insert directly after the
    first frame, which stays the selected one: the frames they create
    follow it in the reverse order of the calls. *)
Theorem addFrames_stack_after_first (states : list nat) :
  ∀ (w : World) (f1 : Frame.t) (rest : list Frame.t),
  Presentation.frames (this w) = f1 :: rest →
  Frame.selected f1 = true → none_selected rest →
  ∃ w', addFrames states w = Return tt w'
    ∧ Presentation.frames (this w')
      = f1 :: rev (imap (nthFrame w) states) ++ rest
    ∧ Object_id w' = (Object_id w + length states)%nat.
Proof.
  induction states as [|state states IH]; intros w f1 rest Hframes Hf1 Hrest.
  { exists w. cbn. by rewrite Nat.add_0_r. }
  cbn [addFrames]. rewrite run_bind.
  rewrite (addFrame_after_first w state f1 rest) by done.
  set (w1 := with_frames w _ _ _).
  destruct (IH w1 f1 (newFrame w state :: rest)) as (w' & Hrun & Hw' & Hid);
    [done|done| |].
  { intros [|i] f Hf; [by injection Hf as <-|by apply (Hrest i)]. }
  exists w'. split; [done|]. split.
  - rewrite Hw'. cbn [imap rev]. rewrite nthFrame_0, <- app_assoc. cbn [app].
    do 3 f_equal. apply imap_ext. intros i st _. unfold nthFrame, w1. cbn.
    by rewrite Nat.add_succ_r.
  - rewrite Hid. unfold w1. cbn. lia.
Qed.

Lemma addFrames_stack_after_first_witness :
  ∃ w', addFrames [7; 8] oneFrameWorld = Return tt w'
    ∧ Presentation.frames (this w')
      = frame1 :: rev (imap (nthFrame oneFrameWorld) [7; 8]) ++ []
    ∧ Object_id w' = (Object_id oneFrameWorld + length [7; 8])%nat.
Proof.
  apply (addFrames_stack_after_first [7; 8] oneFrameWorld frame1 []).
  - reflexivity.
  - reflexivity.
  - by intros i f.
Defined.

(** ** What [init] leaves in the tree and in the layer map *)

(** X12: on a root whose children are distinct nodes made before the
    call, [init] never fails: no DOM operation is given a node that is
    not a child.  The presentation takes the next identity, its frame
    sequence is empty, and no event is fired. *)
Theorem init_takes_identity (w : World) (svgRoot : list Node) :
  well_formed w svgRoot →
  ∃ w', init svgRoot w = Return tt w'
    ∧ Presentation.id (this w') = Object_id w
    ∧ Object_id w' = S (Object_id w)
    ∧ Presentation.frames (this w') = []
    ∧ fired w' = fired w
    ∧ (document w < document w')%nat.
Proof.
  intros Hwf. eexists. split; [by apply init_run|].
  cbn. repeat split. lia.
Qed.

Lemma init_takes_identity_witness :
  ∃ w', init sampleRoot sampleWorld = Return tt w'
    ∧ Presentation.id (this w') = Object_id sampleWorld
    ∧ Object_id w' = S (Object_id sampleWorld)
    ∧ Presentation.frames (this w') = []
    ∧ fired w' = fired sampleWorld
    ∧ (document sampleWorld < document w')%nat.
Proof.
  apply (init_takes_identity sampleWorld sampleRoot), well_formed_sample.
Defined.

Section Kept.
Variables (id doc : nat).
Implicit Types (l tree : list Node) (x c : Node) (p : Pass).

Local Notation "'visit'" := (pass_visit id doc).

Lemma filter_foreign_snoc tree x :
  List.filter foreign (tree ++ [x])
  = List.filter foreign tree ++ (if foreign x then [x] else []).
Proof. rewrite List.filter_app. cbn. by destruct (foreign x). Qed.

Lemma foreign_drawable x : drawable x = true → foreign x = false.
Proof. intros Hd. unfold foreign. destruct (tagName x); [|done]. by rewrite Hd. Qed.

Lemma foreign_foldl l : ∀ p,
  List.filter foreign (pass_tree id doc (foldl visit p l))
  = List.filter foreign (placed p) ++ List.filter foreign l.
Proof.
  induction l as [|x l IH]; intros p.
  { cbn [foldl List.filter]. rewrite app_nil_r. unfold pass_tree.
    destruct (pending p); [done|].
    rewrite filter_foreign_snoc, foreign_drawable, app_nil_r; [done|].
    apply currentWrapper_facts. }
  cbn [foldl List.filter]. rewrite IH.
  destruct (pass_visit_visited id doc p x) as [Htag|Htag Hd|Hd _ _|Hd _ _|Hd _];
    cbn [placed].
  - unfold foreign. by rewrite Htag.
  - assert (foreign x = true) as Hf.
    { unfold foreign. destruct (tagName x); [by rewrite Hd|done]. }
    by rewrite filter_foreign_snoc, Hf, <- app_assoc.
  - by rewrite filter_foreign_snoc, !foreign_drawable, app_nil_r.
  - change [currentWrapper id doc p; x] with ([currentWrapper id doc p] ++ [x]).
    rewrite app_assoc, !filter_foreign_snoc, !foreign_drawable, !app_nil_r;
      [done|done|apply currentWrapper_facts].
  - by rewrite foreign_drawable.
Qed.

Lemma groups_only_visit p x :
  groups_only (placed p) → groups_only (placed (visit p x)).
Proof.
  intros Hp.
  assert (∀ q, qualifies (nodeName x) x (registry q) = true →
               tagName x ≠ None
               ∧ (drawable x = true →
                  nodeName x = "g" ∧ truthy (getAttribute x "id") = true
                  ∧ inherited (layerKey x) = false)) as Hx.
  { intros q (Hg & ? & _ & ?)%qualifies_true. split; [|done].
    by apply drawable_tagName, drawable_group. }
  assert (tagName (currentWrapper id doc p) ≠ None
          ∧ (drawable (currentWrapper id doc p) = true →
             nodeName (currentWrapper id doc p) = "g"
             ∧ truthy (getAttribute (currentWrapper id doc p) "id") = true
             ∧ inherited (layerKey (currentWrapper id doc p)) = false)) as Hcw.
  { destruct (currentWrapper_facts id doc p) as (_ & ? & ? & _ & _ & _ & ?).
    repeat split; try done; try apply inherited_wrapperId. }
  destruct (pass_visit_visited id doc p x) as [|Htag Hd|_ Hq _|_ Hq _|];
    cbn [placed]; try done; intros c.
  - intros [Hc| ->%list_elem_of_singleton]%elem_of_app; [by apply Hp|].
    split; [done|congruence].
  - intros [Hc| ->%list_elem_of_singleton]%elem_of_app; [by apply Hp|].
    by apply (Hx p).
  - intros [Hc|[->| ->%list_elem_of_singleton]%elem_of_cons]%elem_of_app;
      [by apply Hp|done|by apply (Hx p)].
Qed.

Lemma groups_only_pass_tree p :
  groups_only (placed p) → groups_only (pass_tree id doc p).
Proof.
  intros Hp c. unfold pass_tree. destruct (pending p); [apply Hp|].
  intros [Hc| ->%list_elem_of_singleton]%elem_of_app; [by apply Hp|].
  destruct (currentWrapper_facts id doc p) as (_ & ? & ? & _ & _ & _ & ?).
  repeat split; try done; try apply inherited_wrapperId.
Qed.
End Kept.

(** X13: after [init] every child of the root is an element: the text
    nodes and comments are gone.  The elements whose tag is not
    drawable are all still children of the root, in their original
    order. *)
Theorem init_keeps_foreign_elements (w : World) (svgRoot : list Node) :
  well_formed w svgRoot →
  ∃ w', init svgRoot w = Return tt w'
    ∧ (∀ c, c ∈ Presentation.svgRoot (this w') → tagName c ≠ None)
    ∧ List.filter foreign (Presentation.svgRoot (this w'))
      = List.filter foreign svgRoot.
Proof.
  intros Hwf. eexists. split; [by apply init_run|].
  cbn [world_of this Presentation.svgRoot]. split.
  - intros c Hc.
    apply (groups_only_pass_tree (Object_id w) (document w) (pass_of w svgRoot));
      [|done].
    unfold pass_of.
    apply (foldl_pass_invariant _ _ (λ p, groups_only (placed p))).
    + intros p x _. apply groups_only_visit.
    + by intros c' Hc'%elem_of_nil.
  - unfold pass_of. by rewrite foreign_foldl.
Qed.

Lemma init_keeps_foreign_elements_witness :
  ∃ w', init sampleRoot sampleWorld = Return tt w'
    ∧ (∀ c, c ∈ Presentation.svgRoot (this w') → tagName c ≠ None)
    ∧ List.filter foreign (Presentation.svgRoot (this w'))
      = List.filter foreign sampleRoot.
Proof.
  apply (init_keeps_foreign_elements sampleWorld sampleRoot), well_formed_sample.
Defined.

Section Registry.
Variables (id doc : nat).
Implicit Types (l tree : list Node) (x c : Node) (p : Pass).

Local Notation "'visit'" := (pass_visit id doc).

Lemma keys_match_visit p x : keys_match p → keys_match (visit p x).
Proof.
  intros Hp.
  destruct (pass_visit_visited id doc p x) as [|Htag Hd|Hd _ _|Hd _ _|];
    try done; intros s; cbn [placed registry].
  - by rewrite layerKeys_snoc, Hd, app_nil_r.
  - rewrite layerKeys_snoc, Hd, elem_of_app, list_elem_of_singleton, <- (Hp s).
    apply is_Some_insert.
  - change [currentWrapper id doc p; x] with ([currentWrapper id doc p] ++ [x]).
    rewrite app_assoc, !layerKeys_snoc, Hd.
    change (drawable (currentWrapper id doc p)) with true. cbn match.
    rewrite !elem_of_app, !list_elem_of_singleton, <- (Hp s), !is_Some_insert.
    done.
Qed.

Lemma keys_match_pass_tree p :
  keys_match p →
  ∀ s, is_Some (pass_layers id doc p !! s) ↔ s ∈ layerKeys (pass_tree id doc p).
Proof.
  intros Hp s. unfold pass_layers, pass_tree.
  destruct (pending p); [apply Hp|].
  rewrite layerKeys_snoc. change (drawable (currentWrapper id doc p)) with true.
  cbn match. rewrite elem_of_app, list_elem_of_singleton, <- (Hp s).
  apply is_Some_insert.
Qed.

Lemma classified_visit l p x :
  x ∈ l → classified doc l (registry p) → classified doc l (registry (visit p x)).
Proof.
  intros Hx Hp.
  assert (qualifies (nodeName x) x (registry p) = true →
          ∀ reg, classified doc l reg →
                 classified doc l (<[layerKey x := explicitLayer x]> reg)) as Hgroup.
  { intros (Hg & _)%qualifies_true reg Hreg key L.
    rewrite lookup_insert. case_decide as Hkey; [|apply Hreg].
    intros [= <-]. by subst key. }
  assert (pending p ≠ [] →
          classified doc l
            (<[wrapperId id (count p) := autoLayer (currentWrapper id doc p)]>
               (registry p))) as Hflush.
  { intros Hpending key L.
    rewrite lookup_insert. case_decide as Hkey; [|apply Hp].
    intros [= <-]. subst key. cbn. repeat split.
    - unfold created. cbn. apply Nat.leb_le. lia.
    - unfold firstChild. cbn. by destruct (pending p). }
  destruct (pass_visit_visited id doc p x) as [| |_ Hq _|_ Hq Hpending|];
    cbn [registry]; try done.
  - by apply Hgroup.
  - by apply Hgroup, Hflush.
Qed.

Lemma classified_pass_layers l p :
  classified doc l (registry p) → classified doc l (pass_layers id doc p).
Proof.
  intros Hp. unfold pass_layers.
  destruct (pending p) as [|y ys] eqn:Hpending; [done|].
  intros key L. rewrite lookup_insert. case_decide as Hkey; [|apply Hp].
  intros [= <-]. subst key. cbn. repeat split.
  - unfold created. cbn. apply Nat.leb_le. lia.
  - unfold firstChild. cbn. by rewrite Hpending.
Qed.
End Registry.



(** ** Nodes that can never be layers *)

Section Unqualified.
Variables (w : World) (pre post : list Node) (x : Node).

Local Notation "'id'" := (Object_id w).
Local Notation "'doc'" := (document w).
Local Notation "'visit'" := (pass_visit (Object_id w) (document w)).

Hypothesis Hwf : well_formed w (pre ++ x :: post).
Hypothesis Hd : drawable x = true.
Hypothesis Hnever :
  nodeName x ≠ "g" ∨ truthy (getAttribute x "id") = false
  ∨ inherited (layerKey x) = true.

Lemma unqualified_visit (p : Pass) :
  visit p x
  = {| placed := placed p; registry := registry p; count := count p;
       pending := pending p ++ [x] |}.
Proof.
  assert (qualifies (nodeName x) x (registry p) = false) as Hq.
  { apply not_true_iff_false. intros (? & ? & _ & ?)%qualifies_true.
    destruct Hnever as [?|[?|?]]; congruence. }
  unfold pass_visit. destruct (tagName x) eqn:Htag.
  - by rewrite Hd, Hq.
  - by apply drawable_tagName in Hd.
Qed.

Lemma unqualified_pass :
  pass_of w (pre ++ x :: post)
  = foldl visit (visit (foldl visit pass_start pre) x) post.
Proof. unfold pass_of. by rewrite foldl_app. Qed.

Lemma unqualified_uids :
  (uid x < doc)%nat ∧ (uid x ∉ map uid pre) ∧ (uid x ∉ map uid post).
Proof.
  destruct Hwf as [Hnodup Hold]. split; [|split].
  - apply Hold. rewrite elem_of_app, elem_of_cons. tauto.
  - rewrite map_app in Hnodup. apply NoDup_app in Hnodup as (_ & Hdisj & _).
    intros Hin. apply (Hdisj _ Hin). cbn. left.
  - rewrite map_app in Hnodup. apply NoDup_app in Hnodup as (_ & _ & Hnodup).
    cbn in Hnodup. by apply NoDup_cons in Hnodup as [? _].
Qed.

Lemma unqualified_not_a_child : apart x (pass_tree id doc (pass_of w (pre ++ x :: post))).
Proof.
  destruct unqualified_uids as (Hold & Hbefore & Hafter).
  rewrite unqualified_pass.
  apply apart_pass_tree; [done|]. apply apart_foldl; [done|done|].
  rewrite unqualified_visit. cbn [placed]. intros c Hc.
  destruct (placed_from_foldl id doc pre [] pass_start) with (c := c)
    as [Hseen|Hnew]; [by intros c' Hc'%elem_of_nil|done| |].
  - intros Heq. apply Hbefore. rewrite <- Heq. by apply list_elem_of_fmap_2.
  - unfold created in Hnew. apply Nat.leb_le in Hnew. lia.
Qed.

Lemma unqualified_in_wrapper :
  ∃ wr, wr ∈ pass_tree id doc (pass_of w (pre ++ x :: post))
        ∧ created doc wr = true ∧ x ∈ childNodes wr.
Proof.
  rewrite unqualified_pass. apply held_pass_tree, held_foldl.
  rewrite unqualified_visit. left. cbn.
  rewrite elem_of_app, list_elem_of_singleton. tauto.
Qed.

Lemma unqualified_not_registered :
  ∀ key L, pass_layers id doc (pass_of w (pre ++ x :: post)) !! key = Some L →
           uid (Layer.svgNode L) ≠ uid x.
Proof.
  intros key L HL. apply unqualified_not_a_child.
  eapply (registered_placed_pass id doc); [|done].
  unfold pass_of.
  apply (foldl_pass_invariant id doc
           (λ p, registered_placed (placed p) (registry p))).
  - intros q z _. apply registered_placed_visit.
  - intros k M HM. cbn [pass_start registry] in HM.
    by rewrite lookup_empty in HM.
Qed.
End Unqualified.

(** X17: a drawable child of the root that is no group, or has no id or
    an empty one, or an id that is a name inherited from
    [Object.prototype] (such as "constructor"), never becomes a layer:
    after [init] it is no longer a child of the root, it is a child of
    a wrapper made by the pass, and no layer has it as its node. *)
Theorem unqualified_node_is_wrapped (w : World) (pre post : list Node) (x : Node) :
  well_formed w (pre ++ x :: post) →
  drawable x = true →
  nodeName x ≠ "g" ∨ truthy (getAttribute x "id") = false
  ∨ inherited (layerKey x) = true →
  ∃ w', init (pre ++ x :: post) w = Return tt w'
    ∧ apart x (Presentation.svgRoot (this w'))
    ∧ (∃ wr, wr ∈ Presentation.svgRoot (this w')
             ∧ created (document w) wr = true ∧ x ∈ childNodes wr)
    ∧ (∀ key L, Presentation.layers (this w') !! key = Some L →
                uid (Layer.svgNode L) ≠ uid x).
Proof.
  intros Hwf Hd Hnever. eexists. split; [by apply init_run|].
  cbn [world_of this Presentation.svgRoot Presentation.layers].
  split; [by apply unqualified_not_a_child|].
  split; [by apply unqualified_in_wrapper|].
  by apply unqualified_not_registered.
Qed.

Lemma unqualified_node_is_wrapped_witness :
  ∃ w', init ([] ++ Element 0 SVG_NS "g" [("id", "constructor")] [] :: [])
          sampleWorld = Return tt w'
    ∧ apart (Element 0 SVG_NS "g" [("id", "constructor")] [])
        (Presentation.svgRoot (this w'))
    ∧ (∃ wr, wr ∈ Presentation.svgRoot (this w')
             ∧ created (document sampleWorld) wr = true
             ∧ Element 0 SVG_NS "g" [("id", "constructor")] [] ∈ childNodes wr)
    ∧ (∀ key L, Presentation.layers (this w') !! key = Some L →
                uid (Layer.svgNode L)
                ≠ uid (Element 0 SVG_NS "g" [("id", "constructor")] [])).
Proof.
  apply (unqualified_node_is_wrapped sampleWorld [] []
           (Element 0 SVG_NS "g" [("id", "constructor")] [])).
  - split.
    + apply NoDup_singleton.
    + intros y ->%list_elem_of_singleton. simpl. lia.
  - reflexivity.
  - right. right. reflexivity.
Defined.

(** ** Wrappers *)

Section Wrappers.
Variables (id doc : nat).
Implicit Types (l tree : list Node) (x c : Node) (p : Pass).

Local Notation "'visit'" := (pass_visit id doc).

Lemma foldl_without_drawables l : ∀ p,
  (∀ x, x ∈ l → drawable x = false) →
  foldl visit p l
  = {| placed := placed p ++ List.filter foreign l; registry := registry p;
       count := count p; pending := pending p |}.
Proof.
  induction l as [|x l IH]; intros p Hnone.
  { cbn. rewrite app_nil_r. by destruct p. }
  assert (drawable x = false) as Hd by (apply Hnone; left).
  cbn [foldl List.filter]. rewrite IH by (intros y Hy; apply Hnone; by right).
  destruct (pass_visit_visited id doc p x) as [Htag|Htag _| | |];
    try congruence; cbn [placed registry count pending].
  - unfold foreign. by rewrite Htag.
  - assert (foreign x = true) as ->.
    { unfold foreign. destruct (tagName x); [by rewrite Hd|done]. }
    by rewrite <- app_assoc.
Qed.

Lemma wrappers_full_visit l p x :
  x ∈ l → (uid x < doc)%nat →
  wrappers_full id doc l (placed p)
  ∧ (∀ y, y ∈ pending p → y ∈ l ∧ drawable y = true) →
  wrappers_full id doc l (placed (visit p x))
  ∧ (∀ y, y ∈ pending (visit p x) → y ∈ l ∧ drawable y = true).
Proof.
  intros Hx Hold [Hplaced Hpending].
  assert (∀ t, (∀ c, c ∈ t → c = x) → wrappers_full id doc l (placed p ++ t))
    as Hmore.
  { intros t Ht c [Hc|Hc%Ht]%elem_of_app; [by apply Hplaced|].
    subst c. rewrite created_old by done. discriminate. }
  destruct (pass_visit_visited id doc p x) as [| | | Hd Hq Hne | Hd Hq];
    cbn [placed pending]; try done.
  - split; [|done]. apply Hmore. by intros c ->%list_elem_of_singleton.
  - split; [|by intros y Hy%elem_of_nil].
    apply Hmore. by intros c ->%list_elem_of_singleton.
  - split; [|by intros y Hy%elem_of_nil].
    intros c [Hc|[->|Hc%list_elem_of_singleton]%elem_of_cons]%elem_of_app.
    + by apply Hplaced.
    + intros _. by exists (count p), (pending p).
    + subst c. rewrite created_old by done. discriminate.
  - split; [done|].
    intros y [Hy| ->%list_elem_of_singleton]%elem_of_app; [by apply Hpending|done].
Qed.

Lemma wrappers_full_pass_tree l p :
  wrappers_full id doc l (placed p)
  ∧ (∀ y, y ∈ pending p → y ∈ l ∧ drawable y = true) →
  wrappers_full id doc l (pass_tree id doc p).
Proof.
  intros [Hplaced Hpending]. unfold pass_tree.
  destruct (pending p) as [|y ys] eqn:Hy; [done|].
  intros c [Hc| ->%list_elem_of_singleton]%elem_of_app; [by apply Hplaced|].
  intros _. exists (count p), (pending p). unfold currentWrapper.
  rewrite Hy. by repeat split; try apply Hpending.
Qed.

Lemma same_uid_same_node tree c1 c2 :
  NoDup (map uid tree) → c1 ∈ tree → c2 ∈ tree → uid c1 = uid c2 → c1 = c2.
Proof.
  intros Hnodup [i Hi]%list_elem_of_lookup [j Hj]%list_elem_of_lookup Heq.
  assert (i = j) as ->; [|congruence].
  apply (NoDup_lookup (map uid tree) i j (uid c1)); [done|..].
  - by rewrite list_lookup_fmap, Hi.
  - by rewrite list_lookup_fmap, Hj, Heq.
Qed.
End Wrappers.

(** X18: when no child of the root is drawable, [init] registers no
    layer and puts no wrapper into the tree; the children of the root
    are then the elements of the original root, in their order. *)
Theorem init_without_drawables (w : World) (svgRoot : list Node) :
  well_formed w svgRoot →
  (∀ x, x ∈ svgRoot → drawable x = false) →
  ∃ w', init svgRoot w = Return tt w'
    ∧ Presentation.svgRoot (this w') = List.filter foreign svgRoot
    ∧ Presentation.layers (this w') = ∅.
Proof.
  intros Hwf Hnone. eexists. split; [by apply init_run|].
  cbn [world_of this Presentation.svgRoot Presentation.layers].
  unfold pass_of. rewrite foldl_without_drawables by done. done.
Qed.

Lemma init_without_drawables_witness :
  ∃ w', init [CharacterData 0 " "; Element 1 SVG_NS "defs" [] []] sampleWorld
        = Return tt w'
    ∧ Presentation.svgRoot (this w')
      = List.filter foreign [CharacterData 0 " "; Element 1 SVG_NS "defs" [] []]
    ∧ Presentation.layers (this w') = ∅.
Proof.
  apply (init_without_drawables sampleWorld
           [CharacterData 0 " "; Element 1 SVG_NS "defs" [] []]).
  - split.
    + apply (bool_decide_unpack _). vm_compute. exact I.
    + intros y Hy. apply list_elem_of_In in Hy. simpl in Hy.
      destruct Hy as [<-|[<-|[]]]; simpl; lia.
  - intros y Hy. apply list_elem_of_In in Hy. simpl in Hy.
    by destruct Hy as [<-|[<-|[]]].
Defined.

(** X19: after [init] every child of the root made by the pass is a
    group with the id of a wrapper of the presentation and holds at
    least one child; its children are drawable nodes of the original
    root.  Two different wrappers in the tree never have the same
    id. *)
Theorem init_wrappers_full (w : World) (svgRoot : list Node) :
  well_formed w svgRoot →
  ∃ w', init svgRoot w = Return tt w'
    ∧ wrappers_full (Object_id w) (document w) svgRoot
        (Presentation.svgRoot (this w'))
    ∧ ∀ c1 c2, c1 ∈ Presentation.svgRoot (this w') →
               c2 ∈ Presentation.svgRoot (this w') →
               created (document w) c1 = true → created (document w) c2 = true →
               getAttribute c1 "id" = getAttribute c2 "id" → c1 = c2.
Proof.
  intros Hwf. eexists. split; [by apply init_run|].
  cbn [world_of this Presentation.svgRoot].
  set (id := Object_id w). set (doc := document w). set (p := pass_of w svgRoot).
  assert (wrappers_full id doc svgRoot (pass_tree id doc p)) as Hfull.
  { apply wrappers_full_pass_tree. unfold p, pass_of.
    apply (foldl_pass_invariant id doc
             (λ q, wrappers_full id doc svgRoot (placed q)
                   ∧ ∀ y, y ∈ pending q → y ∈ svgRoot ∧ drawable y = true)).
    - intros q x Hx. apply wrappers_full_visit; [done|by apply Hwf].
    - split; [by intros c Hc%elem_of_nil|by intros y Hy%elem_of_nil]. }
  split; [done|].
  destruct (distinct_uids_pass_tree id doc p) as [Hnodup _].
  { apply distinct_uids_foldl. split; [apply Hwf|]. split; [|apply Hwf].
    by intros c Hc%elem_of_nil. }
  intros c1 c2 Hc1 Hc2 Hn1 Hn2 Hid.
  destruct (Hfull c1 Hc1 Hn1) as (k1 & kids1 & -> & _).
  destruct (Hfull c2 Hc2 Hn2) as (k2 & kids2 & -> & _).
  change (Some (wrapperId id k1) = Some (wrapperId id k2)) in Hid.
  assert (k1 = k2) as -> by (apply (wrapperId_inj id); congruence).
  by apply (same_uid_same_node (pass_tree id doc p)).
Qed.

Lemma init_wrappers_full_witness :
  ∃ w', init sampleRoot sampleWorld = Return tt w'
    ∧ wrappers_full (Object_id sampleWorld) (document sampleWorld) sampleRoot
        (Presentation.svgRoot (this w'))
    ∧ ∀ c1 c2, c1 ∈ Presentation.svgRoot (this w') →
               c2 ∈ Presentation.svgRoot (this w') →
               created (document sampleWorld) c1 = true →
               created (document sampleWorld) c2 = true →
               getAttribute c1 "id" = getAttribute c2 "id" → c1 = c2.
Proof. apply (init_wrappers_full sampleWorld sampleRoot), well_formed_sample. Defined.

(** ** The layer map against the tree *)

Section Registered.
Variables (id doc : nat).
Implicit Types (l tree : list Node) (x c : Node) (p : Pass)
  (reg : gmap string Layer.t).

Local Notation "'visit'" := (pass_visit id doc).

Lemma flat_map_elem_ext {A B} (f g : A → list B) (t : list A) :
  (∀ a, a ∈ t → f a = g a) → flat_map f t = flat_map g t.
Proof.
  induction t as [|a t IH]; intros Hfg; [done|].
  cbn [flat_map]. rewrite Hfg by left. f_equal. apply IH.
  intros b Hb. apply Hfg. by right.
Qed.

Lemma same_key_same_node tree c1 c2 :
  NoDup (layerKeys tree) →
  c1 ∈ tree → drawable c1 = true → c2 ∈ tree → drawable c2 = true →
  layerKey c1 = layerKey c2 → c1 = c2.
Proof.
  intros Hnodup H1 Hd1 H2 Hd2 Heq.
  assert (c1 ∈ List.filter drawable tree) as [i Hi]%list_elem_of_lookup
    by by apply elem_of_filter_drawable.
  assert (c2 ∈ List.filter drawable tree) as [j Hj]%list_elem_of_lookup
    by by apply elem_of_filter_drawable.
  assert (i = j) as ->; [|congruence].
  apply (NoDup_lookup (layerKeys tree) i j (layerKey c1)); [done|..];
    unfold layerKeys.
  - by rewrite list_lookup_fmap, Hi.
  - by rewrite list_lookup_fmap, Hj, Heq.
Qed.

(** The facts that hold of the registry and of the placed children
    after any number of visits. *)
Lemma pass_of_registry (w : World) l :
  well_formed w l →
  registered_placed (pass_tree (Object_id w) (document w) (pass_of w l))
    (pass_layers (Object_id w) (document w) (pass_of w l))
  ∧ classified (document w) l
      (pass_layers (Object_id w) (document w) (pass_of w l))
  ∧ NoDup (map uid (pass_tree (Object_id w) (document w) (pass_of w l))).
Proof.
  intros Hwf. split; [|split].
  - apply registered_placed_pass. unfold pass_of.
    apply (foldl_pass_invariant _ _
             (λ p, registered_placed (placed p) (registry p))).
    + intros q z _. apply registered_placed_visit.
    + intros k M HM. cbn in HM. by rewrite lookup_empty in HM.
  - apply classified_pass_layers. unfold pass_of.
    apply (foldl_pass_invariant _ _
             (λ p, classified (document w) l (registry p))).
    + intros q z Hz. by apply classified_visit.
    + intros k M HM. cbn in HM. by rewrite lookup_empty in HM.
  - apply distinct_uids_pass_tree, distinct_uids_foldl.
    split; [apply Hwf|]. split; [|apply Hwf]. by intros c Hc%elem_of_nil.
Qed.

(** A registered layer is the layer of its node. *)
Lemma layerOf_registered l tree reg key L :
  classified doc l reg → reg !! key = Some L →
  layerOf reg (Layer.svgNode L) = Some L.
Proof.
  intros Hclass HL. destruct (Hclass key L HL) as (Hkey & _).
  unfold layerOf. rewrite <- Hkey, HL. by rewrite decide_True.
Qed.

(** In a tidy tree every drawable child is the node of the layer
    registered under its id, which is an auto layer exactly for the
    wrappers made by the pass. *)
Lemma tidy_registered l tree reg n c :
  tidy id doc tree reg n → classified doc l reg → registered_placed tree reg →
  c ∈ tree → drawable c = true →
  ∃ L, reg !! layerKey c = Some L ∧ Layer.svgNode L = c
       ∧ Layer.auto L = created doc c.
Proof.
  intros [_ _ Hkeys _ Hdistinct Hcreated Hauto] Hclass Hplaced Hc Hd.
  destruct (Hkeys (layerKey c)) as [_ [L HL]].
  { unfold layerKeys. apply list_elem_of_fmap_2.
    by apply elem_of_filter_drawable. }
  assert (Layer.svgNode L = c) as Hnode.
  { pose proof (Hplaced _ _ HL) as Hin.
    destruct (Hclass _ _ HL) as (Hkey & _ & Hkind).
    apply (same_key_same_node tree); try done.
    destruct (Layer.auto L) eqn:HautoL.
    - destruct (Hauto _ _ HL HautoL) as (_ & Hnew & _).
      by destruct (Hcreated _ Hin Hnew).
    - destruct Hkind as (_ & Hg & _). by apply drawable_group. }
  exists L. split; [done|]. split; [done|].
  destruct (created doc c) eqn:Hnew.
  - destruct (Hcreated _ Hc Hnew) as (_ & M & HM & HautoM & _).
    rewrite HL in HM. by injection HM as <-.
  - destruct (Layer.auto L) eqn:HautoL; [|done].
    destruct (Hauto _ _ HL HautoL) as (_ & Hnew' & _). congruence.
Qed.

(** In a tidy tree the contents of the layers are the drawable nodes
    as the tree groups them. *)
Lemma tidy_layersContents l tree reg n :
  tidy id doc tree reg n → classified doc l reg → registered_placed tree reg →
  NoDup (map uid tree) →
  layersContents reg tree = treeContents doc tree.
Proof.
  intros Htidy Hclass Hplaced Hnodup.
  apply flat_map_elem_ext. intros c Hc.
  destruct (drawable c) eqn:Hd.
  - destruct (tidy_registered l tree reg n c) as (L & HL & Hnode & Hauto);
      try done.
    unfold layerOf. rewrite HL, Hnode, decide_True by done.
    cbn. unfold contents. by rewrite Hauto, Hnode.
  - assert (created doc c = false) as ->.
    { apply not_true_iff_false. intros Hnew.
      destruct (tidy_created _ _ _ _ _ Htidy c Hc Hnew). congruence. }
    unfold layerOf. destruct (reg !! layerKey c) as [L|] eqn:HL; [|done].
    case_decide as Huid; [|done]. exfalso.
    assert (Layer.svgNode L = c) as Hnode.
    { apply (same_uid_same_node tree); [done| |done|done]. by eapply Hplaced. }
    destruct (Hclass _ _ HL) as (_ & _ & Hkind).
    destruct (Layer.auto L) eqn:HautoL.
    + destruct (tidy_auto _ _ _ _ _ Htidy _ _ HL HautoL) as (Hin & Hnew & _).
      destruct (tidy_created _ _ _ _ _ Htidy _ Hin Hnew). congruence.
    + destruct Hkind as (_ & Hg%drawable_group & _). congruence.
Qed.

(** A drawable node that the pass has gone over is a placed child, or
    is held by the current wrapper or by a placed one. *)
Lemma housed_visit p x z :
  z ∈ placed p ∨ held doc z (placed p) (pending p) →
  z ∈ placed (visit p x) ∨ held doc z (placed (visit p x)) (pending (visit p x)).
Proof.
  intros [Hz|Hz]; [left|right; by apply held_visit].
  destruct (pass_visit_visited id doc p x); cbn [placed]; try done;
    rewrite elem_of_app; tauto.
Qed.

Lemma housed_new p x :
  drawable x = true →
  x ∈ placed (visit p x) ∨ held doc x (placed (visit p x)) (pending (visit p x)).
Proof.
  intros Hd.
  destruct (pass_visit_visited id doc p x) as [Htag|? ?| | |]; cbn [placed pending].
  - by apply drawable_tagName in Hd.
  - congruence.
  - left. rewrite elem_of_app, list_elem_of_singleton. tauto.
  - left. rewrite elem_of_app, !elem_of_cons. tauto.
  - right. left. rewrite elem_of_app, list_elem_of_singleton. tauto.
Qed.

Lemma housed_foldl l : ∀ p z,
  drawable z = true →
  z ∈ l ∨ z ∈ placed p ∨ held doc z (placed p) (pending p) →
  z ∈ placed (foldl visit p l)
  ∨ held doc z (placed (foldl visit p l)) (pending (foldl visit p l)).
Proof.
  induction l as [|x l IH]; intros p z Hd Hz; cbn [foldl].
  - destruct Hz as [Hz%elem_of_nil|Hz]; done.
  - apply IH; [done|].
    destruct Hz as [[->|Hz]%elem_of_cons|Hz].
    + right. by apply housed_new.
    + by left.
    + right. by apply housed_visit.
Qed.

Lemma housed_pass_tree p z :
  z ∈ placed p ∨ held doc z (placed p) (pending p) →
  z ∈ pass_tree id doc p
  ∨ ∃ wr, wr ∈ pass_tree id doc p ∧ created doc wr = true ∧ z ∈ childNodes wr.
Proof.
  intros [Hz|Hz]; [left|right; by apply held_pass_tree].
  unfold pass_tree. destruct (pending p); [done|].
  rewrite elem_of_app. tauto.
Qed.


End Registered.

(** C4, as stated, fails.  The rect is held by the first wrapper, and
    the group that follows carries the id of that wrapper: its
    registration replaces the auto layer of the wrapper.  The rect is
    still in the tree, inside the wrapper, but in no layer of the map:
    the contents of the layers are the group alone. *)
Lemma clash_rect_in_no_layer :
  ∃ w', init clashRoot sampleWorld = Return tt w'
    ∧ well_formed sampleWorld clashRoot
    ∧ Presentation.svgRoot (this w') = [wrapper 1 10 0 [clash_rect]; clash_group]
    ∧ layerOf (Presentation.layers (this w')) (wrapper 1 10 0 [clash_rect]) = None
    ∧ layersContents (Presentation.layers (this w'))
        (Presentation.svgRoot (this w')) = [clash_group]
    ∧ List.filter drawable clashRoot = [clash_rect; clash_group]
    ∧ layersContents (Presentation.layers (this w'))
        (Presentation.svgRoot (this w')) ≠ List.filter drawable clashRoot.
Proof.
  eexists. split; [vm_compute; reflexivity|]. split.
  { split.
    - apply (bool_decide_unpack _). vm_compute. exact I.
    - intros x Hx. apply list_elem_of_In in Hx. simpl in Hx.
      repeat (destruct Hx as [<-|Hx]; [simpl; lia|]). done. }
  split; [reflexivity|]. split; [vm_compute; reflexivity|].
  split; [vm_compute; reflexivity|]. split; [reflexivity|].
  vm_compute. discriminate.
Qed.

(** C4 (amended): provided no group child of the root carries the id of
    a wrapper of the presentation, the contents of the layers of the
    map after [init], concatenated in the order in which the nodes of
    the layers stand in the tree, are the drawable children of the
    original root in their original order: the pass groups drawable
    nodes and never exchanges two of them.  Every layer of the map is
    counted: its node is a child of the root. *)
Theorem init_preserves_drawable_order (w : World) (svgRoot : list Node) :
  well_formed w svgRoot →
  wrapper_free (Object_id w) svgRoot →
  ∃ w', init svgRoot w = Return tt w'
    ∧ layersContents (Presentation.layers (this w'))
        (Presentation.svgRoot (this w'))
      = List.filter drawable svgRoot
    ∧ ∀ key L, Presentation.layers (this w') !! key = Some L →
        Layer.svgNode L ∈ Presentation.svgRoot (this w')
        ∧ layerOf (Presentation.layers (this w')) (Layer.svgNode L) = Some L.
Proof.
  intros Hwf Hfree. eexists. split; [by apply init_run|].
  cbn [world_of this Presentation.svgRoot Presentation.layers].
  set (id := Object_id w). set (doc := document w). set (p := pass_of w svgRoot).
  destruct (pass_of_registry w svgRoot Hwf) as (Hplaced & Hclass & Hnodup).
  fold id doc p in Hplaced, Hclass, Hnodup.
  destruct (tidy_pass_tree id doc p) as [n Htidy].
  { apply tidy_foldl; [apply Hwf|done|apply tidy_start]. }
  split.
  - rewrite (tidy_layersContents id doc svgRoot _ _ n) by done.
    unfold p, pass_of. rewrite treeContents_foldl by apply Hwf. done.
  - intros key L HL. split; [by eapply Hplaced|].
    by eapply (layerOf_registered doc svgRoot).
Qed.

Lemma init_preserves_drawable_order_witness :
  ∃ w', init sampleRoot sampleWorld = Return tt w'
    ∧ layersContents (Presentation.layers (this w'))
        (Presentation.svgRoot (this w'))
      = List.filter drawable sampleRoot
    ∧ ∀ key L, Presentation.layers (this w') !! key = Some L →
        Layer.svgNode L ∈ Presentation.svgRoot (this w')
        ∧ layerOf (Presentation.layers (this w')) (Layer.svgNode L) = Some L.
Proof.
  apply (init_preserves_drawable_order sampleWorld sampleRoot).
  - apply well_formed_sample.
  - intros x Hx Hg k. apply list_elem_of_In in Hx. simpl in Hx.
    destruct (wrapperId_head (Object_id sampleWorld) k) as [s ->].
    repeat (destruct Hx as [<-|Hx]; [discriminate|]). done.
Defined.



(** X14: after [init] every drawable child of the root is a group with
    an id that is not empty and is no name inherited from
    [Object.prototype], and no drawable node is lost: each drawable
    child of the original root is still a child of the root or is a
    child of a wrapper made by the pass, which is a child of the
    root. *)
Theorem init_leaves_groups (w : World) (svgRoot : list Node) :
  well_formed w svgRoot →
  ∃ w', init svgRoot w = Return tt w'
    ∧ (∀ c, c ∈ Presentation.svgRoot (this w') → drawable c = true →
            nodeName c = "g" ∧ truthy (getAttribute c "id") = true
            ∧ inherited (layerKey c) = false)
    ∧ (∀ x, x ∈ svgRoot → drawable x = true →
            x ∈ Presentation.svgRoot (this w')
            ∨ ∃ wr, wr ∈ Presentation.svgRoot (this w')
                    ∧ created (document w) wr = true ∧ x ∈ childNodes wr).
Proof.
  intros Hwf. eexists. split; [by apply init_run|].
  cbn [world_of this Presentation.svgRoot]. split.
  - intros c Hc.
    apply (groups_only_pass_tree (Object_id w) (document w) (pass_of w svgRoot));
      [|done].
    unfold pass_of.
    apply (foldl_pass_invariant _ _ (λ p, groups_only (placed p))).
    + intros p x _. apply groups_only_visit.
    + by intros c' Hc'%elem_of_nil.
  - intros x Hx Hd. apply housed_pass_tree. unfold pass_of.
    apply housed_foldl; [done|by left].
Qed.

Lemma init_leaves_groups_witness :
  ∃ w', init sampleRoot sampleWorld = Return tt w'
    ∧ (∀ c, c ∈ Presentation.svgRoot (this w') → drawable c = true →
            nodeName c = "g" ∧ truthy (getAttribute c "id") = true
            ∧ inherited (layerKey c) = false)
    ∧ (∀ x, x ∈ sampleRoot → drawable x = true →
            x ∈ Presentation.svgRoot (this w')
            ∨ ∃ wr, wr ∈ Presentation.svgRoot (this w')
                    ∧ created (document sampleWorld) wr = true
                    ∧ x ∈ childNodes wr).
Proof.
  apply (init_leaves_groups sampleWorld sampleRoot), well_formed_sample.
Defined.

(** X15: after [init] the keys of the layer map are the ids of the
    drawable children of the root.  The layer registered under the id
    of a drawable child has as its node a child of the root with that
    id; provided no group child of the original root carries the id of
    a wrapper of the presentation, that node is the child itself. *)
Theorem init_layer_keys (w : World) (svgRoot : list Node) :
  well_formed w svgRoot →
  ∃ w', init svgRoot w = Return tt w'
    ∧ dom (Presentation.layers (this w'))
      = list_to_set (layerKeys (Presentation.svgRoot (this w')))
    ∧ (∀ c, c ∈ Presentation.svgRoot (this w') → drawable c = true →
         ∃ L, Presentation.layers (this w') !! layerKey c = Some L
              ∧ Layer.svgNode L ∈ Presentation.svgRoot (this w')
              ∧ layerKey (Layer.svgNode L) = layerKey c)
    ∧ (wrapper_free (Object_id w) svgRoot →
       ∀ c, c ∈ Presentation.svgRoot (this w') → drawable c = true →
         ∃ L, Presentation.layers (this w') !! layerKey c = Some L
              ∧ Layer.svgNode L = c).
Proof.
  intros Hwf. eexists. split; [by apply init_run|].
  cbn [world_of this Presentation.svgRoot Presentation.layers].
  set (id := Object_id w). set (doc := document w). set (p := pass_of w svgRoot).
  destruct (pass_of_registry w svgRoot Hwf) as (Hplaced & Hclass & Hnodup).
  fold id doc p in Hplaced, Hclass, Hnodup.
  assert (∀ s, is_Some (pass_layers id doc p !! s)
               ↔ s ∈ layerKeys (pass_tree id doc p)) as Hkeys.
  { apply keys_match_pass_tree. unfold p, pass_of.
    apply (foldl_pass_invariant _ _ keys_match).
    - intros q x _. apply keys_match_visit.
    - intros key. cbn. rewrite lookup_empty, elem_of_nil.
      split; [by intros []|done]. }
  split; [|split].
  - apply set_eq. intros s. by rewrite elem_of_dom, elem_of_list_to_set.
  - intros c Hc Hd. destruct (Hkeys (layerKey c)) as [_ [L HL]].
    { unfold layerKeys. apply list_elem_of_fmap_2.
      by apply elem_of_filter_drawable. }
    exists L. split; [done|]. split; [by eapply Hplaced|].
    by destruct (Hclass _ _ HL) as (<- & _).
  - intros Hfree c Hc Hd.
    destruct (tidy_pass_tree id doc p) as [n Htidy].
    { apply tidy_foldl; [apply Hwf|done|apply tidy_start]. }
    destruct (tidy_registered id doc svgRoot _ _ n c Htidy) as (L & HL & Hnode & _);
      try done.
    by exists L.
Qed.

Lemma init_layer_keys_witness :
  ∃ w', init sampleRoot sampleWorld = Return tt w'
    ∧ dom (Presentation.layers (this w'))
      = list_to_set (layerKeys (Presentation.svgRoot (this w')))
    ∧ (∀ c, c ∈ Presentation.svgRoot (this w') → drawable c = true →
         ∃ L, Presentation.layers (this w') !! layerKey c = Some L
              ∧ Layer.svgNode L ∈ Presentation.svgRoot (this w')
              ∧ layerKey (Layer.svgNode L) = layerKey c)
    ∧ (∀ c, c ∈ Presentation.svgRoot (this w') → drawable c = true →
         ∃ L, Presentation.layers (this w') !! layerKey c = Some L
              ∧ Layer.svgNode L = c).
Proof.
  destruct (init_layer_keys sampleWorld sampleRoot well_formed_sample)
    as (w' & Hrun & Hdom & Hnode & Hself).
  exists w'. split; [done|]. split; [done|]. split; [done|].
  apply Hself. intros x Hx Hg k. apply list_elem_of_In in Hx. simpl in Hx.
  destruct (wrapperId_head (Object_id sampleWorld) k) as [s ->].
  repeat (destruct Hx as [<-|Hx]; [discriminate|]). done.
Defined.
